(** * download_thingy: a shallow embedding of the tweet downloader

    The development follows [download_thingy.py]: the JSON database
    ([read_db], [write_db]), the identity resolver ([get_user_ids],
    [get_user_info]), the by-id fetcher ([get_known], [fetch_tweets_by_id]),
    the scrape client ([parse_timeline_item], [parse_entry_content],
    [get_guest_token], [get_related_tweets]) and the reply closure
    ([do_reply_closure] with the throttled checkpoint generator [write_gen]
    of [main]), the timeline fetch ([fetch_user_tweets]) and [main] itself,
    and then the report of [analyze_users.py] on the same database.

    Python exceptions are values of [exn]; a computation either returns,
    raises, or runs out of fuel (the two [while True] loops).  Everything
    outside the process (clock, official API, scrape endpoint, keyboard,
    disk) is an oracle of the record [env], consulted at the current
    [tick], the disk at the number of the write. *)

From stdpp Require Import base option list strings gmap pretty sorting.
From Stdlib Require Import ZArith Ascii.

Local Open Scope string_scope.
Disable Notation "_ ++ _" : string_scope.
Set Warnings "-register-all,-clear-no-such-hyp".

(* ================================================================== *)
(** * Part I: definitions *)
(* ================================================================== *)

(** ** Exceptions and results *)

Inductive exn : Type :=
| KeyboardInterrupt
| RuntimeError (msg : string)
| HTTPError (status : Z)
| KeyError (key : string)
| AttributeError (attr : string)
| IndexError
| TypeError
| ValueError
| FileExistsError
| OSError.

Inductive result (A : Type) : Type :=
| Ok (a : A)
| Raise (e : exn)
| OutOfFuel.
Arguments Ok {A} a.
Arguments Raise {A} e.
Arguments OutOfFuel {A}.

Definition rbind {A B} (m : result A) (k : A → result B) : result B :=
  match m with
  | Ok a => k a
  | Raise e => Raise e
  | OutOfFuel => OutOfFuel
  end.

Notation "'let?' x := m 'in' k" := (rbind m (fun x => k))
  (at level 10, x name, m at level 100, k at level 200).

(** ** JSON documents, as [json.load] and [response.json()] return them *)

Inductive json : Type :=
| JNull
| JBool (b : bool)
| JNum (n : Z)
| JStr (s : string)
| JArr (items : list json)
| JObj (members : list (string * json)).

(** Python truthiness: [not v] is [negb (truthy v)]. *)
Definition truthy (v : json) : bool :=
  match v with
  | JNull => false
  | JBool b => b
  | JNum n => negb (n =? 0)%Z
  | JStr s => negb (String.eqb s "")
  | JArr items => match items with [] => false | _ => true end
  | JObj members => match members with [] => false | _ => true end
  end.

(** A JSON object with a repeated key loads as a dict holding the last
    binding. *)
Fixpoint dict_get (key : string) (members : list (string * json)) : option json :=
  match members with
  | [] => None
  | (k, v) :: rest =>
      match dict_get key rest with
      | Some later => Some later
      | None => if String.eqb k key then Some v else None
      end
  end.

(** [v[key]] for a string key. *)
Definition getitem (v : json) (key : string) : result json :=
  match v with
  | JObj members =>
      match dict_get key members with
      | Some x => Ok x
      | None => Raise (KeyError key)
      end
  | _ => Raise TypeError
  end.

(** [v[0]]. *)
Definition getitem0 (v : json) : result json :=
  match v with
  | JArr [] => Raise IndexError
  | JArr (x :: _) => Ok x
  | JObj _ => Raise (KeyError "0")
  | JStr EmptyString => Raise IndexError
  | JStr (String c _) => Ok (JStr (String c EmptyString))
  | _ => Raise TypeError
  end.

Fixpoint chars (s : string) : list json :=
  match s with
  | EmptyString => []
  | String c rest => JStr (String c EmptyString) :: chars rest
  end.

Fixpoint dict_keys (members : list (string * json)) : list string :=
  match members with
  | [] => []
  | (k, _) :: rest =>
      if bool_decide (k ∈ rest.*1) then dict_keys rest else k :: dict_keys rest
  end.

(** [for x in v]. *)
Definition iterate (v : json) : result (list json) :=
  match v with
  | JArr items => Ok items
  | JObj members => Ok (JStr <$> dict_keys members)
  | JStr s => Ok (chars s)
  | _ => Raise TypeError
  end.

(** [v != lit] for a string literal. *)
Definition str_ne (v : json) (lit : string) : bool :=
  match v with
  | JStr s => negb (String.eqb s lit)
  | _ => true
  end.

(** ** Scraped documents: [parse_timeline_item], [parse_entry_content] *)

(** Ids are strings throughout; a [rest_id] of another JSON type has no
    counterpart in the id sets of the program and is reported as a
    [TypeError]. *)
Definition parse_timeline_item (content : json) (result_ : list string)
  : result (list string) :=
  let? item_content := getitem content "itemContent" in
  let? item_type := getitem item_content "itemType" in
  if str_ne item_type "TimelineTweet" then Ok result_ else
  let? tweet_results := getitem item_content "tweet_results" in
  let? inner := getitem tweet_results "result" in
  let? typename := getitem inner "__typename" in
  if str_ne typename "Tweet" then Ok result_ else
  let? rest_id := getitem inner "rest_id" in
  match rest_id with
  | JStr s => Ok (result_ ++ [s])
  | _ => Raise TypeError
  end.

Fixpoint parse_module_items (items : list json) (result_ : list string)
  : result (list string) :=
  match items with
  | [] => Ok result_
  | item :: rest =>
      let? inner := getitem item "item" in
      let? result_ := parse_timeline_item inner result_ in
      parse_module_items rest result_
  end.

Definition parse_entry_content (content : json) (result_ : list string)
  : result (list string) :=
  let? entry_type := getitem content "entryType" in
  match entry_type with
  | JStr "TimelineTimelineItem" => parse_timeline_item content result_
  | JStr "TimelineTimelineModule" =>
      let? items := getitem content "items" in
      let? items := iterate items in
      parse_module_items items result_
  | _ => Raise (RuntimeError "Unknown entryType")
  end.

Fixpoint parse_entries (entries : list json) (result_ : list string)
  : result (list string) :=
  match entries with
  | [] => Ok result_
  | entry :: rest =>
      let? content := getitem entry "content" in
      let? result_ := parse_entry_content content result_ in
      parse_entries rest result_
  end.

(** The body of the [try] of [get_related_tweets]. *)
Definition parse_conversation (data_ : json) : result (list string) :=
  let? conv := getitem data_ "threaded_conversation_with_injections_v2" in
  let? instructions := getitem conv "instructions" in
  let? first := getitem0 instructions in
  let? entries := getitem first "entries" in
  let? entries := iterate entries in
  parse_entries entries [].

(** [except Exception as ex: raise RuntimeError(...) from ex]. *)
Definition with_context {A} (m : result A) : result A :=
  match m with
  | Ok a => Ok a
  | Raise KeyboardInterrupt => Raise KeyboardInterrupt
  | Raise _ => Raise (RuntimeError "context")
  | OutOfFuel => OutOfFuel
  end.

(** What [get_related_tweets] does with the body of a 200 response. *)
Definition related_of_json (response_json : json) : result (list string) :=
  let? data_ := getitem response_json "data" in
  if negb (truthy data_) then Ok ["tweet_was_deleted"] else
  let? result_ := with_context (parse_conversation data_) in
  match result_ with
  | [] => Ok ["couldnt_scrape"]
  | _ => Ok result_
  end.

(** ** Strings: [str.isdigit], [str.casefold], [int], restricted to ASCII *)

(** A [str] is modelled by its bytes.  On a string of ASCII characters
    [isdigit] and [casefold] below are [str.isdigit] and [str.casefold];
    on other strings Python knows more digits and folds more letters, so
    the properties that rest on a selector not being a number, or on two
    names not matching, are stated for ASCII strings. *)
Definition is_ascii_char (c : ascii) : bool := (nat_of_ascii c <? 128)%nat.

Fixpoint is_ascii (s : string) : bool :=
  match s with
  | EmptyString => true
  | String c rest => is_ascii_char c && is_ascii rest
  end.

Definition is_digit (c : ascii) : bool :=
  let n := nat_of_ascii c in ((48 <=? n) && (n <=? 57))%nat.

Fixpoint all_digits (s : string) : bool :=
  match s with
  | EmptyString => true
  | String c rest => is_digit c && all_digits rest
  end.

Definition isdigit (s : string) : bool :=
  negb (String.eqb s "") && all_digits s.

Definition lower (c : ascii) : ascii :=
  let n := nat_of_ascii c in
  if ((65 <=? n) && (n <=? 90))%nat then ascii_of_nat (n + 32) else c.

Fixpoint casefold (s : string) : string :=
  match s with
  | EmptyString => EmptyString
  | String c rest => String (lower c) (casefold rest)
  end.

Fixpoint digits_value (s : string) (acc : Z) : Z :=
  match s with
  | EmptyString => acc
  | String c rest => digits_value rest (10 * acc + Z.of_nat (nat_of_ascii c - 48))
  end.

(** [int(s)] for a decimal numeral; anything else is a [ValueError] at the
    caller. *)
Definition int_of_string (s : string) : option Z :=
  if isdigit s then Some (digits_value s 0%Z) else None.

(** ** Dicts with string keys, in insertion order *)

Fixpoint dict_set {V} (k : string) (v : V) (d : list (string * V)) : list (string * V) :=
  match d with
  | [] => [(k, v)]
  | (k', v') :: rest =>
      if String.eqb k' k then (k, v) :: rest else (k', v') :: dict_set k v rest
  end.

Fixpoint dict_lookup {V} (k : string) (d : list (string * V)) : option V :=
  match d with
  | [] => None
  | (k', v) :: rest => if String.eqb k' k then Some v else dict_lookup k rest
  end.

(** ** The database *)

Record ref : Type := { ref_type : string; ref_id : string }.

(** [tw_referenced_tweets] is read with [tweet.get("referenced_tweets", ())]:
    an absent key is the empty list.  [tw_scraped_refs] keeps the difference
    between an absent key ([None]) and a stored list. *)
Record tweet : Type := {
  tw_id : string;
  tw_author_id : string;
  tw_conversation_id : string;
  tw_referenced_tweets : list ref;
  tw_scraped_refs : option (list string)
}.

(** [u_username] is [None] for Python's [None]. *)
Record user : Type := {
  u_id : string;
  u_username : option string;
  u_name : string;
  u_description : string
}.

Record error : Type := {
  err_resource_id : string;
  err_value : string;
  err_title : string;
  err_detail : string
}.

(** The top-level dict; a key that is missing is [None]. *)
Record db : Type := {
  users : option (list user);
  tweets : option (list tweet);
  errors : option (list error)
}.

Definition empty_db : db := {| users := None; tweets := None; errors := None |}.

Definition tweets_of (d : db) : list tweet := default [] (tweets d).
Definition errors_of (d : db) : list error := default [] (errors d).
Definition users_of (d : db) : list user := default [] (users d).

Definition set_tweets (l : list tweet) (d : db) : db :=
  {| users := users d; tweets := Some l; errors := errors d |}.
Definition set_errors (l : list error) (d : db) : db :=
  {| users := users d; tweets := tweets d; errors := Some l |}.
Definition set_users (l : list user) (d : db) : db :=
  {| users := Some l; tweets := tweets d; errors := errors d |}.

Definition set_scraped_refs (scraped : list string) (tw : tweet) : tweet :=
  {| tw_id := tw_id tw; tw_author_id := tw_author_id tw;
     tw_conversation_id := tw_conversation_id tw;
     tw_referenced_tweets := tw_referenced_tweets tw;
     tw_scraped_refs := Some scraped |}.

(** ** Answers of the official API *)

(** A tweet object of the v2 lookup carries the requested [tweet_fields];
    [scraped_refs] is a key of this program only. *)
Record api_tweet : Type := {
  api_id : string;
  api_author_id : string;
  api_conversation_id : string;
  api_referenced_tweets : list ref
}.

Definition from_api (t : api_tweet) : tweet :=
  {| tw_id := api_id t; tw_author_id := api_author_id t;
     tw_conversation_id := api_conversation_id t;
     tw_referenced_tweets := api_referenced_tweets t;
     tw_scraped_refs := None |}.

(** [got.get("data", [])] and [got.get("errors", [])]. *)
Record tweets_response : Type := {
  tr_data : list api_tweet;
  tr_errors : list error
}.

(** [got["data"]] and ["errors" in got]: here the presence of the keys
    matters. *)
Record users_response : Type := {
  ur_data : option (list user);
  ur_errors : option (list error)
}.

Record http_response : Type := {
  status_code : Z;
  x_rate_limit_reset : option Z;
  json_body : option json
}.

(** ** The world *)

(** Every oracle is asked at the tick of the call; [OutOfFuel] as an answer
    is a call that never returns, [Raise KeyboardInterrupt] an interrupt
    that arrives while the call blocks.  [disk_write n] is the outcome of
    the steps on the disk (creating the temporary file, [json.dump],
    [os.replace]; each of them can raise) of the call of [write_db] that
    [n] calls have preceded. *)
Record env : Type := {
  clock : nat → Z;
  sleep_ends : nat → Z → result unit;
  session_send : nat → string → json → result http_response;
  session_post : nat → result http_response;
  client_get_tweets : nat → list string → result tweets_response;
  client_get_users : nat → list string → result users_response;
  client_get_users_by_id : nat → list string → result users_response;
  client_get_users_tweets : nat → option string → Z → list api_tweet * result unit;
  disk_write : nat → result unit
}.

Inductive event : Type :=
| EvGetTweets (ids : list string)
| EvGetUsers (usernames : list string)
| EvGetUsersById (ids : list string)
| EvGetUsersTweets (user_id : option string) (since_id : Z)
| EvGuestActivate
| EvScrape (index : nat) (focal : string)
| EvSend (focal : string) (guest_token : json)
| EvSleep (secs : Z)
| EvWriteFn
| EvWriteDb.

(** [data] is the dict held by [main]; [store] the committed content of the
    state file ([None]: no file); [gen_last] the local [last] of the
    generator [write_gen] ([None] before its first [next]); [writes] counts
    the calls of [write_db]; every entry of [trace] pairs an event with the
    in-memory database of that moment. *)
Record state : Type := {
  data : db;
  store : option db;
  gen_last : option Z;
  tick : nat;
  writes : nat;
  trace : list (event * db)
}.

Definition with_data (f : db → db) (s : state) : state :=
  {| data := f (data s); store := store s; gen_last := gen_last s;
     tick := tick s; writes := writes s; trace := trace s |}.
Definition with_store (o : option db) (s : state) : state :=
  {| data := data s; store := o; gen_last := gen_last s;
     tick := tick s; writes := writes s; trace := trace s |}.
Definition with_gen_last (o : option Z) (s : state) : state :=
  {| data := data s; store := store s; gen_last := o;
     tick := tick s; writes := writes s; trace := trace s |}.
Definition next_tick (s : state) : state :=
  {| data := data s; store := store s; gen_last := gen_last s;
     tick := S (tick s); writes := writes s; trace := trace s |}.
Definition next_write (s : state) : state :=
  {| data := data s; store := store s; gen_last := gen_last s;
     tick := tick s; writes := S (writes s); trace := trace s |}.
Definition record_event (e : event) (s : state) : state :=
  {| data := data s; store := store s; gen_last := gen_last s;
     tick := tick s; writes := writes s; trace := trace s ++ [(e, data s)] |}.

Definition M (A : Type) : Type := state → result A * state.

Definition ret {A} (a : A) : M A := λ s, (Ok a, s).
Definition raise {A} (e : exn) : M A := λ s, (Raise e, s).
Definition lift {A} (r : result A) : M A := λ s, (r, s).
Definition bind {A B} (m : M A) (k : A → M B) : M B := λ s,
  match m s with
  | (Ok a, s') => k a s'
  | (Raise e, s') => (Raise e, s')
  | (OutOfFuel, s') => (OutOfFuel, s')
  end.

Notation "'let!' x := m 'in' k" := (bind m (fun x => k))
  (at level 10, x name, m at level 100, k at level 200).
Notation "'do!' m 'in' k" := (bind m (fun _ => k))
  (at level 10, m at level 100, k at level 200).

Definition gets {A} (f : state → A) : M A := λ s, (Ok (f s), s).
Definition modify (f : state → state) : M unit := λ s, (Ok tt, f s).
Definition log (e : event) : M unit := modify (record_event e).
Definition consult {A} (oracle : nat → result A) : M A :=
  λ s, (oracle (tick s), next_tick s).

(** [try: body except KeyboardInterrupt: handler]. *)
Definition except_KeyboardInterrupt {A} (body handler : M A) : M A := λ s,
  match body s with
  | (Raise KeyboardInterrupt, s') => handler s'
  | other => other
  end.

(** ** The program *)

Section Program.
Context (E : env).

Definition time_time : M Z := consult (λ n, Ok (clock E n)).

(** [time.sleep(secs)] raises [ValueError] for a negative length. *)
Definition time_sleep (secs : Z) : M unit :=
  if (secs <? 0)%Z then raise ValueError
  else do! log (EvSleep secs) in consult (λ n, sleep_ends E n secs).

Definition raise_for_status (response : http_response) : M unit :=
  if (400 <=? status_code response)%Z && (status_code response <? 600)%Z
  then raise (HTTPError (status_code response))
  else ret tt.

Definition response_json (response : http_response) : M json :=
  match json_body response with
  | Some j => ret j
  | None => raise ValueError
  end.

(** *** Persistent store: [read_db], [write_db] as seen by the program *)

Definition read_db : M db :=
  gets (λ s, match store s with Some d => d | None => empty_db end).

(** The steps of one [write_db] on the disk. *)
Definition disk_steps : M unit := λ s, (disk_write E (writes s), next_write s).

(** The state file is replaced only when all steps on the disk went
    through; a write that raises leaves it as it was. *)
Definition write_db : M unit :=
  do! log EvWriteDb in
  do! disk_steps in
  modify (λ s, with_store (Some (data s)) s).

(** *** [get_known] *)

Definition get_known (d : db) : gset string :=
  let known : gset string := list_to_set (tw_id <$> tweets_of d) in
  let known := known ∪ list_to_set (err_resource_id <$> errors_of d) in
  known ∪ list_to_set ["couldnt_scrape"; "tweet_was_deleted"].

(** *** [fetch_tweets_by_id] *)

Definition setdefault_tweets : M (list tweet) :=
  do! modify (with_data (λ d, match tweets d with Some _ => d | None => set_tweets [] d end)) in
  gets (λ s, tweets_of (data s)).

Definition setdefault_errors : M (list error) :=
  do! modify (with_data (λ d, match errors d with Some _ => d | None => set_errors [] d end)) in
  gets (λ s, errors_of (data s)).

Definition setdefault_users : M (list user) :=
  do! modify (with_data (λ d, match users d with Some _ => d | None => set_users [] d end)) in
  gets (λ s, users_of (data s)).

Definition extend_tweets (new : list tweet) : M unit :=
  modify (with_data (λ d, set_tweets (tweets_of d ++ new) d)).

Definition extend_errors (new : list error) : M unit :=
  modify (with_data (λ d, set_errors (errors_of d ++ new) d)).

Definition extend_users (new : list user) : M unit :=
  modify (with_data (λ d, set_users (users_of d ++ new) d)).

Definition get_tweets (ids : list string) : M tweets_response :=
  do! log (EvGetTweets ids) in consult (λ n, client_get_tweets E n ids).

Definition fetch_tweets_by_id (tweet_ids : list string) : M unit :=
  let! d := gets data in
  let tweet_ids : gset string := list_to_set tweet_ids ∖ get_known d in
  if bool_decide (tweet_ids = ∅) then ret tt else
  do! setdefault_tweets in
  let! got := get_tweets (elements tweet_ids) in
  do! extend_tweets (from_api <$> tr_data got) in
  do! setdefault_errors in
  extend_errors (tr_errors got).

(** *** [get_guest_token], [get_related_tweets] *)

Definition get_guest_token : M json :=
  do! log EvGuestActivate in
  let! response := consult (session_post E) in
  do! raise_for_status response in
  let! body := response_json response in
  lift (getitem body "guest_token").

(** The [while True] of [get_related_tweets]: send, leave on any status
    but 429, otherwise sleep for [resume - time.time()] and send again. *)
Fixpoint send_request (fuel : nat) (tweet : string) (guest_token : json)
  : M http_response :=
  match fuel with
  | O => lift OutOfFuel
  | S fuel =>
      do! log (EvSend tweet guest_token) in
      let! response := consult (λ n, session_send E n tweet guest_token) in
      if negb (status_code response =? 429)%Z then ret response else
      let! resume := match x_rate_limit_reset response with
                | Some r => ret r
                | None => raise (KeyError "x-rate-limit-reset")
                end in
      let! now := time_time in
      let wait_time := (resume - now)%Z in
      do! time_sleep wait_time in
      send_request fuel tweet guest_token
  end.

Definition get_related_tweets (fuel : nat) (tweet : string) (guest_token : json)
  : M (list string) :=
  let! response := send_request fuel tweet guest_token in
  do! raise_for_status response in
  if negb (status_code response =? 200)%Z
  then raise (RuntimeError "Got a non-200 status") else
  let! body := response_json response in
  lift (related_of_json body).

(** *** [do_reply_closure] *)

(** The local variables of the closure that outlive one tweet. *)
Record locals : Type := {
  known : gset string;
  guest_token : option json;
  batch : list string
}.

Definition falsy_token (t : option json) : bool :=
  match t with
  | None => true
  | Some v => negb (truthy v)
  end.

Definition is_empty {A} (l : list A) : bool :=
  match l with [] => true | _ => false end.

(** The test [not scraped and tweet["author_id"] in expand_ids]. *)
Definition wants_scrape (expand_ids : gset string) (tw : tweet) : bool :=
  is_empty (default [] (tw_scraped_refs tw))
  && bool_decide (tw_author_id tw ∈ expand_ids).

Definition store_scraped_refs (i : nat) (scraped : list string) : M unit :=
  modify (with_data (λ d, set_tweets (alter (set_scraped_refs scraped) i (tweets_of d)) d)).

Section Closure.
Context (fuel : nat) (expand_ids : gset string) (write_fn : M unit).

(** [if not guest_token: guest_token = get_guest_token(client)]. *)
Definition ensure_guest_token (l : locals) : M json :=
  if falsy_token (guest_token l) then get_guest_token
  else ret (default JNull (guest_token l)).

(** The [try] statement around the scrape of the tweet at index [i]. *)
Definition try_get_related_tweets (i : nat) (tweet_ : tweet) (token : json)
  : M (list string) :=
  do! log (EvScrape i (tw_id tweet_)) in
  except_KeyboardInterrupt
    (get_related_tweets fuel (tw_id tweet_) token)
    (do! write_fn in raise KeyboardInterrupt).

(** One turn of [for tweet in tweets[pos:]]; [i] is the index of [tweet]
    in [tweets], where the dict mutated by [tweet["scraped_refs"] = ...]
    lives. *)
Definition scan_tweet (i : nat) (tweet_ : tweet) (l : locals) : M locals :=
  let scraped := default [] (tw_scraped_refs tweet_) in
  let! sg := (if wants_scrape expand_ids tweet_ then
                let! token := ensure_guest_token l in
                let! scraped := try_get_related_tweets i tweet_ token in
                do! store_scraped_refs i scraped in
                ret (scraped, Some token)
              else ret (scraped, guest_token l)) in
  let all_refs : gset string := list_to_set (ref_id <$> tw_referenced_tweets tweet_) in
  let all_refs := all_refs ∪ list_to_set sg.1 in
  let all_refs := all_refs ∖ known l in
  let batch_ := batch l ++ elements all_refs in
  let known_ := known l ∪ all_refs in
  do! write_fn in
  ret {| known := known_; guest_token := sg.2; batch := batch_ |}.

Fixpoint scan (i : nat) (slice : list tweet) (l : locals) : M locals :=
  match slice with
  | [] => ret l
  | tweet_ :: rest =>
      let! l := scan_tweet i tweet_ l in
      scan (S i) rest l
  end.

(** [range(0, stop, 100)]. *)
Definition range100 (stop : nat) : list nat :=
  (λ k, k * 100) <$> seq 0 ((stop + 99) / 100).

Fixpoint fetch_chunks (starts : list nat) (batch_ : list string) : M unit :=
  match starts with
  | [] => ret tt
  | chunk :: rest =>
      let! got := get_tweets (take 100 (drop chunk batch_)) in
      do! extend_tweets (from_api <$> tr_data got) in
      do! extend_errors (tr_errors got) in
      do! write_fn in
      fetch_chunks rest batch_
  end.

(** The outer [while True]; [pos] and the locals are its loop variables. *)
Fixpoint closure_loop (rounds : nat) (pos : nat) (l : locals) : M unit :=
  match rounds with
  | O => lift OutOfFuel
  | S rounds =>
      let! tweets_ := gets (λ s, tweets_of (data s)) in
      let! l := scan pos (drop pos tweets_) l in
      if is_empty (batch l) then ret tt else
      let! tweets_ := gets (λ s, tweets_of (data s)) in
      let pos := length tweets_ in
      do! fetch_chunks (range100 (length (batch l))) (batch l) in
      closure_loop rounds pos
        {| known := known l; guest_token := guest_token l; batch := [] |}
  end.

Definition known_with_scraped (known_ : gset string) (tweets_ : list tweet)
  : gset string :=
  foldl (λ k tw, k ∪ list_to_set (default [] (tw_scraped_refs tw))) known_ tweets_.

Definition do_reply_closure : M unit :=
  let! tweets_ := setdefault_tweets in
  do! setdefault_errors in
  let! d := gets data in
  let known_ := known_with_scraped (get_known d) tweets_ in
  closure_loop fuel 0 {| known := known_; guest_token := None; batch := [] |}.

(** The places of the run.  [scan_reaches i slice l s j tw l' s']: the
    [for] loop over [slice], begun at index [i] with the locals [l] in the
    state [s], comes to the turn of the tweet [tw] of index [j] with the
    locals [l'] in the state [s'], every turn before it having returned. *)
Inductive scan_reaches
  : nat → list tweet → locals → state → nat → tweet → locals → state → Prop :=
| scan_here i tw rest l s :
    scan_reaches i (tw :: rest) l s i tw l s
| scan_later i tw rest l s l1 s1 j tw' l' s' :
    scan_tweet i tw l s = (Ok l1, s1) →
    scan_reaches (S i) rest l1 s1 j tw' l' s' →
    scan_reaches i (tw :: rest) l s j tw' l' s'.

(** The same for the [while True]: the turn is one of this pass of the
    scan, or of a later pass, after this one has returned with a batch and
    the batch has been fetched. *)
Inductive loop_reaches
  : nat → nat → locals → state → nat → tweet → locals → state → Prop :=
| loop_scan rounds pos l s j tw l' s' :
    scan_reaches pos (drop pos (tweets_of (data s))) l s j tw l' s' →
    loop_reaches (S rounds) pos l s j tw l' s'
| loop_next rounds pos l s l1 s1 s2 j tw l' s' :
    scan pos (drop pos (tweets_of (data s))) l s = (Ok l1, s1) →
    is_empty (batch l1) = false →
    fetch_chunks (range100 (length (batch l1))) (batch l1) s1 = (Ok tt, s2) →
    loop_reaches rounds (length (tweets_of (data s1)))
      {| known := known l1; guest_token := guest_token l1; batch := [] |} s2
      j tw l' s' →
    loop_reaches (S rounds) pos l s j tw l' s'.

(** And for [do_reply_closure], called in the state [s]. *)
Definition closure_reaches (s : state) (j : nat) (tw : tweet) (l' : locals)
  (s' : state) : Prop :=
  ∃ tweets_ s1 errors_ s2,
    setdefault_tweets s = (Ok tweets_, s1) ∧
    setdefault_errors s1 = (Ok errors_, s2) ∧
    loop_reaches fuel 0
      {| known := known_with_scraped (get_known (data s2)) tweets_;
         guest_token := None; batch := [] |} s2 j tw l' s'.

End Closure.

(** *** [write_gen] of [main], advanced by [next(gen_obj)] *)

Definition next_gen_obj : M unit :=
  let! started := gets gen_last in
  let! last := match started with
          | Some last => ret last
          | None => let! last := time_time in
                    do! modify (with_gen_last (Some last)) in
                    ret last
          end in
  let! now := time_time in
  if (now - last >? 10)%Z then
    do! write_db in
    modify (with_gen_last (Some now))
  else ret tt.

(** A callback that only leaves a mark in the trace, to count the calls of
    [write_fn]. *)
Definition write_fn_mark : M unit := log EvWriteFn.

(** *** [get_user_ids] *)

Definition get_users (usernames : list string) : M users_response :=
  do! log (EvGetUsers usernames) in consult (λ n, client_get_users E n usernames).

Definition get_users_by_id (ids : list string) : M users_response :=
  do! log (EvGetUsersById ids) in consult (λ n, client_get_users_by_id E n ids).

(** The inner [for db_item in user_db]: [Ok (Some id)] at the [break],
    [Ok None] when the [else] of the loop is reached. *)
Fixpoint find_user (name_cf : string) (user_db : list user) : result (option string) :=
  match user_db with
  | [] => Ok None
  | db_item :: rest =>
      match u_username db_item with
      | None => Raise (AttributeError "casefold")
      | Some username =>
          if String.eqb (casefold username) name_cf
          then Ok (Some (u_id db_item))
          else find_user name_cf rest
      end
  end.

(** The first loop of [get_user_ids]; [need] is the dict of pending
    usernames, in insertion order. *)
Fixpoint resolve_names (names : list string) (user_db : list user)
    (result_ : list (option string)) (need : list (string * nat))
  : result (list (option string) * list (string * nat)) :=
  match names with
  | [] => Ok (result_, need)
  | name :: rest =>
      if isdigit name then resolve_names rest user_db (result_ ++ [Some name]) need else
      match name with
      | EmptyString => Raise IndexError
      | String c tail =>
          let name := if Ascii.eqb c "@" then tail else name in
          let name_cf := casefold name in
          let? found := find_user name_cf user_db in
          match found with
          | Some uid => resolve_names rest user_db (result_ ++ [Some uid]) need
          | None =>
              resolve_names rest user_db (result_ ++ [None])
                (dict_set (casefold name) (length result_) need)
          end
      end
  end.

(** The loop [for blob in got["data"]]. *)
Fixpoint splice_users (blobs : list user) (need : list (string * nat))
    (result_ : list (option string)) : M (list (option string)) :=
  match blobs with
  | [] => ret result_
  | blob :: rest =>
      do! extend_users [blob] in
      let! username := match u_username blob with
                       | Some u => ret u
                       | None => raise (AttributeError "casefold")
                       end in
      let! idx := match dict_lookup (casefold username) need with
                  | Some i => ret i
                  | None => raise (KeyError (casefold username))
                  end in
      splice_users rest need (<[idx := Some (u_id blob)]> result_)
  end.

Definition get_user_ids (names : list string) : M (list (option string)) :=
  if is_empty names then ret [] else
  let! user_db := gets (λ s, users_of (data s)) in
  let! rn := lift (resolve_names names user_db [] []) in
  if is_empty rn.2 then ret rn.1 else
  let! got := get_users (rn.2.*1) in
  match ur_errors got with
  | Some _ => raise (RuntimeError "Couldn't look up users")
  | None =>
      match ur_data got with
      | None => raise (KeyError "data")
      | Some blobs => splice_users blobs rn.2 rn.1
      end
  end.

(** *** [get_user_info] *)

Definition error_user (blob : error) : user :=
  {| u_id := err_value blob; u_username := None;
     u_name := err_title blob; u_description := err_detail blob |}.

Fixpoint lookup_chunks (starts : list nat) (to_fetch : list string) : M unit :=
  match starts with
  | [] => ret tt
  | chunk :: rest =>
      let batch_ := take 100 (drop chunk to_fetch) in
      let! got := get_users_by_id batch_ in
      do! extend_users (error_user <$> default [] (ur_errors got)) in
      let! found := match ur_data got with
                    | Some blobs => ret blobs
                    | None => raise (KeyError "data")
                    end in
      do! extend_users found in
      lookup_chunks rest to_fetch
  end.

Definition get_user_info : M unit :=
  let! d := gets data in
  match users d, tweets d with
  | None, _ => raise (KeyError "users")
  | Some _, None => raise (KeyError "tweets")
  | Some users_, Some tweets_ =>
      let known_ : gset string := list_to_set (u_id <$> users_) in
      let seen : gset string := list_to_set (tw_author_id <$> tweets_) in
      let to_fetch := elements (seen ∖ known_) in
      lookup_chunks (range100 (length to_fetch)) to_fetch
  end.

(** *** [fetch_user_tweets] *)

Fixpoint max_id (user_id : option string) (tweets_ : list tweet) (acc : Z) : result Z :=
  match tweets_ with
  | [] => Ok acc
  | x :: rest =>
      if bool_decide (Some (tw_author_id x) = user_id) then
        match int_of_string (tw_id x) with
        | Some n => max_id user_id rest (Z.max acc n)
        | None => Raise ValueError
        end
      else max_id user_id rest acc
  end.

(** The flattened paginator hands over the tweets of the pages it could
    read, and then ends or raises; [tweets.extend] keeps what it was
    handed. *)
Fixpoint fetch_user_tweets (user_ids : list (option string)) : M unit :=
  match user_ids with
  | [] => ret tt
  | user_id :: rest =>
      let! tweets_ := gets (λ s, tweets_of (data s)) in
      let! since_id := lift (max_id user_id tweets_ 0%Z) in
      do! log (EvGetUsersTweets user_id since_id) in
      let! pages := consult (λ n, Ok (client_get_users_tweets E n user_id since_id)) in
      do! extend_tweets (from_api <$> pages.1) in
      do! lift pages.2 in
      fetch_user_tweets rest
  end.

(** *** [main], from [read_db] on *)

Record args : Type := {
  arg_user : list string;
  arg_expand_user : list string;
  arg_tweet_id : list string
}.

Definition main (fuel : nat) (a : args) : M unit :=
  let! loaded := read_db in
  do! modify (with_data (λ _, loaded)) in
  do! setdefault_users in
  let! ids := get_user_ids (arg_user a) in
  let! expand := get_user_ids (arg_expand_user a) in
  let expand_ids : gset string := list_to_set (omap (λ x, x) expand) in
  do! write_db in
  do! fetch_tweets_by_id (arg_tweet_id a) in
  do! write_db in
  do! get_user_info in
  do! write_db in
  do! setdefault_tweets in
  do! fetch_user_tweets ids in
  do! write_db in
  do! modify (with_gen_last None) in
  do! do_reply_closure fuel expand_ids next_gen_obj in
  do! get_user_info in
  write_db.

End Program.

(** ** The state file on disk: [write_db] step by step *)

Definition is_slash (c : ascii) : bool := Ascii.eqb c "/".

Fixpoint no_slash (s : string) : bool :=
  match s with
  | EmptyString => true
  | String c rest => negb (is_slash c) && no_slash rest
  end.

(** [p[:p.rfind('/') + 1]]. *)
Fixpoint head_of (p : string) : string :=
  match p with
  | EmptyString => EmptyString
  | String c rest =>
      match head_of rest with
      | EmptyString => if is_slash c then String c EmptyString else EmptyString
      | h => String c h
      end
  end.

(** [s.rstrip('/')]. *)
Fixpoint rstrip_slash (s : string) : string :=
  match s with
  | EmptyString => EmptyString
  | String c rest =>
      match rstrip_slash rest with
      | EmptyString => if is_slash c then EmptyString else String c EmptyString
      | r => String c r
      end
  end.

(** [os.path.dirname]: the head, without its trailing slashes unless it
    consists of slashes only. *)
Definition dirname (p : string) : string :=
  let head := head_of p in
  match rstrip_slash head with
  | EmptyString => head
  | stripped => stripped
  end.

Fixpoint ends_with_slash (s : string) : bool :=
  match s with
  | EmptyString => false
  | String c EmptyString => is_slash c
  | String _ rest => ends_with_slash rest
  end.

(** [os.path.join(a, b)]. *)
Definition path_join (a b : string) : string :=
  match b with
  | String c _ =>
      if is_slash c then b else
      match a with
      | EmptyString => b
      | _ => if ends_with_slash a then String.append a b
             else String.append a (String "/" b)
      end
  | EmptyString =>
      match a with
      | EmptyString => b
      | _ => if ends_with_slash a then a else String.append a "/"
      end
  end.

(** The file system maps a path to the content of the file there.  A
    crash can fall between any two of the steps. *)
Inductive fs_op : Type :=
| FsCreate (path : string)
| FsAppend (path : string) (chunk : string)
| FsReplace (src dst : string).

Definition fs_step (m : gmap string string) (op : fs_op) : gmap string string :=
  match op with
  | FsCreate path => <[path := EmptyString]> m
  | FsAppend path chunk => alter (λ c, String.append c chunk) path m
  | FsReplace src dst =>
      match m !! src with
      | Some c => <[dst := c]> (delete src m)
      | None => m
      end
  end.

Definition fs_run (ops : list fs_op) (m : gmap string string) : gmap string string :=
  foldl fs_step m ops.

(** [tempfile] tries candidate names until one is free in [dir]. *)
Fixpoint mkstemp (dir prefix : string) (candidates : list string)
    (m : gmap string string) : result string :=
  match candidates with
  | [] => Raise FileExistsError
  | name :: rest =>
      let file := path_join dir (String.append prefix name) in
      match m !! file with
      | None => Ok file
      | Some _ => mkstemp dir prefix rest m
      end
  end.

(** What is in a file after the chunks have been written in order. *)
Definition written (chunks : list string) : string :=
  foldl String.append EmptyString chunks.

(** The steps of [write_db(filename, json_db)] once the temporary file is
    named: create it, write the chunks that [json.dump] produces, and, if
    [json.dump] did not raise, [os.replace] it over the target.  [dump] is
    the pair of these chunks and of the outcome of [json.dump]. *)
Definition write_db_ops (filename tempname : string)
    (dump : list string * result unit) : list fs_op :=
  FsCreate tempname :: (FsAppend tempname <$> dump.1) ++
  match dump.2 with
  | Ok _ => [FsReplace tempname filename]
  | _ => []
  end.

Definition write_db_on_disk (filename : string) (candidates : list string)
    (dump : list string * result unit) (m : gmap string string)
  : result unit * gmap string string :=
  match mkstemp (dirname filename) "download_db" candidates m with
  | Ok tempname => (dump.2, fs_run (write_db_ops filename tempname dump) m)
  | Raise e => (Raise e, m)
  | OutOfFuel => (OutOfFuel, m)
  end.

(** ** Vocabulary of the statements *)

(** The upstream lookup answers what it was asked: every tweet and every
    error it returns is about a requested id, and no tweet comes twice. *)
Definition honest (E : env) : Prop :=
  ∀ n ids got, client_get_tweets E n ids = Ok got →
    (∀ t, t ∈ tr_data got → api_id t ∈ ids) ∧
    NoDup (api_id <$> tr_data got) ∧
    (∀ e, e ∈ tr_errors got → err_resource_id e ∈ ids).

(** A tweet whose [scraped_refs] holds a non-empty list. *)
Definition settled (tw : tweet) : bool :=
  negb (is_empty (default [] (tw_scraped_refs tw))).

Definition scraped_index (p : event * db) : option nat :=
  match p.1 with EvScrape i _ => Some i | _ => None end.

Definition scraped_id (p : event * db) : option string :=
  match p.1 with EvScrape _ x => Some x | _ => None end.

Definition scraped_indices (tr : list (event * db)) : list nat := omap scraped_index tr.
Definition scraped_ids (tr : list (event * db)) : list string := omap scraped_id tr.

Definition is_write_db (p : event * db) : bool :=
  match p.1 with EvWriteDb => true | _ => false end.

(** No by-id lookup asks for an id that was known ([get_known]) when the
    request was issued or at any earlier entry of the trace. *)
Definition fresh_requests (tr : list (event * db)) : Prop :=
  ∀ (i j : nat) e d ids d', (i ≤ j)%nat →
    tr !! i = Some (e, d) → tr !! j = Some (EvGetTweets ids, d') →
    ∀ x, x ∈ ids → x ∉ get_known d.

(** The same for every request, by-id lookup or scrape. *)
Definition requests (e : event) (x : string) : Prop :=
  match e with
  | EvGetTweets ids => x ∈ ids
  | EvScrape _ focal => x = focal
  | EvSend focal _ => x = focal
  | _ => False
  end.

Definition no_known_requested (tr : list (event * db)) : Prop :=
  ∀ (i j : nat) e d e' d' x, (i ≤ j)%nat →
    tr !! i = Some (e, d) → tr !! j = Some (e', d') →
    requests e' x → x ∉ get_known d.

(** Events that neither ask for tweets nor start a scrape. *)
Definition quiet_event (e : event) : bool :=
  match e with
  | EvGetTweets _ | EvScrape _ _ => false
  | _ => true
  end.

(** [s'] is [s] after steps that leave the database alone and log quiet
    events only. *)
Definition quiet_step (s s' : state) : Prop :=
  data s' = data s ∧
  ∃ evs, trace s' = trace s ++ evs ∧
         Forall (λ p, quiet_event p.1 = true ∧ p.2 = data s) evs.

Definition quiet {A} (m : M A) : Prop := ∀ s, quiet_step s (m s).2.

(** Pre- and postconditions: [Q] on return, [R] on any other exit. *)
Definition triple {A} (P : state → Prop) (m : M A)
    (Q : A → state → Prop) (R : state → Prop) : Prop :=
  ∀ s, P s → match m s with
             | (Ok a, s') => Q a s'
             | (_, s') => R s'
             end.

Section Invariants.
Context (E : env) (expand_ids : gset string) (T0 : list tweet).

(** What holds of database and trace at every moment of a closure run
    that started from the tweets [T0] with an empty trace. *)
Record Weak (s : state) : Prop := {
  weak_stored : ∀ (i : nat) tw, tweets_of (data s) !! i = Some tw →
      tw_scraped_refs tw = None ∨
      (∃ r, tw_scraped_refs tw = Some r ∧ r ≠ []) ∨
      T0 !! i = Some tw;
  weak_settled : ∀ (i : nat) tw0, T0 !! i = Some tw0 → settled tw0 = true →
      tweets_of (data s) !! i = Some tw0;
  weak_scraped : ∀ (i : nat) tw0, i ∈ scraped_indices (trace s) →
      T0 !! i = Some tw0 → settled tw0 = false;
  weak_grows : ∀ p, p ∈ trace s → get_known p.2 ⊆ get_known (data s);
  weak_fresh : honest E → fresh_requests (trace s);
  weak_chunks : ∀ ids d, (EvGetTweets ids, d) ∈ trace s → (length ids ≤ 100)%nat;
  weak_scrape_known : ∀ i x d, (EvScrape i x, d) ∈ trace s →
      ∃ tw, tweets_of d !! i = Some tw ∧ tw_id tw = x
}.

(** What holds when the tweets before index [n] have been scanned and
    every scrape so far was of an index below [m] ([m] is [n], or [S n]
    while the tweet at [n] is being scraped). *)
Record Scanned (n m : nat) (s : state) : Prop := {
  sc_weak : Weak s;
  sc_bound : (n ≤ length (tweets_of (data s)))%nat;
  sc_expanded : ∀ (i : nat) tw, (i < n)%nat → tweets_of (data s) !! i = Some tw →
      tw_author_id tw ∈ expand_ids → ∃ r, tw_scraped_refs tw = Some r ∧ r ≠ [];
  sc_untouched : ∀ (i : nat) tw0, (n ≤ i)%nat → T0 !! i = Some tw0 →
      tweets_of (data s) !! i = Some tw0;
  sc_fresh_tail : ∀ (i : nat) tw, (length T0 ≤ i)%nat → (n ≤ i)%nat →
      tweets_of (data s) !! i = Some tw → tw_scraped_refs tw = None;
  sc_indices : NoDup (scraped_indices (trace s)) ∧
      ∀ i : nat, i ∈ scraped_indices (trace s) → (i < m)%nat;
  sc_ids : honest E → NoDup (tw_id <$> T0) →
      NoDup (tw_id <$> tweets_of (data s)) ∧
      NoDup (scraped_ids (trace s)) ∧
      ∀ x, x ∈ scraped_ids (trace s) →
        ∃ i : nat, (i < m)%nat ∧ (tw_id <$> tweets_of (data s)) !! i = Some x
}.

(** What holds of the locals [known] and [batch] when the upstream is
    honest. *)
Record PendingCore (known_ : gset string) (batch_ : list string) (s : state) : Prop := {
  pd_known : get_known (data s) ⊆ known_;
  pd_unknown : ∀ x, x ∈ batch_ → x ∉ get_known (data s);
  pd_nodup : NoDup batch_;
  pd_batch : ∀ x, x ∈ batch_ → x ∈ known_
}.

Definition Pending (known_ : gset string) (batch_ : list string) (s : state) : Prop :=
  honest E → PendingCore known_ batch_ s.

End Invariants.

(** ** Vocabulary of the scrape outcomes *)



(** ** Concrete worlds, for the examples *)

Definition tweet_entry (rest_id : string) : json :=
  JObj [("content", JObj [
    ("entryType", JStr "TimelineTimelineItem");
    ("itemContent", JObj [
      ("itemType", JStr "TimelineTweet");
      ("tweet_results", JObj [
        ("result", JObj [("__typename", JStr "Tweet");
                         ("rest_id", JStr rest_id)])])])])].

Definition conversation (entries : list json) : json :=
  JObj [("data", JObj [
    ("threaded_conversation_with_injections_v2", JObj [
      ("instructions", JArr [JObj [("entries", JArr entries)]])])])].

Definition ok200 (j : json) : http_response :=
  {| status_code := 200; x_rate_limit_reset := None; json_body := Some j |}.

Definition plain_tweet (i author : string) : tweet :=
  {| tw_id := i; tw_author_id := author; tw_conversation_id := i;
     tw_referenced_tweets := []; tw_scraped_refs := None |}.

Definition plain_api_tweet (author i : string) : api_tweet :=
  {| api_id := i; api_author_id := author; api_conversation_id := i;
     api_referenced_tweets := [] |}.

(** A world in which one second passes per tick, nobody interrupts, the
    lookup returns a tweet of "bob" for every requested id, and the scrape
    of "1" shows the replies "7" and "8", the scrape of "999" an empty
    payload, any other scrape a conversation without entries. *)
Definition demo_env : env := {|
  clock := λ n, Z.of_nat n;
  sleep_ends := λ _ _, Ok tt;
  session_send := λ _ focal _,
    if String.eqb focal "1" then Ok (ok200 (conversation [tweet_entry "7"; tweet_entry "8"]))
    else if String.eqb focal "999" then Ok (ok200 (JObj [("data", JObj [])]))
    else Ok (ok200 (conversation []));
  session_post := λ _, Ok (ok200 (JObj [("guest_token", JStr "gt")]));
  client_get_tweets := λ _ ids,
    Ok {| tr_data := plain_api_tweet "bob" <$> remove_dups ids; tr_errors := [] |};
  client_get_users := λ _ _, Ok {| ur_data := Some []; ur_errors := None |};
  client_get_users_by_id := λ _ _, Ok {| ur_data := Some []; ur_errors := None |};
  client_get_users_tweets := λ _ _ _, ([], Ok tt);
  disk_write := λ _, Ok tt
|}.

(** A fresh process holding the database [d], also the committed content
    of the state file. *)
Definition start (d : db) : state :=
  {| data := d; store := Some d; gen_last := None; tick := 0; writes := 0; trace := [] |}.

Definition demo_db : db :=
  {| users := Some [];
     tweets := Some [plain_tweet "1" "alice"; plain_tweet "999" "alice";
                     plain_tweet "888" "alice"];
     errors := Some [] |}.

Definition demo_run : result unit * state :=
  do_reply_closure demo_env 5 {["alice"]} (next_gen_obj demo_env) (start demo_db).


(** The ids "1", ..., "101". *)
Definition many_ids : list string := pretty <$> seq 1 101.

(** The world of [demo_env], but the keyboard interrupts the scrape of
    "999". *)
Definition interrupt_env : env := {|
  clock := clock demo_env;
  sleep_ends := sleep_ends demo_env;
  session_send := λ n focal token,
    if String.eqb focal "999" then Raise KeyboardInterrupt
    else session_send demo_env n focal token;
  session_post := session_post demo_env;
  client_get_tweets := client_get_tweets demo_env;
  client_get_users := client_get_users demo_env;
  client_get_users_by_id := client_get_users_by_id demo_env;
  client_get_users_tweets := client_get_users_tweets demo_env;
  disk_write := disk_write demo_env
|}.

Definition interrupt_run : result unit * state :=
  do_reply_closure interrupt_env 5 {["alice"]} (next_gen_obj interrupt_env)
    (start demo_db).

(** The world of [interrupt_env] with a slow clock, 20 s to the tick, and a
    disk on which no file can be written. *)
Definition full_disk_env : env := {|
  clock := λ n, (20 * Z.of_nat n)%Z;
  sleep_ends := sleep_ends interrupt_env;
  session_send := session_send interrupt_env;
  session_post := session_post interrupt_env;
  client_get_tweets := client_get_tweets interrupt_env;
  client_get_users := client_get_users interrupt_env;
  client_get_users_by_id := client_get_users_by_id interrupt_env;
  client_get_users_tweets := client_get_users_tweets interrupt_env;
  disk_write := λ _, Raise OSError
|}.

Definition full_disk_db : db :=
  {| users := Some [];
     tweets := Some [plain_tweet "999" "alice"; plain_tweet "1" "alice"];
     errors := Some [] |}.

Definition full_disk_run : result unit * state :=
  do_reply_closure full_disk_env 5 {["alice"]} (next_gen_obj full_disk_env)
    (start full_disk_db).


(** Computations that leave the state file and the generator alone. *)
Definition idle {A} (m : M A) : Prop :=
  ∀ s, store (m s).2 = store s ∧ gen_last (m s).2 = gen_last s.




(** A world whose scrape endpoint answers 429 with the reset instant 100
    while the local clock already reads 101 and more. *)
Definition stale_env : env := {|
  clock := λ n, (100 + Z.of_nat n)%Z;
  sleep_ends := sleep_ends demo_env;
  session_send := λ _ _ _,
    Ok {| status_code := 429; x_rate_limit_reset := Some 100%Z; json_body := None |};
  session_post := session_post demo_env;
  client_get_tweets := client_get_tweets demo_env;
  client_get_users := client_get_users demo_env;
  client_get_users_by_id := client_get_users_by_id demo_env;
  client_get_users_tweets := client_get_users_tweets demo_env;
  disk_write := disk_write demo_env
|}.

(** A first process, with no state file yet, and a later process on the
    state file that [s] leaves behind. *)
Definition fresh : state :=
  {| data := empty_db; store := None; gen_last := None; tick := 0; writes := 0; trace := [] |}.

Definition restart (s : state) : state :=
  {| data := empty_db; store := store s; gen_last := None; tick := tick s;
     writes := writes s; trace := [] |}.

(** A world in which the tweet with id [x] is by the author "u" ++ [x], the
    account "u5" no longer exists and "u6" is "carol". *)
Definition lost_account_env : env := {|
  clock := clock demo_env;
  sleep_ends := sleep_ends demo_env;
  session_send := session_send demo_env;
  session_post := session_post demo_env;
  client_get_tweets := λ _ ids,
    Ok {| tr_data := (λ x, plain_api_tweet (String.append "u" x) x) <$> ids;
          tr_errors := [] |};
  client_get_users := client_get_users demo_env;
  client_get_users_by_id := λ _ _,
    Ok {| ur_data := Some [{| u_id := "u6"; u_username := Some "carol";
                              u_name := "Carol"; u_description := "" |}];
          ur_errors := Some [{| err_resource_id := "u5"; err_value := "u5";
                                err_title := "Not Found Error";
                                err_detail := "Could not find user with ids: [u5]." |}] |};
  client_get_users_tweets := client_get_users_tweets demo_env;
  disk_write := disk_write demo_env
|}.

Definition first_args : args :=
  {| arg_user := []; arg_expand_user := []; arg_tweet_id := ["5"; "6"] |}.

Definition second_args : args :=
  {| arg_user := ["bob"]; arg_expand_user := []; arg_tweet_id := [] |}.

Definition first_run : result unit * state := main lost_account_env 5 first_args fresh.

Definition second_run : result unit * state :=
  main lost_account_env 5 second_args (restart first_run.2).

(** The steps that only create or extend the file at [path]. *)
Definition writes_only (path : string) (op : fs_op) : Prop :=
  match op with
  | FsCreate p | FsAppend p _ => p = path
  | FsReplace _ _ => False
  end.

(** A directory holding a committed state file. *)
Definition demo_disk : gmap string string := {[ "state/db.json" := "{old}" ]}.

(** The lookup by id answers for every id it was asked: with a user
    object or with an error whose [value] is the id. *)
Definition complete_users (E : env) : Prop :=
  ∀ n ids got, client_get_users_by_id E n ids = Ok got →
    ∀ x, x ∈ ids →
      x ∈ u_id <$> default [] (ur_data got) ∨
      x ∈ err_value <$> default [] (ur_errors got).

Definition by_id_request (p : event * db) : option (list string) :=
  match p.1 with EvGetUsersById ids => Some ids | _ => None end.

(** The authors of the database that have no user record, as
    [get_user_info] lists them. *)
Definition authors_to_fetch (d : db) : list string :=
  elements ((list_to_set (tw_author_id <$> tweets_of d) : gset string)
            ∖ list_to_set (u_id <$> users_of d)).

(** The lookup of tweets answers for every id it was asked: with a tweet
    or with an error about the id. *)
Definition complete_tweets (E : env) : Prop :=
  ∀ n ids got, client_get_tweets E n ids = Ok got →
    ∀ x, x ∈ ids →
      x ∈ api_id <$> tr_data got ∨ x ∈ err_resource_id <$> tr_errors got.

Definition timeline_request (p : event * db) : option (option string * Z * db) :=
  match p.1 with
  | EvGetUsersTweets user_id since_id => Some (user_id, since_id, p.2)
  | _ => None
  end.

(** The entries of a scraped conversation: a tweet, a module of tweets
    (a reply chain), or an item that is no tweet (a cursor). *)
Inductive block : Type :=
| Item (rest_id : string)
| Module (rest_ids : list string)
| Cursor.

Definition timeline_tweet (rest_id : string) : json :=
  JObj [("itemContent", JObj [
    ("itemType", JStr "TimelineTweet");
    ("tweet_results", JObj [
      ("result", JObj [("__typename", JStr "Tweet");
                       ("rest_id", JStr rest_id)])])])].

Definition entry_of_block (b : block) : json :=
  match b with
  | Item rest_id => tweet_entry rest_id
  | Module rest_ids =>
      JObj [("content", JObj [
        ("entryType", JStr "TimelineTimelineModule");
        ("items", JArr ((λ x, JObj [("item", timeline_tweet x)]) <$> rest_ids))])]
  | Cursor =>
      JObj [("content", JObj [
        ("entryType", JStr "TimelineTimelineItem");
        ("itemContent", JObj [("itemType", JStr "TimelineTimelineCursor")])])]
  end.

Definition ids_of_block (b : block) : list string :=
  match b with
  | Item rest_id => [rest_id]
  | Module rest_ids => rest_ids
  | Cursor => []
  end.

(** A result of a walk over a document: a value or an exception of the
    walk, never an interrupt and never a walk without end. *)
Definition plain {A} (r : result A) : Prop :=
  match r with
  | Ok _ => True
  | Raise e => e ≠ KeyboardInterrupt
  | OutOfFuel => False
  end.

(** The [match] statement of [parse_entry_content]. *)
Definition match_entry_type {T} (entry_type : json) (item module_ unknown : T) : T :=
  match entry_type with
  | JStr "TimelineTimelineItem" => item
  | JStr "TimelineTimelineModule" => module_
  | _ => unknown
  end.

(** A world like [demo_env] whose user lookups know everybody: the user
    named [n] has the id "id_" ++ [n], and the user with the id [x] is
    named "user" ++ [x]. *)
Definition directory_env : env := {|
  clock := clock demo_env;
  sleep_ends := sleep_ends demo_env;
  session_send := session_send demo_env;
  session_post := session_post demo_env;
  client_get_tweets := client_get_tweets demo_env;
  client_get_users := λ _ names,
    Ok {| ur_data := Some ((λ n, {| u_id := String.append "id_" n; u_username := Some n;
                                    u_name := n; u_description := "" |}) <$> names);
          ur_errors := None |};
  client_get_users_by_id := λ _ ids,
    Ok {| ur_data := Some ((λ x, {| u_id := x; u_username := Some (String.append "user" x);
                                    u_name := x; u_description := "" |}) <$> ids);
          ur_errors := None |};
  client_get_users_tweets := client_get_users_tweets demo_env;
  disk_write := disk_write demo_env
|}.

Definition dave : user :=
  {| u_id := "u5"; u_username := Some "Dave"; u_name := "Dave"; u_description := "" |}.

Definition carol : user :=
  {| u_id := "u6"; u_username := Some "Carol_B"; u_name := "Carol"; u_description := "" |}.

(** Three tweets of two authors, with and without their user records. *)
Definition cached_db : db :=
  {| users := Some [dave; carol];
     tweets := Some [plain_tweet "5" "u5"; plain_tweet "12" "u6"; plain_tweet "7" "u5"];
     errors := Some [] |}.

Definition uncached_db : db :=
  {| users := Some [];
     tweets := Some [plain_tweet "5" "u5"; plain_tweet "12" "u6"; plain_tweet "7" "u5"];
     errors := Some [] |}.

(** Every pending username points at a slot of the result that is still
    empty, and the slots of the numeric selectors hold them. *)
Definition slots_ok (names : list string) (result_ : list (option string))
    (need : list (string * nat)) : Prop :=
  length result_ = length names ∧
  (∀ k (i : nat), dict_lookup k need = Some i → result_ !! i = Some None) ∧
  (∀ (i : nat) name, names !! i = Some name → isdigit name = true →
     result_ !! i = Some (Some name)).

(** The selector as [get_user_ids] compares it: without a leading "@",
    case-folded. *)
Definition selector_key (name : string) : string :=
  match name with
  | EmptyString => EmptyString
  | String c tail => casefold (if Ascii.eqb c "@" then tail else name)
  end.

(** ** Vocabulary of the chase *)

(** The events of a run that scrapes nothing: lookups and flushes. *)
Definition lookup_or_flush (e : event) : bool :=
  match e with
  | EvGetTweets _ | EvWriteDb => true
  | _ => false
  end.

(** Steps that leave the database alone and log neither a lookup nor the
    start of a scrape; with [w = false] they log flushes only. *)
Definition allowed (w : bool) (e : event) : bool :=
  match e with
  | EvWriteDb => true
  | EvGetTweets _ | EvScrape _ _ => false
  | _ => w
  end.

Definition calm_step (w : bool) (s s' : state) : Prop :=
  data s' = data s ∧
  ∃ evs, trace s' = trace s ++ evs ∧ Forall (λ p, allowed w p.1 = true) evs.

Definition calm (w : bool) {A} (m : M A) : Prop := ∀ s, calm_step w s (m s).2.

(** The ids that the lookups of a trace asked for. *)
Definition asked (tr : list (event * db)) (x : string) : Prop :=
  ∃ ids d, (EvGetTweets ids, d) ∈ tr ∧ x ∈ ids.

(** The ids a tweet points to: its references and what was scraped. *)
Definition refs_of (tw : tweet) : list string :=
  (ref_id <$> tw_referenced_tweets tw) ++ default [] (tw_scraped_refs tw).

Section Chase.
Context (E : env) (expand_ids : gset string).
Context (K0 G0 : gset string).

(** What holds of the trace at every moment of a closure run that began
    with the local [known] equal to [K0]. *)
Record Safe (s : state) : Prop := {
  safe_scrapes : ∀ (i : nat) x d, (EvScrape i x, d) ∈ trace s →
      ∃ tw, tweets_of d !! i = Some tw ∧ tw_id tw = x ∧
            wants_scrape expand_ids tw = true;
  safe_lookups : (∀ tw, wants_scrape expand_ids tw = false) →
      Forall (λ p, lookup_or_flush p.1 = true) (trace s);
  safe_requests : ∀ ids d x, (EvGetTweets ids, d) ∈ trace s → x ∈ ids → x ∉ K0
}.

(** What holds between two turns of the loops, when the tweets before
    index [n] have been scanned, with the locals [known_] and [batch_]
    (for the fetch: what is left of the batch). *)
Record Chasing (n : nat) (known_ : gset string) (batch_ : list string)
    (s : state) : Prop := {
  ch_safe : Safe s;
  ch_bound : (n ≤ length (tweets_of (data s)))%nat;
  ch_K0 : K0 ⊆ known_;
  ch_batch : ∀ x, x ∈ batch_ → x ∉ K0;
  ch_refs : ∀ (i : nat) tw, (i < n)%nat → tweets_of (data s) !! i = Some tw →
      ∀ x, x ∈ refs_of tw → x ∈ known_;
  ch_known : ∀ x, x ∈ known_ → x ∈ K0 ∨ x ∈ batch_ ∨ asked (trace s) x;
  ch_answered : complete_tweets E → ∀ x, asked (trace s) x → x ∈ get_known (data s);
  ch_grows : G0 ⊆ get_known (data s)
}.

Definition Track (n : nat) (slice : list tweet) (l : locals) (s : state) : Prop :=
  Chasing n (known l) (batch l) s ∧ drop n (tweets_of (data s)) = slice.

End Chase.

(** The ids listed in the [scraped_refs] of some tweet. *)
Definition scraped_before (tweets_ : list tweet) (x : string) : Prop :=
  ∃ tw, tw ∈ tweets_ ∧ x ∈ default [] (tw_scraped_refs tw).

(** A database left behind by a run that was stopped after the scrape of
    the tweet "1" had been stored and before the reply "7" it found was
    fetched. *)
Definition gap_db : db :=
  {| users := Some [];
     tweets := Some [set_scraped_refs ["7"] (plain_tweet "1" "alice")];
     errors := Some [] |}.

Definition gap_run : result unit * state :=
  do_reply_closure demo_env 5 {["alice"]} (next_gen_obj demo_env) (start gap_db).

(** A scrape endpoint that answers 429 at the tick [t] with a reset
    instant that is still ahead when the clock is read, and a sleep that
    ends. *)
Definition throttled (E : env) (tweet_ : string) (token : json) (t : nat) : Prop :=
  ∃ response resume,
    session_send E t tweet_ token = Ok response ∧
    status_code response = 429%Z ∧
    x_rate_limit_reset response = Some resume ∧
    (clock E (S t) ≤ resume)%Z ∧
    sleep_ends E (S (S t)) (resume - clock E (S t)) = Ok tt.

Definition is_send (p : event * db) : bool :=
  match p.1 with EvSend _ _ => true | _ => false end.

(** A world whose scrape endpoint is busy until the tick 6. *)
Definition busy_env : env := {|
  clock := clock demo_env;
  sleep_ends := sleep_ends demo_env;
  session_send := λ n focal token,
    if (n <? 6)%nat
    then Ok {| status_code := 429; x_rate_limit_reset := Some 1000%Z; json_body := None |}
    else session_send demo_env n focal token;
  session_post := session_post demo_env;
  client_get_tweets := client_get_tweets demo_env;
  client_get_users := client_get_users demo_env;
  client_get_users_by_id := client_get_users_by_id demo_env;
  client_get_users_tweets := client_get_users_tweets demo_env;
  disk_write := disk_write demo_env
|}.

(** A command line that asks for the timeline of the user with the id
    "7" and gives no tweet id. *)
Definition timeline_args : args :=
  {| arg_user := ["7"]; arg_expand_user := []; arg_tweet_id := [] |}.

(** ** [analyze_users.py] *)

(** A user object with the two keys that the script adds to it. *)
Record row : Type := {
  row_user : user;
  row_tweets : nat;
  row_convos : gset string
}.

(** [{x["id"]: x for x in data["users"]}], every user with no tweet and
    no conversation yet: an id that comes again keeps its place and takes
    the later object. *)
Definition users_by_id (users_ : list user) : list (string * row) :=
  foldl (λ d x, dict_set (u_id x)
                  {| row_user := x; row_tweets := 0; row_convos := ∅ |} d)
        [] users_.

(** One turn of [for tweet in data["tweets"]]. *)
Definition count_tweet (d : list (string * row)) (tw : tweet)
  : result (list (string * row)) :=
  match dict_lookup (tw_author_id tw) d with
  | None => Raise (KeyError (tw_author_id tw))
  | Some r =>
      Ok (dict_set (tw_author_id tw)
            {| row_user := row_user r; row_tweets := S (row_tweets r);
               row_convos := {[ tw_conversation_id tw ]} ∪ row_convos r |} d)
  end.

Fixpoint count_tweets (tweets_ : list tweet) (d : list (string * row))
  : result (list (string * row)) :=
  match tweets_ with
  | [] => Ok d
  | tw :: rest => let? d := count_tweet d tw in count_tweets rest d
  end.

(** [sorted(users.values(), key=lambda x: -x["tweets"])]; the sort is
    stable. *)
Fixpoint insert_row (r : row) (sorted : list row) : list row :=
  match sorted with
  | [] => [r]
  | y :: rest =>
      if (row_tweets y <=? row_tweets r)%nat then r :: y :: rest
      else y :: insert_row r rest
  end.

Definition sort_rows (rows : list row) : list row := foldr insert_row [] rows.

(** The dict [users] after the two loops that count. *)
Definition count_users (d : db) : result (list (string * row)) :=
  match users d with
  | None => Raise (KeyError "users")
  | Some users_ =>
      match tweets d with
      | None => Raise (KeyError "tweets")
      | Some tweets_ => count_tweets tweets_ (users_by_id users_)
      end
  end.

(** The rows in the order in which they are printed. *)
Definition analyze_rows (d : db) : result (list row) :=
  let? counted := count_users d in Ok (sort_rows counted.*2).

Fixpoint spaces (n : nat) : string :=
  match n with
  | O => EmptyString
  | S n => String " " (spaces n)
  end.

(** ["%-18s"] and ["%8d"]: pad to the width, never cut. *)
Definition ljust (width : nat) (s : string) : string :=
  String.append s (spaces (width - String.length s)).

Definition rjust (width : nat) (s : string) : string :=
  String.append (spaces (width - String.length s)) s.

(** ["%s" % None] is "None". *)
Definition str_of_username (u : option string) : string :=
  match u with
  | Some s => s
  | None => "None"
  end.

Definition header : string :=
  "@" +:+ ljust 18 "username" +:+ " " +:+ ljust 28 "name" +:+ " " +:+
  rjust 8 "tweets" +:+ " " +:+ rjust 8 "convos".

Definition format_row (r : row) : string :=
  "@" +:+ ljust 18 (str_of_username (u_username (row_user r))) +:+ " " +:+
  ljust 28 (u_name (row_user r)) +:+ " " +:+
  rjust 8 (pretty (row_tweets r)) +:+ " " +:+
  rjust 8 (pretty (size (row_convos r))).

(** What the script prints, line by line. *)
Definition analyze_users (d : db) : result (list string) :=
  let? rows := analyze_rows d in
  Ok (header :: (format_row <$> rows)).

(** The tweets of the author [k]. *)
Definition tweets_by (k : string) (tweets_ : list tweet) : list tweet :=
  filter (λ tw, tw_author_id tw = k) tweets_.

(** What the dict [users] of the script holds after the tweets [seen]. *)
Definition counted_ok (seen : list tweet) (d : list (string * row)) : Prop :=
  NoDup d.*1 ∧
  ∀ k r, dict_lookup k d = Some r →
    u_id (row_user r) = k ∧
    row_tweets r = length (tweets_by k seen) ∧
    row_convos r = list_to_set (tw_conversation_id <$> tweets_by k seen).

Definition more_tweets (a b : row) : Prop := (row_tweets b ≤ row_tweets a)%nat.

(* ================================================================== *)
(** * Part II: properties *)
(* ================================================================== *)

(** ** Stepping through the monad *)

Lemma bind_Ok {A B} (m : M A) (k : A → M B) s a s' :
  m s = (Ok a, s') → bind m k s = k a s'.
Proof. intros H. unfold bind. by rewrite H. Qed.

Lemma bind_Raise {A B} (m : M A) (k : A → M B) s e s' :
  m s = (Raise e, s') → bind m k s = (Raise e, s').
Proof. intros H. unfold bind. by rewrite H. Qed.

Lemma bind_OutOfFuel {A B} (m : M A) (k : A → M B) s s' :
  m s = (OutOfFuel, s') → bind m k s = (OutOfFuel, s').
Proof. intros H. unfold bind. by rewrite H. Qed.

Lemma bind_Ok_inv {A B} (m : M A) (k : A → M B) s b s' :
  bind m k s = (Ok b, s') → ∃ a s1, m s = (Ok a, s1) ∧ k a s1 = (Ok b, s').
Proof.
  unfold bind. destruct (m s) as [[a|e|] s1]; intros H; try discriminate.
  by exists a, s1.
Qed.

(** ** The scrape client *)

Section ScrapeClient.
Context (E : env).

Lemma related_of_json_nonempty j r : related_of_json j = Ok r → r ≠ [].
Proof.
  unfold related_of_json, rbind.
  destruct (getitem j "data") as [v| |]; try discriminate.
  destruct (truthy v); simpl.
  - destruct (with_context (parse_conversation v)) as [[|x l]| |];
      intros H; inversion H; done.
  - intros H; inversion H; done.
Qed.

Lemma raise_for_status_Ok response s u s' :
  raise_for_status response s = (Ok u, s') → s' = s.
Proof.
  unfold raise_for_status.
  destruct (_ && _); unfold raise, ret; intros H; by inversion H.
Qed.

Lemma get_related_tweets_Ok_inv fuel tweet_ token s r s' :
  get_related_tweets E fuel tweet_ token s = (Ok r, s') →
  ∃ response j,
    send_request E fuel tweet_ token s = (Ok response, s') ∧
    status_code response = 200%Z ∧
    json_body response = Some j ∧
    related_of_json j = Ok r.
Proof.
  unfold get_related_tweets. intros H.
  apply bind_Ok_inv in H as (response & s1 & Hsend & H).
  apply bind_Ok_inv in H as (u & s2 & Hst & H).
  apply raise_for_status_Ok in Hst as ->.
  destruct (status_code response =? 200)%Z eqn:H200; simpl in H;
    [|by inversion H].
  apply bind_Ok_inv in H as (j & s3 & Hj & H).
  unfold response_json in Hj.
  destruct (json_body response) as [j'|] eqn:Hbody; [|by inversion Hj].
  inversion Hj; subst j' s3. inversion H; subst.
  exists response, j. split_and!; try done. by apply Z.eqb_eq.
Qed.

Lemma get_related_tweets_nonempty fuel tweet_ token s r s' :
  get_related_tweets E fuel tweet_ token s = (Ok r, s') → r ≠ [].
Proof.
  intros H. apply get_related_tweets_Ok_inv in H as (? & j & _ & _ & _ & H).
  by eapply related_of_json_nonempty.
Qed.

End ScrapeClient.

(** ** Quiet computations *)

Local Close Scope string_scope.

Lemma quiet_step_refl s : quiet_step s s.
Proof. split; [done|]. exists []. by rewrite app_nil_r. Qed.

Lemma quiet_step_trans s1 s2 s3 :
  quiet_step s1 s2 → quiet_step s2 s3 → quiet_step s1 s3.
Proof.
  intros [Hd1 (evs1 & Ht1 & Hq1)] [Hd2 (evs2 & Ht2 & Hq2)].
  split; [congruence|]. exists (evs1 ++ evs2). split.
  - by rewrite Ht2, Ht1, app_assoc.
  - apply Forall_app. split; [done|]. by rewrite <- Hd1.
Qed.

Lemma quiet_step_event e s :
  quiet_event e = true → quiet_step s (record_event e s).
Proof. intros He. split; [done|]. exists [(e, data s)]. by repeat constructor. Qed.

Lemma quiet_ret {A} (a : A) : quiet (ret a).
Proof. intros s. apply quiet_step_refl. Qed.

Lemma quiet_raise {A} e : quiet (@raise A e).
Proof. intros s. apply quiet_step_refl. Qed.

Lemma quiet_lift {A} (r : result A) : quiet (lift r).
Proof. intros s. apply quiet_step_refl. Qed.

Lemma quiet_gets {A} (f : state → A) : quiet (gets f).
Proof. intros s. apply quiet_step_refl. Qed.

Lemma quiet_consult {A} (o : nat → result A) : quiet (consult o).
Proof. intros s. split; [done|]. exists []. by rewrite app_nil_r. Qed.

Lemma quiet_log e : quiet_event e = true → quiet (log e).
Proof. intros He s. by apply quiet_step_event. Qed.

Lemma quiet_with_gen_last o : quiet (modify (with_gen_last o)).
Proof. intros s. split; [done|]. exists []. by rewrite app_nil_r. Qed.

Lemma quiet_bind {A B} (m : M A) (k : A → M B) :
  quiet m → (∀ a, quiet (k a)) → quiet (bind m k).
Proof.
  intros Hm Hk s. unfold bind. specialize (Hm s).
  destruct (m s) as [[a|e|] s1]; simpl in *; try done.
  eapply quiet_step_trans; [done|]. apply Hk.
Qed.

Ltac quiet_tac :=
  repeat first
    [ apply quiet_ret | apply quiet_raise | apply quiet_lift
    | apply quiet_gets | apply quiet_consult | apply quiet_with_gen_last
    | apply quiet_log; reflexivity
    | apply quiet_bind; [|intros ?]
    | progress case_match ].

Section QuietProgram.
Context (E : env).

Lemma quiet_time_time : quiet (time_time E).
Proof. unfold time_time. quiet_tac. Qed.

Lemma quiet_time_sleep secs : quiet (time_sleep E secs).
Proof. unfold time_sleep. quiet_tac. Qed.

Lemma quiet_raise_for_status r : quiet (raise_for_status r).
Proof. unfold raise_for_status. quiet_tac. Qed.

Lemma quiet_response_json r : quiet (response_json r).
Proof. unfold response_json. quiet_tac. Qed.

Lemma quiet_write_db : quiet (write_db E).
Proof.
  unfold write_db. apply quiet_bind; [quiet_tac|intros _].
  apply quiet_bind; intros; intros s; (split; [done|]); exists [];
    by rewrite app_nil_r.
Qed.

Lemma quiet_next_gen_obj : quiet (next_gen_obj E).
Proof.
  unfold next_gen_obj.
  pose proof quiet_time_time. pose proof quiet_write_db.
  quiet_tac; done.
Qed.

Lemma quiet_write_fn_mark : quiet write_fn_mark.
Proof. unfold write_fn_mark. quiet_tac. Qed.

Lemma quiet_get_guest_token : quiet (get_guest_token E).
Proof.
  unfold get_guest_token.
  pose proof quiet_raise_for_status. pose proof quiet_response_json.
  quiet_tac; done.
Qed.

Lemma quiet_send_request fuel tweet_ token :
  quiet (send_request E fuel tweet_ token).
Proof.
  induction fuel as [|fuel IH]; simpl; [quiet_tac|].
  pose proof quiet_time_time. pose proof quiet_time_sleep.
  quiet_tac; done.
Qed.

Lemma quiet_get_related_tweets fuel tweet_ token :
  quiet (get_related_tweets E fuel tweet_ token).
Proof.
  unfold get_related_tweets.
  pose proof quiet_send_request. pose proof quiet_raise_for_status.
  pose proof quiet_response_json.
  quiet_tac; done.
Qed.

Lemma quiet_except {A} (body handler : M A) :
  quiet body → quiet handler → quiet (except_KeyboardInterrupt body handler).
Proof.
  intros Hb Hh s. unfold except_KeyboardInterrupt. specialize (Hb s).
  destruct (body s) as [[a|[]|] s1]; simpl in *; try done.
  eapply quiet_step_trans; [done|]. apply Hh.
Qed.

End QuietProgram.

(** ** The invariants survive quiet steps *)

Lemma scraped_indices_app tr1 tr2 :
  scraped_indices (tr1 ++ tr2) = scraped_indices tr1 ++ scraped_indices tr2.
Proof. apply omap_app. Qed.

Lemma scraped_ids_app tr1 tr2 :
  scraped_ids (tr1 ++ tr2) = scraped_ids tr1 ++ scraped_ids tr2.
Proof. apply omap_app. Qed.

Lemma scraped_indices_quiet (P : event * db → Prop) evs :
  Forall (λ p, quiet_event p.1 = true ∧ P p) evs → scraped_indices evs = [].
Proof.
  induction 1 as [|[e d] evs [He _] _ IH]; [done|].
  change (scraped_indices ((e, d) :: evs)) with
    (match scraped_index (e, d) with
     | Some y => y :: scraped_indices evs
     | None => scraped_indices evs
     end).
  rewrite IH. by destruct e.
Qed.

Lemma scraped_ids_quiet (P : event * db → Prop) evs :
  Forall (λ p, quiet_event p.1 = true ∧ P p) evs → scraped_ids evs = [].
Proof.
  induction 1 as [|[e d] evs [He _] _ IH]; [done|].
  change (scraped_ids ((e, d) :: evs)) with
    (match scraped_id (e, d) with
     | Some y => y :: scraped_ids evs
     | None => scraped_ids evs
     end).
  rewrite IH. by destruct e.
Qed.

Lemma fresh_requests_app tr evs :
  fresh_requests tr →
  Forall (λ p, ∀ ids, p.1 ≠ EvGetTweets ids) evs →
  fresh_requests (tr ++ evs).
Proof.
  intros Hf Hq i j e d ids d' Hij Hi Hj x Hx.
  destruct (decide (j < length tr)) as [Hlt|Hge].
  - rewrite lookup_app_l in Hj by done.
    rewrite lookup_app_l in Hi by lia.
    exact (Hf i j _ _ _ _ Hij Hi Hj x Hx).
  - rewrite lookup_app_r in Hj by lia.
    apply list_elem_of_lookup_2 in Hj.
    rewrite Forall_forall in Hq. by destruct (Hq _ Hj ids).
Qed.

Lemma fresh_requests_quiet (P : event * db → Prop) tr evs :
  fresh_requests tr →
  Forall (λ p, quiet_event p.1 = true ∧ P p) evs →
  fresh_requests (tr ++ evs).
Proof.
  intros Hf Hq. apply fresh_requests_app; [done|].
  eapply Forall_impl; [done|]. intros [e d] [He _] ids Heq.
  simpl in *. by subst e.
Qed.

(** Appending a by-id request for ids unknown to every snapshot so far. *)
Lemma fresh_requests_snoc tr ids d :
  fresh_requests tr →
  (∀ p, p ∈ tr → get_known p.2 ⊆ get_known d) →
  (∀ x, x ∈ ids → x ∉ get_known d) →
  fresh_requests (tr ++ [(EvGetTweets ids, d)]).
Proof.
  intros Hf Hg Hids i j e d1 ids' d' Hij Hi Hj x Hx.
  destruct (decide (j < length tr)) as [Hlt|Hge].
  - rewrite lookup_app_l in Hj by done.
    rewrite lookup_app_l in Hi by lia.
    exact (Hf i j _ _ _ _ Hij Hi Hj x Hx).
  - rewrite lookup_app_r in Hj by lia.
    destruct (j - length tr) as [|k] eqn:Hk; simpl in Hj; [|done].
    simplify_eq.
    destruct (decide (i < length tr)) as [Hlt'|Hge'].
    + rewrite lookup_app_l in Hi by done.
      apply list_elem_of_lookup_2 in Hi. apply Hg in Hi. simpl in Hi.
      intros Hin. eapply Hids; [done|]. by apply Hi.
    + rewrite lookup_app_r in Hi by lia.
      destruct (i - length tr) as [|k] eqn:Hk'; simpl in Hi; [|done].
      simplify_eq. by apply Hids.
Qed.

Section InvariantsQuiet.
Context (E : env) (expand_ids : gset string) (T0 : list tweet).

Lemma Weak_quiet s s' : Weak E T0 s → quiet_step s s' → Weak E T0 s'.
Proof.
  intros [H1 H2 H3 H4 H5 H6 H7] [Hd (evs & Ht & Hq)].
  assert (∀ p, p ∈ evs → quiet_event p.1 = true) as Hev.
  { intros p Hp. rewrite Forall_forall in Hq. by destruct (Hq _ Hp). }
  split; rewrite ?Hd, ?Ht.
  - done.
  - done.
  - intros i tw0.
    rewrite scraped_indices_app, (scraped_indices_quiet (λ p, p.2 = data s) _ Hq).
    rewrite app_nil_r. apply H3.
  - intros p [Hp|Hp]%elem_of_app; [by apply H4|].
    rewrite Forall_forall in Hq. destruct (Hq _ Hp) as [_ ->]. done.
  - intros Hh. apply (fresh_requests_quiet (λ p, p.2 = data s)); [by apply H5|done].
  - intros ids d [Hp|Hp]%elem_of_app; [by eapply H6|]. by apply Hev in Hp.
  - intros i x d [Hp|Hp]%elem_of_app; [by eapply H7|]. by apply Hev in Hp.
Qed.

Lemma Scanned_quiet n m s s' :
  Scanned E expand_ids T0 n m s → quiet_step s s' →
  Scanned E expand_ids T0 n m s'.
Proof.
  intros [H1 Hb H2 H3 H4 H5 H6] Hq.
  pose proof (Weak_quiet _ _ H1 Hq) as Hw.
  destruct Hq as [Hd (evs & Ht & Hq)].
  split; rewrite ?Hd, ?Ht; try done.
  - by rewrite scraped_indices_app,
      (scraped_indices_quiet (λ p, p.2 = data s) _ Hq), app_nil_r.
  - by rewrite scraped_ids_app,
      (scraped_ids_quiet (λ p, p.2 = data s) _ Hq), app_nil_r.
Qed.

Lemma Pending_quiet known_ batch_ s s' :
  Pending E known_ batch_ s → quiet_step s s' → Pending E known_ batch_ s'.
Proof.
  intros H [Hd _] Hh. destruct (H Hh) as [H1 H2 H3 H4].
  split; rewrite ?Hd; done.
Qed.

End InvariantsQuiet.

(** ** Pre- and postconditions *)

Lemma triple_bind {A B} P (m : M A) Q' (k : A → M B) Q R :
  triple P m Q' R → (∀ a, triple (Q' a) (k a) Q R) → triple P (bind m k) Q R.
Proof.
  intros Hm Hk s HP. unfold bind. specialize (Hm s HP).
  destruct (m s) as [[a|e|] s1]; try done. by apply Hk.
Qed.

Lemma triple_ret {A} (P : state → Prop) (a : A) (Q : A → state → Prop) R :
  (∀ s, P s → Q a s) → triple P (ret a) Q R.
Proof. intros H s HP. by apply H. Qed.

Lemma triple_gets {A} (P : state → Prop) (f : state → A) (Q : A → state → Prop) R :
  (∀ s, P s → Q (f s) s) → triple P (gets f) Q R.
Proof. intros H s HP. by apply H. Qed.

Lemma triple_modify (P : state → Prop) f (Q : unit → state → Prop) R :
  (∀ s, P s → Q tt (f s)) → triple P (modify f) Q R.
Proof. intros H s HP. by apply H. Qed.

Lemma triple_weaken {A} (P P' : state → Prop) (m : M A) (Q Q' : A → state → Prop)
    (R R' : state → Prop) :
  triple P m Q R →
  (∀ s, P' s → P s) → (∀ a s, Q a s → Q' a s) → (∀ s, R s → R' s) →
  triple P' m Q' R'.
Proof.
  intros Hm HP HQ HR s Hs. specialize (Hm s (HP s Hs)).
  destruct (m s) as [[a|e|] s1]; auto.
Qed.

Lemma quiet_run {A} (m : M A) s r s' : quiet m → m s = (r, s') → quiet_step s s'.
Proof. intros Hq Hm. specialize (Hq s). by rewrite Hm in Hq. Qed.

(** A quiet computation keeps every property that quiet steps keep. *)
Lemma triple_quiet {A} (I R : state → Prop) (m : M A) :
  quiet m →
  (∀ s s', I s → quiet_step s s' → I s') → (∀ s, I s → R s) →
  triple I m (λ _, I) R.
Proof.
  intros Hq HI HR s Hs. specialize (Hq s).
  destruct (m s) as [[a|e|] s1]; simpl in *; eauto.
Qed.

(** ** The steps of the closure keep the invariants *)

Lemma fmap_id_alter_scraped r n (l : list tweet) :
  tw_id <$> alter (set_scraped_refs r) n l = tw_id <$> l.
Proof.
  apply list_eq. intros i. rewrite !list_lookup_fmap.
  destruct (decide (i = n)) as [->|Hne].
  - rewrite list_lookup_alter_eq. by destruct (l !! n).
  - by rewrite list_lookup_alter_ne.
Qed.

Lemma get_known_store_scraped r n d :
  get_known (set_tweets (alter (set_scraped_refs r) n (tweets_of d)) d) = get_known d.
Proof.
  unfold get_known, tweets_of, errors_of. simpl.
  by rewrite fmap_id_alter_scraped.
Qed.

Lemma wants_scrape_unsettled expand_ids tw :
  wants_scrape expand_ids tw = true → settled tw = false.
Proof.
  unfold wants_scrape, settled. intros [H _]%andb_true_iff. by rewrite H.
Qed.

Lemma not_wants_scrape expand_ids tw :
  wants_scrape expand_ids tw = false → tw_author_id tw ∈ expand_ids →
  ∃ r, tw_scraped_refs tw = Some r ∧ r ≠ [].
Proof.
  unfold wants_scrape. intros H Hin.
  rewrite (bool_decide_eq_true_2 _ Hin), andb_true_r in H.
  destruct (tw_scraped_refs tw) as [[|x r]|]; simpl in H; try done.
  by eexists.
Qed.

Section ClosureSteps.
Context (E : env) (expand_ids : gset string) (T0 : list tweet).

Lemma Scanned_scrape_event n s tw :
  Scanned E expand_ids T0 n n s →
  tweets_of (data s) !! n = Some tw →
  wants_scrape expand_ids tw = true →
  Scanned E expand_ids T0 n (S n) (record_event (EvScrape n (tw_id tw)) s).
Proof.
  intros [[W1 W2 W3 W4 W5 W6 W7] Hb H2 H3 H4 [H5 H5'] H6] Htw Hw.
  split; [split|..]; simpl; try done.
  - intros i tw0. rewrite scraped_indices_app.
    intros [Hin|Hin]%elem_of_app HT0; [by eapply W3|].
    apply list_elem_of_singleton in Hin as ->.
    specialize (H3 n tw0 (le_n n) HT0). simplify_eq.
    by eapply wants_scrape_unsettled.
  - intros p [Hp|Hp]%elem_of_app; [by apply W4|].
    by apply list_elem_of_singleton in Hp as ->.
  - intros Hh. apply fresh_requests_app; [by apply W5|].
    repeat constructor. intros ids. simpl. done.
  - intros ids d [Hp|Hp]%elem_of_app; [by eapply W6|].
    by apply list_elem_of_singleton in Hp.
  - intros i x d [Hp|Hp]%elem_of_app; [by eapply W7|].
    apply list_elem_of_singleton in Hp. simplify_eq. by exists tw.
  - rewrite scraped_indices_app. split.
    + apply NoDup_app. split_and!; [done| |apply NoDup_singleton].
      intros i Hi ->%list_elem_of_singleton. apply H5' in Hi. lia.
    + intros i [Hi|Hi]%elem_of_app; [apply H5' in Hi; lia|].
      apply list_elem_of_singleton in Hi. lia.
  - intros Hh Hnd. destruct (H6 Hh Hnd) as (I1 & I2 & I3).
    assert ((tw_id <$> tweets_of (data s)) !! n = Some (tw_id tw)) as Hn
      by (by rewrite list_lookup_fmap, Htw).
    rewrite scraped_ids_app. split_and!; [done| |].
    + apply NoDup_app. split_and!; [done| |apply NoDup_singleton].
      intros x Hx ->%list_elem_of_singleton.
      destruct (I3 _ Hx) as (i & Hi & Hl).
      pose proof (NoDup_lookup _ _ _ _ I1 Hl Hn). lia.
    + intros x [Hx|Hx]%elem_of_app.
      * destruct (I3 _ Hx) as (i & Hi & Hl). exists i. split; [lia|done].
      * apply list_elem_of_singleton in Hx as ->. exists n. split; [lia|done].
Qed.

Lemma Scanned_store n s tw r :
  Scanned E expand_ids T0 n (S n) s →
  tweets_of (data s) !! n = Some tw →
  wants_scrape expand_ids tw = true →
  r ≠ [] →
  Scanned E expand_ids T0 (S n) (S n)
    (with_data (λ d, set_tweets (alter (set_scraped_refs r) n (tweets_of d)) d) s).
Proof.
  intros [[W1 W2 W3 W4 W5 W6 W7] Hb H2 H3 H4 H5 H6] Htw Hw Hr.
  assert (∀ i, i ≠ n →
    alter (set_scraped_refs r) n (tweets_of (data s)) !! i = tweets_of (data s) !! i)
    as Hne by (intros i Hi; by rewrite list_lookup_alter_ne).
  assert (alter (set_scraped_refs r) n (tweets_of (data s)) !! n
          = Some (set_scraped_refs r tw)) as Heq
    by (by rewrite list_lookup_alter_eq, Htw).
  set (s' := with_data _ s).
  assert (tweets_of (data s') = alter (set_scraped_refs r) n (tweets_of (data s)))
    as Hdata by done.
  assert (get_known (data s') = get_known (data s)) as Hkn
    by apply get_known_store_scraped.
  assert (trace s' = trace s) as Htr by done.
  split; [split|..];
    rewrite ?Hdata, ?Htr, ?Hkn, ?fmap_id_alter_scraped; try done.
  - intros i tw'. destruct (decide (i = n)) as [->|Hi].
    + rewrite Heq. intros [= <-]. right; left. by exists r.
    + rewrite Hne by done. apply W1.
  - intros i tw0 HT0 Hs. destruct (decide (i = n)) as [->|Hi].
    + specialize (H3 n tw0 (le_n n) HT0). simplify_eq.
      apply wants_scrape_unsettled in Hw. congruence.
    + rewrite Hne by done. by apply W2.
  - rewrite length_alter.
    apply lookup_lt_Some in Htw. lia.
  - intros i tw' Hlt. destruct (decide (i = n)) as [->|Hi].
    + rewrite Heq. intros [= <-] _. by exists r.
    + rewrite Hne by done. apply H2. lia.
  - intros i tw0 Hle HT0. rewrite Hne by lia. apply H3; [lia|done].
  - intros i tw' Hl1 Hl2. rewrite Hne by lia. apply H4; [done|lia].
Qed.

Lemma Scanned_skip n s tw :
  Scanned E expand_ids T0 n n s →
  tweets_of (data s) !! n = Some tw →
  wants_scrape expand_ids tw = false →
  Scanned E expand_ids T0 (S n) (S n) s.
Proof.
  intros [W Hb H2 H3 H4 [H5 H5'] H6] Htw Hw.
  split; try done.
  - apply lookup_lt_Some in Htw. lia.
  - intros i tw' Hlt Hi Hin. destruct (decide (i = n)) as [->|Hne].
    + simplify_eq. by eapply not_wants_scrape.
    + eapply H2; [|done..]. lia.
  - intros i tw0 Hle. apply H3. lia.
  - intros i tw' Hl1 Hl2. apply H4; [done|lia].
  - split; [done|]. intros i Hi. apply H5' in Hi. lia.
  - intros Hh Hnd. destruct (H6 Hh Hnd) as (I1 & I2 & I3).
    split_and!; [done..|].
    intros x Hx. destruct (I3 _ Hx) as (i & Hi & Hl). exists i. split; [lia|done].
Qed.

Lemma Pending_same_known known_ batch_ s s' :
  get_known (data s') = get_known (data s) →
  Pending E known_ batch_ s → Pending E known_ batch_ s'.
Proof.
  intros Hk H Hh. destruct (H Hh) as [H1 H2 H3 H4].
  split; rewrite ?Hk; done.
Qed.

(** The update of [known] and [batch] at the end of a turn of the scan. *)
Lemma Pending_update known_ batch_ (refs : gset string) s :
  Pending E known_ batch_ s →
  Pending E (known_ ∪ refs ∖ known_) (batch_ ++ elements (refs ∖ known_)) s.
Proof.
  intros H Hh. destruct (H Hh) as [H1 H2 H3 H4]. split.
  - set_solver.
  - intros x [Hx|Hx]%elem_of_app; [by apply H2|].
    apply elem_of_elements in Hx. set_solver.
  - apply NoDup_app. split_and!; [done| |apply NoDup_elements].
    intros x Hx Hx'%elem_of_elements. apply H4 in Hx. set_solver.
  - intros x [Hx|Hx]%elem_of_app; [apply H4 in Hx; set_solver|].
    apply elem_of_elements in Hx. set_solver.
Qed.

End ClosureSteps.

Lemma drop_cons_lookup {A} (l : list A) n x rest :
  drop n l = x :: rest → l !! n = Some x ∧ drop (S n) l = rest.
Proof.
  intros H. split.
  - rewrite <- (Nat.add_0_r n), <- lookup_drop, H. done.
  - replace (S n) with (n + 1) by lia. rewrite <- drop_drop, H. done.
Qed.

Section ScanSpec.
Context (E : env) (expand_ids : gset string) (T0 : list tweet).
Context (fuel : nat) (write_fn : M unit) (Hwf : quiet write_fn).

(** The state while the scan stands before the tweets [slice], which
    begin at index [n]. *)
Definition Before (n m : nat) (slice : list tweet) (l : locals) (s : state) : Prop :=
  Scanned E expand_ids T0 n m s ∧
  Pending E (known l) (batch l) s ∧
  drop n (tweets_of (data s)) = slice.

Lemma Before_quiet n m slice l s s' :
  Before n m slice l s → quiet_step s s' → Before n m slice l s'.
Proof.
  intros (H1 & H2 & H3) Hq. split_and!.
  - by eapply Scanned_quiet.
  - by eapply Pending_quiet.
  - destruct Hq as [-> _]. done.
Qed.

Lemma Before_Weak n m slice l s : Before n m slice l s → Weak E T0 s.
Proof. intros ([] & _). done. Qed.

Lemma try_get_related_tweets_spec n tw rest l token :
  wants_scrape expand_ids tw = true →
  triple (Before n n (tw :: rest) l)
    (try_get_related_tweets E fuel write_fn n tw token)
    (λ r s, Before n (S n) (tw :: rest) l s ∧ r ≠ [])
    (Weak E T0).
Proof.
  intros Hw. unfold try_get_related_tweets.
  apply triple_bind with (Q' := λ _, Before n (S n) (tw :: rest) l).
  { apply triple_modify. intros s (H1 & H2 & H3).
    destruct (drop_cons_lookup _ _ _ _ H3) as [Hn _].
    split_and!; [by apply Scanned_scrape_event| |done].
    by apply (Pending_same_known _ _ _ s). }
  intros _ s HB. unfold except_KeyboardInterrupt.
  destruct (get_related_tweets E fuel (tw_id tw) token s) as [[r|e|] s1] eqn:Hg.
  - split.
    + eapply Before_quiet; [done|].
      eapply quiet_run; [apply quiet_get_related_tweets|done].
    + by eapply get_related_tweets_nonempty.
  - assert (Weak E T0 s1) as HW1.
    { eapply Before_Weak, Before_quiet; [done|].
      eapply quiet_run; [apply quiet_get_related_tweets|done]. }
    destruct e; try done.
    unfold bind, raise.
    destruct (write_fn s1) as [[[]|e'|] s2] eqn:Hwr;
      (eapply Weak_quiet; [done|]); by eapply quiet_run.
  - eapply Before_Weak, Before_quiet; [done|].
    eapply quiet_run; [apply quiet_get_related_tweets|done].
Qed.

Lemma scan_tweet_spec n tw rest l :
  triple (Before n n (tw :: rest) l)
    (scan_tweet E fuel expand_ids write_fn n tw l)
    (λ l' s, Before (S n) (S n) rest l' s)
    (Weak E T0).
Proof.
  unfold scan_tweet.
  apply triple_bind with
    (Q' := λ sg s, Before (S n) (S n) rest
       {| known := known l ∪
            (list_to_set (ref_id <$> tw_referenced_tweets tw) ∪ list_to_set sg.1)
            ∖ known l;
          guest_token := sg.2;
          batch := batch l ++ elements
            ((list_to_set (ref_id <$> tw_referenced_tweets tw) ∪ list_to_set sg.1)
             ∖ known l : gset string) |} s).
  - destruct (wants_scrape expand_ids tw) eqn:Hw.
    + apply triple_bind with (Q' := λ _, Before n n (tw :: rest) l).
      { apply triple_quiet.
        - unfold ensure_guest_token. case_match;
            [apply quiet_get_guest_token|apply quiet_ret].
        - apply Before_quiet.
        - apply Before_Weak. }
      intros token.
      eapply triple_bind; [by apply try_get_related_tweets_spec|].
      intros r. simpl.
      eapply triple_bind with
        (Q' := λ _, Before (S n) (S n) rest l).
      { apply triple_modify. intros s [(H1 & H2 & H3) Hr].
        destruct (drop_cons_lookup _ _ _ _ H3) as [Hn Hd].
        split_and!.
        - by eapply Scanned_store.
        - eapply Pending_same_known; [|done]. apply get_known_store_scraped.
        - change (drop (S n) (alter (set_scraped_refs r) n (tweets_of (data s))) = rest).
          rewrite drop_alter_lt by lia. done. }
      intros _. apply triple_ret. intros s (H1 & H2 & H3).
      split_and!; [done| |done]. by apply Pending_update.
    + apply triple_ret. intros s (H1 & H2 & H3).
      destruct (drop_cons_lookup _ _ _ _ H3) as [Hn Hd].
      split_and!; [by eapply Scanned_skip| |done]. by apply Pending_update.
  - intros sg. simpl.
    eapply triple_bind.
    { apply triple_quiet; [exact Hwf|apply Before_quiet|apply Before_Weak]. }
    intros u. by apply triple_ret.
Qed.

Lemma scan_spec slice : ∀ n l,
  triple (Before n n slice l)
    (scan E fuel expand_ids write_fn n slice l)
    (λ l' s, Before (n + length slice) (n + length slice) [] l' s)
    (Weak E T0).
Proof.
  induction slice as [|tw rest IH]; intros n l; simpl.
  - apply triple_ret. intros s. by rewrite Nat.add_0_r.
  - eapply triple_bind; [apply scan_tweet_spec|].
    intros l'. replace (n + S (length rest)) with (S n + length rest) by lia.
    apply IH.
Qed.

End ScanSpec.

(** ** The fetch of the pending batch *)

Lemma elem_of_get_known d x :
  x ∈ get_known d ↔
  x ∈ tw_id <$> tweets_of d ∨ x ∈ err_resource_id <$> errors_of d ∨
  x = "couldnt_scrape"%string ∨ x = "tweet_was_deleted"%string.
Proof. unfold get_known. set_solver. Qed.

Lemma NoDup_take_drop {A} (l : list A) k x :
  NoDup l → x ∈ take k l → x ∈ drop k l → False.
Proof.
  intros Hnd Ht Hd. rewrite <- (take_drop k l) in Hnd.
  apply NoDup_app in Hnd as (_ & H & _). by eapply H.
Qed.

Lemma elem_of_take_drop {A} (l : list A) k x :
  x ∈ take k l ∨ x ∈ drop k l → x ∈ l.
Proof. rewrite <- (take_drop k l) at 3. by rewrite elem_of_app. Qed.

Section FetchSpec.
Context (E : env) (expand_ids : gset string) (T0 : list tweet).
Context (write_fn : M unit) (Hwf : quiet write_fn).

Definition Fetching (n : nat) (known_ : gset string) (rem : list string) (s : state) : Prop :=
  Scanned E expand_ids T0 n n s ∧ Pending E known_ rem s.

Lemma Fetching_quiet n known_ rem s s' :
  Fetching n known_ rem s → quiet_step s s' → Fetching n known_ rem s'.
Proof.
  intros [H1 H2] Hq. split; [by eapply Scanned_quiet|by eapply Pending_quiet].
Qed.

Lemma Fetching_request n known_ rem s :
  Fetching n known_ rem s →
  Fetching n known_ rem (record_event (EvGetTweets (take 100 rem)) s).
Proof.
  intros [[[W1 W2 W3 W4 W5 W6 W7] Hb H2 H3 H4 H5 H6] HP].
  split; [|by apply (Pending_same_known _ _ _ s)].
  split; [split|..]; simpl; try done.
  - intros i tw0. rewrite scraped_indices_app. simpl. rewrite app_nil_r. apply W3.
  - intros p [Hp|Hp]%elem_of_app; [by apply W4|].
    by apply list_elem_of_singleton in Hp as ->.
  - intros Hh. destruct (HP Hh) as [P1 P2 P3 P4].
    apply fresh_requests_snoc; [by apply W5|done|].
    intros x Hx. apply P2. apply (elem_of_take_drop _ 100). by left.
  - intros ids d [Hp|Hp]%elem_of_app; [by eapply W6|].
    apply list_elem_of_singleton in Hp. simplify_eq.
    rewrite length_take. lia.
  - intros i x d [Hp|Hp]%elem_of_app; [by eapply W7|].
    by apply list_elem_of_singleton in Hp.
  - by rewrite scraped_indices_app, app_nil_r.
  - by rewrite scraped_ids_app, app_nil_r.
Qed.

Lemma Fetching_extend n known_ rem s got :
  (honest E →
     (∀ t, t ∈ tr_data got → api_id t ∈ take 100 rem) ∧
     NoDup (api_id <$> tr_data got) ∧
     (∀ e, e ∈ tr_errors got → err_resource_id e ∈ take 100 rem)) →
  Fetching n known_ rem s →
  Fetching n known_ (drop 100 rem)
    (with_data (λ d, set_errors (errors_of d ++ tr_errors got) d)
       (with_data (λ d, set_tweets (tweets_of d ++ (from_api <$> tr_data got)) d) s)).
Proof.
  intros Hgot [[[W1 W2 W3 W4 W5 W6 W7] Hb H2 H3 H4 H5 H6] HP].
  set (s' := with_data _ (with_data _ s)).
  assert (tweets_of (data s') = tweets_of (data s) ++ (from_api <$> tr_data got))
    as Htw by done.
  assert (errors_of (data s') = errors_of (data s) ++ tr_errors got) as Her by done.
  assert (trace s' = trace s) as Htr by done.
  assert (∀ x, x ∈ get_known (data s') ↔
            x ∈ get_known (data s) ∨ x ∈ api_id <$> tr_data got ∨
            x ∈ err_resource_id <$> tr_errors got) as Hkn.
  { intros x. rewrite !elem_of_get_known, Htw, Her, !fmap_app, !elem_of_app.
    rewrite <- list_fmap_compose.
    change (tw_id ∘ from_api) with api_id. naive_solver. }
  assert (∀ i tw, (tweets_of (data s) ++ (from_api <$> tr_data got)) !! i = Some tw →
            tweets_of (data s) !! i = Some tw ∨
            (length (tweets_of (data s)) ≤ i ∧ tw_scraped_refs tw = None)) as Hlk.
  { intros i tw Hi. destruct (decide (i < length (tweets_of (data s)))) as [Hlt|Hge].
    - left. by rewrite lookup_app_l in Hi.
    - right. split; [lia|]. rewrite lookup_app_r in Hi by lia.
      rewrite list_lookup_fmap in Hi.
      destruct (tr_data got !! _) as [t|]; simpl in Hi; [|done].
      by injection Hi as <-. }
  split.
  - split; [split|..]; rewrite ?Htw, ?Htr; try done.
    + intros i tw Hi. destruct (Hlk _ _ Hi) as [Hi'|[_ Hn]]; [by eapply W1|by left].
    + intros i tw0 HT0 Hs. apply lookup_app_l_Some. by apply W2.
    + intros p Hp x Hx. apply Hkn. left. by apply (W4 p).
    + rewrite length_app. lia.
    + intros i tw Hlt Hi. destruct (Hlk _ _ Hi) as [Hi'|[Hge _]]; [by eapply H2|lia].
    + intros i tw0 Hle HT0. apply lookup_app_l_Some. by apply H3.
    + intros i tw Hl1 Hl2 Hi.
      destruct (Hlk _ _ Hi) as [Hi'|[_ Hn]]; [by eapply H4|done].
    + intros Hh Hnd. destruct (H6 Hh Hnd) as (I1 & I2 & I3).
      destruct (Hgot Hh) as (G1 & G2 & G3). destruct (HP Hh) as [P1 P2 P3 P4].
      split_and!; [|done|].
      * rewrite fmap_app, <- list_fmap_compose.
        change (tw_id ∘ from_api) with api_id.
        apply NoDup_app. split_and!; [done| |done].
        intros x Hx Hx'. apply list_elem_of_fmap in Hx' as (t & -> & Ht).
        apply G1 in Ht. eapply P2; [by apply (elem_of_take_drop _ 100); left|].
        apply elem_of_get_known. by left.
      * intros x Hx. destruct (I3 _ Hx) as (i & Hi & Hl). exists i.
        split; [done|]. rewrite fmap_app. by apply lookup_app_l_Some.
  - intros Hh. destruct (Hgot Hh) as (G1 & G2 & G3).
    destruct (HP Hh) as [P1 P2 P3 P4]. split.
    + intros x [Hx|[Hx|Hx]]%Hkn; [by apply P1|..].
      * apply list_elem_of_fmap in Hx as (t & -> & Ht). apply P4.
        apply (elem_of_take_drop _ 100). left. by apply G1.
      * apply list_elem_of_fmap in Hx as (t & -> & Ht). apply P4.
        apply (elem_of_take_drop _ 100). left. by apply G3.
    + intros x Hx [Hk|[Hk|Hk]]%Hkn.
      * eapply P2; [|done]. apply (elem_of_take_drop _ 100). by right.
      * apply list_elem_of_fmap in Hk as (t & -> & Ht).
        eapply NoDup_take_drop; [done|by apply G1|done].
      * apply list_elem_of_fmap in Hk as (t & -> & Ht).
        eapply NoDup_take_drop; [done|by apply G3|done].
    + rewrite <- (take_drop 100 rem) in P3.
      by apply NoDup_app in P3 as (_ & _ & ?).
    + intros x Hx. apply P4. apply (elem_of_take_drop _ 100). by right.
Qed.

Lemma fetch_chunks_spec n known_ batch_ cnt : ∀ a,
  triple (Fetching n known_ (drop (a * 100) batch_))
    (fetch_chunks E write_fn ((λ k, k * 100) <$> seq a cnt) batch_)
    (λ _, Fetching n known_ (drop ((a + cnt) * 100) batch_))
    (Weak E T0).
Proof.
  induction cnt as [|cnt IH]; intros a; simpl.
  - apply triple_ret. intros s. by rewrite Nat.add_0_r.
  - set (rem := drop (a * 100) batch_).
    intros s HF. unfold bind at 1. unfold get_tweets, bind at 1, log, modify.
    unfold consult.
    pose proof (Fetching_request _ _ _ _ HF) as HF1. fold rem in HF1.
    set (s1 := record_event (EvGetTweets (take 100 rem)) s) in *.
    assert (quiet_step s1 (next_tick s1)) as Hq1.
    { split; [done|]. exists []. by rewrite app_nil_r. }
    pose proof (Fetching_quiet _ _ _ _ _ HF1 Hq1) as HF2.
    destruct (client_get_tweets E (tick s1) (take 100 rem)) as [got|e|] eqn:Hgot;
      [|by destruct HF2 as [[]]..].
    assert (Fetching n known_ (drop 100 rem)
      (with_data (λ d, set_errors (errors_of d ++ tr_errors got) d)
         (with_data (λ d, set_tweets (tweets_of d ++ (from_api <$> tr_data got)) d)
            (next_tick s1)))) as HF3.
    { apply Fetching_extend; [|done]. intros Hh. by apply (Hh _ _ _ Hgot). }
    unfold bind, extend_tweets, extend_errors, modify. simpl.
    match goal with |- context [write_fn ?st] => set (s3 := st) in * end.
    pose proof (Hwf s3) as Hq3.
    destruct (write_fn s3) as [[[]|e|] s4] eqn:Hw4; simpl in Hq3.
    + assert (Fetching n known_ (drop (S a * 100) batch_) s4) as HF4.
      { eapply Fetching_quiet; [|done].
        unfold rem in HF3. rewrite drop_drop in HF3.
        by replace (a * 100 + 100) with (S a * 100) in HF3 by lia. }
      specialize (IH (S a) s4 HF4).
      by replace (a + S cnt) with (S a + cnt) by lia.
    + eapply Weak_quiet; [|done]. by destruct HF3 as [[]].
    + eapply Weak_quiet; [|done]. by destruct HF3 as [[]].
Qed.

End FetchSpec.

(** ** The closure loop *)

Lemma known_with_scraped_subseteq known_ tweets_ :
  known_ ⊆ known_with_scraped known_ tweets_.
Proof.
  unfold known_with_scraped. revert known_.
  induction tweets_ as [|tw rest IH]; intros known_; simpl; [done|].
  etrans; [|apply IH]. set_solver.
Qed.

Section ClosureSpec.
Context (E : env) (expand_ids : gset string) (T0 : list tweet).
Context (fuel : nat) (write_fn : M unit) (Hwf : quiet write_fn).

(** Every tweet of the database has been scanned. *)
Definition Done (s : state) : Prop :=
  Scanned E expand_ids T0
    (length (tweets_of (data s))) (length (tweets_of (data s))) s.

Lemma Before_nil_Done n l s :
  Before E expand_ids T0 n n [] l s →
  n = length (tweets_of (data s)).
Proof.
  intros ([] & _ & Hd).
  apply (f_equal length) in Hd. rewrite length_drop in Hd. simpl in Hd. lia.
Qed.

Lemma closure_loop_spec rounds : ∀ pos l,
  triple (λ s, Scanned E expand_ids T0 pos pos s ∧
               Pending E (known l) (batch l) s)
    (closure_loop E fuel expand_ids write_fn rounds pos l)
    (λ _, Done) (Weak E T0).
Proof.
  induction rounds as [|rounds IH]; intros pos l; simpl.
  { intros s [[] _]. done. }
  apply triple_bind with
    (Q' := λ t s, Scanned E expand_ids T0 pos pos s ∧
                  Pending E (known l) (batch l) s ∧ t = tweets_of (data s)).
  { apply triple_gets. by intros s []. }
  intros tweets_.
  apply triple_bind with
    (Q' := λ l' s, Before E expand_ids T0
       (length (tweets_of (data s))) (length (tweets_of (data s))) [] l' s).
  { eapply triple_weaken; [apply (scan_spec E expand_ids T0 fuel write_fn Hwf)|..].
    - intros s (HS & HP & ->). by split_and!.
    - intros l' s HB. simpl in HB.
      by rewrite <- (Before_nil_Done _ _ _ HB).
    - done. }
  intros l'. destruct (is_empty (batch l')).
  { apply triple_ret. by intros s []. }
  apply triple_bind with
    (Q' := λ t s, Before E expand_ids T0
       (length (tweets_of (data s))) (length (tweets_of (data s))) [] l' s ∧
       t = tweets_of (data s)).
  { apply triple_gets. by intros s. }
  intros t s [(HS & HP & _) ->].
  set (n := length (tweets_of (data s))) in *.
  assert (triple (Fetching E expand_ids T0 n (known l') (drop (0 * 100) (batch l')))
    (do! fetch_chunks E write_fn (range100 (length (batch l'))) (batch l') in
     closure_loop E fuel expand_ids write_fn rounds n
       {| known := known l'; guest_token := guest_token l'; batch := [] |})
    (λ _, Done) (Weak E T0)) as Htr.
  { eapply triple_bind;
      [apply (fetch_chunks_spec E expand_ids T0 write_fn Hwf)|].
    intros u. eapply triple_weaken; [apply IH|..]; try done.
    intros s' [HS' HP']. split; [done|]. simpl.
    intros Hh. destruct (HP' Hh) as [P1 _ _ _].
    split; [done| |apply NoDup_nil_2|]; intros x Hx; by apply elem_of_nil in Hx. }
  apply Htr. by split.
Qed.

Lemma Scanned_start s :
  trace s = [] → T0 = tweets_of (data s) → Scanned E expand_ids T0 0 0 s.
Proof.
  intros Htr ->. split; [split|..]; rewrite ?Htr; try done.
  - intros i tw Hi. by right; right.
  - intros i tw0 Hi. by apply elem_of_nil in Hi.
  - intros p Hp. by apply elem_of_nil in Hp.
  - intros ids d Hp. by apply elem_of_nil in Hp.
  - intros i x d Hp. by apply elem_of_nil in Hp.
  - lia.
  - intros i tw Hi. lia.
  - intros i tw Hl _ Hi. apply lookup_lt_Some in Hi. lia.
  - split; [apply NoDup_nil_2|]. intros i Hi. by apply elem_of_nil in Hi.
  - intros _ Hnd. split_and!; [done|apply NoDup_nil_2|].
    intros x Hx. by apply elem_of_nil in Hx.
Qed.

Lemma do_reply_closure_spec :
  triple (λ s, trace s = [] ∧ T0 = tweets_of (data s))
    (do_reply_closure E fuel expand_ids write_fn)
    (λ _, Done) (Weak E T0).
Proof.
  unfold do_reply_closure, setdefault_tweets, setdefault_errors.
  set (P := λ s : state, trace s = [] ∧ T0 = tweets_of (data s)).
  assert (∀ f : db → db, (∀ d, tweets_of (f d) = tweets_of d) →
            ∀ s, P s → P (with_data f s)) as HPf.
  { intros f Hf s [H1 H2]. split; [done|]. simpl. by rewrite Hf. }
  apply triple_bind with (Q' := λ _, P).
  { apply triple_bind with (Q' := λ _, P).
    - apply triple_modify. apply HPf. intros d. unfold tweets_of.
      destruct (tweets d) eqn:Ht; simpl; by rewrite ?Ht.
    - intros u s Hs. exact Hs. }
  intros tweets_.
  apply triple_bind with (Q' := λ _, P).
  { apply triple_bind with (Q' := λ _, P).
    - apply triple_modify. apply HPf. intros d. by destruct (errors d).
    - intros u s Hs. exact Hs. }
  intros _.
  apply triple_bind with (Q' := λ d s, P s ∧ d = data s).
  { intros s Hs. by split. }
  intros d. eapply triple_weaken; [apply closure_loop_spec|..]; try done.
  intros s [[Htr HT0] ->]. split; [by apply Scanned_start|].
  intros Hh. simpl. split.
  - apply known_with_scraped_subseteq.
  - intros x Hx. by apply elem_of_nil in Hx.
  - apply NoDup_nil_2.
  - intros x Hx. by apply elem_of_nil in Hx.
Qed.

End ClosureSpec.

(** ** Runs of the closure with the checkpoint generator of [main] *)

Lemma filter_omap_absent {A B} `{EqDecision B} (f : A → option B) l x :
  x ∉ omap f l → filter (λ p, f p = Some x) l = [].
Proof.
  induction l as [|a l IH]; [done|]. simpl.
  rewrite filter_cons. destruct (f a) as [y|] eqn:Hf.
  - intros Hx. apply not_elem_of_cons in Hx as [Hne Hx].
    rewrite decide_False by congruence. by apply IH.
  - intros Hx. rewrite decide_False by done. by apply IH.
Qed.

Lemma filter_omap_NoDup {A B} `{EqDecision B} (f : A → option B) l x :
  NoDup (omap f l) → length (filter (λ p, f p = Some x) l) ≤ 1.
Proof.
  induction l as [|a l IH]; simpl; [lia|].
  rewrite filter_cons. destruct (f a) as [y|] eqn:Hf.
  - intros [Hy Hnd]%NoDup_cons. destruct (decide (Some y = Some x)) as [[= ->]|Hne].
    + rewrite filter_omap_absent by done. simpl. lia.
    + by apply IH.
  - intros Hnd. rewrite decide_False by done. by apply IH.
Qed.

Section ClosureRuns.
Context (E : env) (fuel : nat) (expand_ids : gset string).

Lemma closure_run_Weak s :
  trace s = [] →
  Weak E (tweets_of (data s))
    (do_reply_closure E fuel expand_ids (next_gen_obj E) s).2.
Proof.
  intros Htr.
  pose proof (do_reply_closure_spec E expand_ids (tweets_of (data s)) fuel _
                (quiet_next_gen_obj E) s (conj Htr eq_refl)) as H.
  destruct (do_reply_closure _ _ _ _ s) as [[[]|e|] s']; simpl; try done.
  by destruct H.
Qed.

Lemma closure_run_Done s s' :
  trace s = [] →
  do_reply_closure E fuel expand_ids (next_gen_obj E) s = (Ok tt, s') →
  Done E expand_ids (tweets_of (data s)) s'.
Proof.
  intros Htr Hrun.
  pose proof (do_reply_closure_spec E expand_ids (tweets_of (data s)) fuel _
                (quiet_next_gen_obj E) s (conj Htr eq_refl)) as H.
  by rewrite Hrun in H.
Qed.

End ClosureRuns.

Lemma demo_env_honest : honest demo_env.
Proof.
  intros n ids got [= <-]. simpl. split_and!.
  - intros t (x & -> & Hx)%list_elem_of_fmap.
    by apply (proj1 (elem_of_remove_dups _ _)) in Hx.
  - rewrite <- list_fmap_compose.
    replace (api_id ∘ plain_api_tweet "bob"%string) with (@id string) by done.
    rewrite list_fmap_id. apply NoDup_remove_dups.
  - intros e He. by apply elem_of_nil in He.
Qed.

(** ** Claims about the closure *)

(** C1. After [do_reply_closure] has returned, every tweet of the database
    whose author is in the expand set carries a [scraped_refs] value, a
    non-empty list (found ids or a sentinel); no entry of the tweet list was
    scraped twice; and, the tweet ids of the database being unique and the
    lookup answering what it was asked, no tweet id was scraped more than
    once during the run. *)
Theorem closure_scrapes_expand_tweets_once E fuel expand_ids s s' :
  trace s = [] →
  do_reply_closure E fuel expand_ids (next_gen_obj E) s = (Ok tt, s') →
  (∀ tw, tw ∈ tweets_of (data s') → tw_author_id tw ∈ expand_ids →
     ∃ r, tw_scraped_refs tw = Some r ∧ r ≠ []) ∧
  NoDup (scraped_indices (trace s')) ∧
  (honest E → NoDup (tw_id <$> tweets_of (data s)) →
   ∀ x, length (filter (λ p, scraped_id p = Some x) (trace s')) ≤ 1).
Proof.
  intros Htr Hrun.
  destruct (closure_run_Done _ _ _ _ _ Htr Hrun) as [_ _ H2 _ _ [H5 _] H6].
  split_and!; [|done|].
  - intros tw [i Hi]%list_elem_of_lookup_1 Hin.
    eapply H2; [|done..]. by eapply lookup_lt_Some.
  - intros Hh Hnd x. destruct (H6 Hh Hnd) as (_ & I2 & _).
    by apply filter_omap_NoDup.
Qed.

Lemma closure_scrapes_expand_tweets_once_witness :
  (∀ tw, tw ∈ tweets_of (data demo_run.2) →
     tw_author_id tw ∈ ({["alice"%string]} : gset string) →
     ∃ r, tw_scraped_refs tw = Some r ∧ r ≠ []) ∧
  NoDup (scraped_indices (trace demo_run.2)) ∧
  (∀ x, length (filter (λ p, scraped_id p = Some x) (trace demo_run.2)) ≤ 1).
Proof.
  destruct (closure_scrapes_expand_tweets_once demo_env 5 {["alice"%string]}
              (start demo_db) demo_run.2) as (H1 & H2 & H3).
  - reflexivity.
  - vm_compute. reflexivity.
  - split_and!; [exact H1|exact H2|].
    apply H3; [apply demo_env_honest|]. compute_done.
Defined.

(** C10. Every [scraped_refs] value the program stores is a non-empty
    list: [get_related_tweets] never returns the empty list, and after a
    run of the closure every tweet either has no [scraped_refs], or a
    non-empty one, or is an entry that the run found like that.  A
    non-empty value keeps the tweet from being selected again, an empty
    list counts like an absent key, and an entry that starts a run with a
    non-empty value is neither scraped nor altered by the run. *)
Theorem stored_scraped_refs_nonempty E fuel expand_ids s :
  trace s = [] →
  let s' := (do_reply_closure E fuel expand_ids (next_gen_obj E) s).2 in
  (∀ tweet_ token s1 r s2,
     get_related_tweets E fuel tweet_ token s1 = (Ok r, s2) → r ≠ []) ∧
  (∀ (i : nat) tw, tweets_of (data s') !! i = Some tw →
     tw_scraped_refs tw = None ∨
     (∃ r, tw_scraped_refs tw = Some r ∧ r ≠ []) ∨
     tweets_of (data s) !! i = Some tw) ∧
  (∀ tw r, tw_scraped_refs tw = Some r → r ≠ [] →
     wants_scrape expand_ids tw = false) ∧
  (∀ tw tw', tw_author_id tw = tw_author_id tw' →
     tw_scraped_refs tw = None → tw_scraped_refs tw' = Some [] →
     wants_scrape expand_ids tw = wants_scrape expand_ids tw') ∧
  (∀ (i : nat) tw0, tweets_of (data s) !! i = Some tw0 → settled tw0 = true →
     (i ∉ scraped_indices (trace s')) ∧ tweets_of (data s') !! i = Some tw0).
Proof.
  intros Htr s'.
  destruct (closure_run_Weak E fuel expand_ids s Htr) as [W1 W2 W3 _ _ _ _].
  fold s' in W1, W2, W3. split_and!.
  - intros tweet_ token s1 r s2. apply get_related_tweets_nonempty.
  - exact W1.
  - intros tw r Hr Hne. unfold wants_scrape. rewrite Hr.
    by destruct r.
  - intros tw tw' Ha Hn He. unfold wants_scrape. by rewrite Ha, Hn, He.
  - intros i tw0 Hi Hs. split; [|by apply W2].
    intros Hin. specialize (W3 _ _ Hin Hi). congruence.
Qed.

Lemma stored_scraped_refs_nonempty_witness :
  trace (start demo_db) = [] ∧
  (∀ (i : nat) tw, tweets_of (data demo_run.2) !! i = Some tw →
     tw_scraped_refs tw = None ∨
     (∃ r, tw_scraped_refs tw = Some r ∧ r ≠ []) ∨
     tweets_of (data (start demo_db)) !! i = Some tw).
Proof.
  split; [reflexivity|].
  apply (stored_scraped_refs_nonempty demo_env 5 {["alice"%string]} (start demo_db)).
  reflexivity.
Defined.

(** ** Claims about the scrape outcomes *)







(** ** Claims about the requests *)

Lemma get_known_setdefault_tweets d :
  get_known (match tweets d with Some _ => d | None => set_tweets [] d end)
  = get_known d.
Proof.
  unfold get_known, tweets_of, errors_of.
  destruct (tweets d) eqn:Ht; simpl; by rewrite ?Ht.
Qed.

Lemma fetch_tweets_by_id_trace E tweet_ids s :
  let wanted : gset string := list_to_set tweet_ids ∖ get_known (data s) in
  let s' := (fetch_tweets_by_id E tweet_ids s).2 in
  (wanted = ∅ ∧ s' = s) ∨
  (wanted ≠ ∅ ∧ ∃ d, get_known d = get_known (data s) ∧
     trace s' = trace s ++ [(EvGetTweets (elements wanted), d)]).
Proof.
  intros wanted s'. subst wanted s'.
  unfold fetch_tweets_by_id, bind, gets. simpl.
  set (wanted := list_to_set tweet_ids ∖ get_known (data s)).
  destruct (decide (wanted = ∅)) as [He|Hne].
  { left. by rewrite bool_decide_eq_true_2. }
  right. split; [done|]. rewrite bool_decide_eq_false_2 by done.
  exists (match tweets (data s) with
          | Some _ => data s
          | None => set_tweets [] (data s)
          end).
  split; [apply get_known_setdefault_tweets|].
  unfold setdefault_tweets, get_tweets, bind, modify, gets, log, consult. simpl.
  by destruct (client_get_tweets E (tick s) (elements wanted)) as [got|e|].
Qed.

(** C6, as stated, fails: the scrape of the tweet "1" is a request for an
    id that is in the known set when it is issued. *)
Lemma scrape_requests_a_known_id : ¬ no_known_requested (trace demo_run.2).
Proof.
  intros H.
  refine (H 1 1 (EvScrape 0 "1") (data (start demo_db)) (EvScrape 0 "1")
            (data (start demo_db)) "1"%string (le_n 1) _ _ _ _).
  - vm_compute. reflexivity.
  - vm_compute. reflexivity.
  - reflexivity.
  - apply elem_of_get_known. left. set_solver.
Qed.

(** C6, amended. The lookup answering what it was asked, no by-id fetch
    request of the closure or of [fetch_tweets_by_id] contains an id that
    was in the known set when the request was issued or at any earlier
    point; a scrape request, in contrast, is always for the id of a tweet
    of the database, which is a known id. *)
Theorem known_ids_not_fetched_again E fuel expand_ids s :
  honest E → trace s = [] →
  let s' := (do_reply_closure E fuel expand_ids (next_gen_obj E) s).2 in
  fresh_requests (trace s') ∧
  (∀ tweet_ids, fresh_requests (trace (fetch_tweets_by_id E tweet_ids s).2)) ∧
  (∀ i x d, (EvScrape i x, d) ∈ trace s' → x ∈ get_known d).
Proof.
  intros Hh Htr s'.
  destruct (closure_run_Weak E fuel expand_ids s Htr) as [_ _ _ _ W5 _ W7].
  fold s' in W5, W7. split_and!.
  - by apply W5.
  - intros tweet_ids.
    destruct (fetch_tweets_by_id_trace E tweet_ids s) as [[_ ->]|(_ & d & Hd & ->)].
    + rewrite Htr. intros i j e d ids d' _ Hi. done.
    + rewrite Htr. simpl. intros [|i] [|j] e d1 ids d' Hij Hi Hj x Hx;
        simplify_eq/=; try lia.
      rewrite Hd. apply elem_of_elements in Hx. set_solver.
  - intros i x d Hin. destruct (W7 _ _ _ Hin) as (tw & Hi & <-).
    apply elem_of_get_known. left.
    apply list_elem_of_fmap_2. by eapply list_elem_of_lookup_2.
Qed.

Lemma known_ids_not_fetched_again_witness : fresh_requests (trace demo_run.2).
Proof.
  apply (known_ids_not_fetched_again demo_env 5 {["alice"%string]} (start demo_db)).
  - apply demo_env_honest.
  - reflexivity.
Defined.

(** C7. [fetch_tweets_by_id] hands all unknown ids to one lookup: for
    distinct ids, none of them known, the single request carries as many
    ids as were given, more than 100 if there are more. *)
Theorem fetch_tweets_by_id_single_request E tweet_ids s :
  NoDup tweet_ids → tweet_ids ≠ [] →
  (∀ x, x ∈ tweet_ids → x ∉ get_known (data s)) →
  ∃ ids d,
    trace (fetch_tweets_by_id E tweet_ids s).2 = trace s ++ [(EvGetTweets ids, d)] ∧
    length ids = length tweet_ids.
Proof.
  intros Hnd Hne Hun.
  assert (list_to_set tweet_ids ∖ get_known (data s)
          = (list_to_set tweet_ids : gset string)) as Heq by set_solver.
  destruct (fetch_tweets_by_id_trace E tweet_ids s) as [[He _]|(_ & d & _ & Htr)].
  - rewrite Heq in He. destruct tweet_ids as [|x rest]; [done|]. set_solver.
  - eexists _, d. split; [exact Htr|].
    rewrite Heq. by rewrite elements_list_to_set.
Qed.

Lemma fetch_tweets_by_id_single_request_witness :
  ∃ ids d,
    trace (fetch_tweets_by_id demo_env many_ids (start empty_db)).2
      = [(EvGetTweets ids, d)] ∧
    length ids = 101.
Proof.
  destruct (fetch_tweets_by_id_single_request demo_env many_ids (start empty_db))
    as (ids & d & Htr & Hlen).
  - compute_done.
  - discriminate.
  - intros x Hx Hk. apply elem_of_get_known in Hk as [Hk|[Hk|[->| ->]]].
    + by apply elem_of_nil in Hk.
    + by apply elem_of_nil in Hk.
    + revert Hx. compute_done.
    + revert Hx. compute_done.
  - exists ids, d. split; [exact Htr|exact Hlen].
Defined.

(** The closure, in contrast, never asks for more than 100 ids at once. *)
Lemma closure_requests_at_most_100 E fuel expand_ids s ids d :
  trace s = [] →
  (EvGetTweets ids, d)
    ∈ trace (do_reply_closure E fuel expand_ids (next_gen_obj E) s).2 →
  length ids ≤ 100.
Proof.
  intros Htr Hin.
  destruct (closure_run_Weak E fuel expand_ids s Htr) as [_ _ _ _ _ W6 _].
  by eapply W6.
Qed.

(** ** The checkpoint generator *)

Lemma idle_ret {A} (a : A) : idle (ret a).
Proof. by intros s. Qed.

Lemma idle_raise {A} e : idle (@raise A e).
Proof. by intros s. Qed.

Lemma idle_lift {A} (r : result A) : idle (lift r).
Proof. by intros s. Qed.

Lemma idle_gets {A} (f : state → A) : idle (gets f).
Proof. by intros s. Qed.

Lemma idle_consult {A} (o : nat → result A) : idle (consult o).
Proof. by intros s. Qed.

Lemma idle_log e : idle (log e).
Proof. by intros s. Qed.

Lemma idle_with_data f : idle (modify (with_data f)).
Proof. by intros s. Qed.

Lemma idle_bind {A B} (m : M A) (k : A → M B) :
  idle m → (∀ a, idle (k a)) → idle (bind m k).
Proof.
  intros Hm Hk s. unfold bind. specialize (Hm s).
  destruct (m s) as [[a|e|] s1]; simpl in *; try done.
  destruct (Hk a s1) as [H1 H2]. destruct Hm as [H3 H4]. split; congruence.
Qed.

Lemma idle_run {A} (m : M A) s r s' :
  idle m → m s = (r, s') → store s' = store s ∧ gen_last s' = gen_last s.
Proof. intros Hi Hm. specialize (Hi s). by rewrite Hm in Hi. Qed.

Ltac idle_tac :=
  repeat first
    [ apply idle_ret | apply idle_raise | apply idle_lift
    | apply idle_gets | apply idle_consult | apply idle_log
    | apply idle_with_data
    | apply idle_bind; [|intros ?]
    | progress case_match ].

Section Checkpoints.
Context (E : env).

Lemma idle_get_guest_token : idle (get_guest_token E).
Proof. unfold get_guest_token, raise_for_status, response_json. idle_tac. Qed.

Lemma idle_send_request fuel tweet_ token : idle (send_request E fuel tweet_ token).
Proof.
  induction fuel as [|fuel IH]; simpl; [idle_tac|].
  unfold time_time, time_sleep. idle_tac; done.
Qed.

Lemma idle_get_related_tweets fuel tweet_ token :
  idle (get_related_tweets E fuel tweet_ token).
Proof.
  unfold get_related_tweets, raise_for_status, response_json.
  pose proof idle_send_request. idle_tac; done.
Qed.

(** What one [next(gen_obj)] does: it reads the clock (twice at the first
    call) and writes the database only if more than 10 s have passed; a
    write that fails leaves it with the exception of the write, the state
    file and [last] as they were. *)
Lemma next_gen_obj_spec s :
  let run := next_gen_obj E s in
  let s' := run.2 in
  let now := clock E (tick s' - 1) in
  let last := default (clock E (tick s' - 2)) (gen_last s) in
  data s' = data s ∧
  if (now - last >? 10)%Z
  then trace s' = trace s ++ [(EvWriteDb, data s)] ∧
       match disk_write E (writes s) with
       | Ok _ => run.1 = Ok tt ∧ store s' = Some (data s) ∧ gen_last s' = Some now
       | failure => run.1 = failure ∧ store s' = store s ∧ gen_last s' = Some last
       end
  else run.1 = Ok tt ∧ store s' = store s ∧ gen_last s' = Some last ∧
       trace s' = trace s.
Proof.
  unfold next_gen_obj, write_db, disk_steps, bind, gets, time_time, consult,
    modify, log.
  destruct (gen_last s) as [last|] eqn:Hl; simpl.
  - destruct (clock E (tick s) - last >? 10)%Z eqn:Hc; simpl.
    + destruct (disk_write E (writes s)) as [[]| |] eqn:Hw; simpl;
        rewrite ?Nat.sub_0_r, ?Hc, ?Hw; simpl; by rewrite ?Hl.
    + rewrite ?Nat.sub_0_r, ?Hc; simpl; by rewrite ?Hl.
  - destruct (clock E (S (tick s)) - clock E (tick s) >? 10)%Z eqn:Hc; simpl.
    + destruct (disk_write E (writes s)) as [[]| |] eqn:Hw; simpl;
        rewrite ?Nat.sub_0_r, ?Hc, ?Hw; done.
    + rewrite ?Nat.sub_0_r, ?Hc; done.
Qed.

End Checkpoints.

Section CheckpointClaims.
Context (E : env) (fuel : nat) (expand_ids : gset string).





End CheckpointClaims.


(** ** Interruption *)

(** The turn of a tweet whose scrape is interrupted ends as the handler
    does: with the interruption once the callback has returned, with the
    failure of the callback otherwise. *)
Lemma scan_tweet_interrupted E fuel expand_ids i tw l token s0 s s1 :
  wants_scrape expand_ids tw = true →
  ensure_guest_token E l s0 = (Ok token, s) →
  get_related_tweets E fuel (tw_id tw) token
    (record_event (EvScrape i (tw_id tw)) s) = (Raise KeyboardInterrupt, s1) →
  scan_tweet E fuel expand_ids (next_gen_obj E) i tw l s0
  = (do! next_gen_obj E in raise KeyboardInterrupt) s1.
Proof.
  intros Hw Htok Hg. unfold scan_tweet. rewrite Hw.
  unfold bind at 1. unfold bind at 1. rewrite Htok.
  unfold bind at 1. unfold try_get_related_tweets.
  unfold bind at 1. unfold log at 1, modify at 1.
  unfold except_KeyboardInterrupt. rewrite Hg.
  unfold bind, raise. by destruct (next_gen_obj E s1) as [[[]|?|] s2].
Qed.

Section Reaches.
Context (E : env) (fuel : nat) (expand_ids : gset string) (write_fn : M unit).

(** A turn that does not return ends the scan, the loop and the closure
    with its own outcome. *)
Lemma scan_reaches_fails i slice l s j tw l' s' r s'' :
  scan_reaches E fuel expand_ids write_fn i slice l s j tw l' s' →
  scan_tweet E fuel expand_ids write_fn j tw l' s' = (r, s'') →
  match r with
  | Ok _ => True
  | Raise e => scan E fuel expand_ids write_fn i slice l s = (Raise e, s'')
  | OutOfFuel => scan E fuel expand_ids write_fn i slice l s = (OutOfFuel, s'')
  end.
Proof.
  induction 1 as [i tw rest l s|i tw rest l s l1 s1 j tw' l' s' Hturn _ IH];
    intros Hr; simpl.
  - destruct r as [?|e|]; [done|..]; unfold bind; by rewrite Hr.
  - specialize (IH Hr). destruct r as [?|e|]; [done|..];
      unfold bind; by rewrite Hturn.
Qed.

Lemma loop_reaches_fails rounds pos l s j tw l' s' r s'' :
  loop_reaches E fuel expand_ids write_fn rounds pos l s j tw l' s' →
  scan_tweet E fuel expand_ids write_fn j tw l' s' = (r, s'') →
  match r with
  | Ok _ => True
  | Raise e => closure_loop E fuel expand_ids write_fn rounds pos l s = (Raise e, s'')
  | OutOfFuel => closure_loop E fuel expand_ids write_fn rounds pos l s = (OutOfFuel, s'')
  end.
Proof.
  induction 1 as [rounds pos l s j tw l' s' Hscan
                 |rounds pos l s l1 s1 s2 j tw l' s' Hscan Hbatch Hfetch _ IH];
    intros Hr; simpl.
  - pose proof (scan_reaches_fails _ _ _ _ _ _ _ _ _ _ Hscan Hr) as H.
    destruct r as [?|e|]; [done|..]; unfold bind, gets; simpl; by rewrite H.
  - specialize (IH Hr).
    destruct r as [?|e|]; [done|..]; unfold bind, gets; simpl;
      by rewrite Hscan, Hbatch, Hfetch.
Qed.

Lemma closure_reaches_fails s j tw l' s' r s'' :
  closure_reaches E fuel expand_ids write_fn s j tw l' s' →
  scan_tweet E fuel expand_ids write_fn j tw l' s' = (r, s'') →
  match r with
  | Ok _ => True
  | Raise e => do_reply_closure E fuel expand_ids write_fn s = (Raise e, s'')
  | OutOfFuel => do_reply_closure E fuel expand_ids write_fn s = (OutOfFuel, s'')
  end.
Proof.
  intros (tweets_ & s1 & errors_ & s2 & Ht & He & Hloop) Hr.
  pose proof (loop_reaches_fails _ _ _ _ _ _ _ _ _ _ Hloop Hr) as H.
  unfold do_reply_closure.
  destruct r as [?|e|]; [done|..]; unfold bind at 1; rewrite Ht;
    unfold bind at 1; rewrite He; unfold bind, gets; by simpl.
Qed.

End Reaches.

(** C5, as stated, fails: the keyboard interrupts the scrape of the second
    tweet, the interruption comes out of the closure, but nothing was
    flushed, and the state file lacks the result of the first scrape. *)
Lemma interrupt_without_flush :
  interrupt_run.1 = Raise KeyboardInterrupt ∧
  filter (λ p, is_write_db p = true) (trace interrupt_run.2) = [] ∧
  store interrupt_run.2 ≠ Some (data interrupt_run.2).
Proof.
  split_and!.
  - vm_compute. reflexivity.
  - vm_compute. reflexivity.
  - vm_compute. discriminate.
Qed.

(** C5, amended. When a [KeyboardInterrupt] comes out of
    [get_related_tweets] at any tweet that [do_reply_closure] reaches, the
    closure calls the checkpoint callback once more and never returns.
    With the generator of [main] this call flushes the database only if
    the clock has advanced by more than 10 s since the last flush (or since
    the first call of the generator); otherwise nothing is written, the
    state file stays as it was and the interruption leaves the closure.
    When the flush is tried and succeeds, the state file holds the
    database and the interruption leaves the closure; when it fails, the
    state file stays as it was and the failure of the flush leaves the
    closure in place of the interruption. *)
Theorem interrupt_checkpoint_is_throttled E fuel expand_ids s i tw l s0 token st s1 :
  closure_reaches E fuel expand_ids (next_gen_obj E) s i tw l s0 →
  wants_scrape expand_ids tw = true →
  ensure_guest_token E l s0 = (Ok token, st) →
  get_related_tweets E fuel (tw_id tw) token
    (record_event (EvScrape i (tw_id tw)) st) = (Raise KeyboardInterrupt, s1) →
  let run := do_reply_closure E fuel expand_ids (next_gen_obj E) s in
  let now := clock E (tick run.2 - 1) in
  let last := default (clock E (tick run.2 - 2)) (gen_last s0) in
  run.1 ≠ Ok tt ∧
  data run.2 = data s0 ∧
  if (now - last >? 10)%Z
  then trace run.2 = trace s1 ++ [(EvWriteDb, data s0)] ∧
       match disk_write E (writes s1) with
       | Ok _ => run.1 = Raise KeyboardInterrupt ∧ store run.2 = Some (data s0)
       | failure => run.1 = failure ∧ store run.2 = store s0
       end
  else run.1 = Raise KeyboardInterrupt ∧ store run.2 = store s0 ∧
       trace run.2 = trace s1.
Proof.
  intros Hreach Hw Htok Hg.
  assert (data st = data s0 ∧ store st = store s0 ∧ gen_last st = gen_last s0)
    as (Hd0 & Hs0 & Hg0).
  { unfold ensure_guest_token in Htok. destruct (falsy_token _).
    - destruct (quiet_run _ _ _ _ (quiet_get_guest_token E) Htok) as [? _].
      destruct (idle_run _ _ _ _ (idle_get_guest_token E) Htok). done.
    - by injection Htok as _ <-. }
  assert (data s1 = data s0 ∧ store s1 = store s0 ∧ gen_last s1 = gen_last s0)
    as (Hd1 & Hs1 & Hg1).
  { destruct (quiet_run _ _ _ _ (quiet_get_related_tweets E fuel _ _) Hg) as [? _].
    destruct (idle_run _ _ _ _ (idle_get_related_tweets E fuel _ _) Hg).
    simpl in *. split_and!; congruence. }
  pose proof (scan_tweet_interrupted _ _ _ _ _ _ _ _ _ _ Hw Htok Hg) as Hturn.
  pose proof (next_gen_obj_spec E s1) as Hspec.
  rewrite Hg1, Hs1, Hd1 in Hspec.
  unfold bind, raise in Hturn.
  destruct (next_gen_obj E s1) as [r s2] eqn:Hnext. simpl in Hspec.
  destruct Hspec as (Hd & Hspec).
  assert (∃ r', scan_tweet E fuel expand_ids (next_gen_obj E) i tw l s0 = (r', s2) ∧
                match r with Ok _ => r' = Raise KeyboardInterrupt
                        | Raise e => r' = Raise e
                        | OutOfFuel => r' = OutOfFuel end) as (r' & Hturn' & Hr').
  { destruct r as [[]|e|]; eauto. }
  pose proof (closure_reaches_fails _ _ _ _ _ _ _ _ _ _ _ Hreach Hturn') as Hrun.
  assert (∃ out, do_reply_closure E fuel expand_ids (next_gen_obj E) s = (out, s2) ∧
                 out ≠ Ok tt ∧
                 match r with Ok _ => out = Raise KeyboardInterrupt
                         | failure => out = failure end) as (out & -> & Hne & Hout).
  { destruct r as [[]|e|]; subst r'; eauto. }
  simpl. split_and!; [done..|].
  destruct (_ >? _)%Z.
  - destruct Hspec as (Htrace & Hspec). split; [done|].
    destruct (disk_write E (writes s1)) as [[]|e|].
    + destruct Hspec as (-> & ? & _). done.
    + destruct Hspec as (-> & ? & _). done.
    + destruct Hspec as (-> & ? & _). done.
  - destruct Hspec as (-> & ? & _ & ?). done.
Qed.

(** On [full_disk_env] the scrape of the first tweet is interrupted, the
    flush is due and fails: [OSError] leaves the closure, not the
    interruption, and the state file is as before. *)
Lemma interrupt_checkpoint_is_throttled_witness :
  full_disk_run.1 = Raise OSError ∧
  store full_disk_run.2 = store (start full_disk_db) ∧
  filter (λ p, is_write_db p = true) (trace full_disk_run.2)
  = [(EvWriteDb, full_disk_db)].
Proof.
  pose proof (interrupt_checkpoint_is_throttled full_disk_env 5 {["alice"%string]}
    (start full_disk_db) 0 (plain_tweet "999" "alice")
    {| known := known_with_scraped (get_known full_disk_db) (tweets_of full_disk_db);
       guest_token := None; batch := [] |}
    (start full_disk_db) (JStr "gt")
    (ensure_guest_token full_disk_env
       {| known := ∅; guest_token := None; batch := [] |} (start full_disk_db)).2
    (get_related_tweets full_disk_env 5 "999" (JStr "gt")
       (record_event (EvScrape 0 "999")
          (ensure_guest_token full_disk_env
             {| known := ∅; guest_token := None; batch := [] |}
             (start full_disk_db)).2)).2) as H.
  fold full_disk_run in H. simpl in H.
  destruct H as (_ & _ & H).
  - eexists _, _, _, _. split_and!; [reflexivity..|].
    apply loop_scan. apply scan_here.
  - vm_compute. reflexivity.
  - vm_compute. reflexivity.
  - vm_compute. reflexivity.
  - vm_compute in H. destruct H as (Ht & H1 & H2).
    split_and!; vm_compute; [exact H1|exact H2|reflexivity].
Defined.

(** ** Rate limiting of the scrape endpoint *)

Section RateLimit.
Context (E : env).

(** A rate-limited answer whose reset instant lies ahead: sleep until then
    and send the same request again. *)
Lemma send_request_retries fuel tweet_ token s response resume :
  session_send E (tick s) tweet_ token = Ok response →
  status_code response = 429%Z →
  x_rate_limit_reset response = Some resume →
  (clock E (S (tick s)) ≤ resume)%Z →
  sleep_ends E (S (S (tick s))) (resume - clock E (S (tick s))) = Ok tt →
  send_request E (S fuel) tweet_ token s
  = send_request E fuel tweet_ token
      (next_tick (record_event (EvSleep (resume - clock E (S (tick s))))
         (next_tick (next_tick (record_event (EvSend tweet_ token) s))))).
Proof.
  intros Hsend H429 Hreset Hle Hsleep. simpl.
  unfold bind, log, modify, consult, time_time, time_sleep. simpl.
  rewrite Hsend, H429, Hreset. simpl.
  rewrite (proj2 (Z.ltb_ge _ _)) by lia. simpl.
  by rewrite Hsleep.
Qed.

(** Any other status ends the loop after this one request. *)
Lemma send_request_returns fuel tweet_ token s response :
  session_send E (tick s) tweet_ token = Ok response →
  status_code response ≠ 429%Z →
  send_request E (S fuel) tweet_ token s
  = (Ok response, next_tick (record_event (EvSend tweet_ token) s)).
Proof.
  intros Hsend Hne. simpl. unfold bind, log, modify, consult. simpl.
  rewrite Hsend. by rewrite (proj2 (Z.eqb_neq _ _) Hne).
Qed.

(** A status that is neither 200 nor 429 is fatal, with no second
    request. *)
Lemma get_related_tweets_fatal fuel tweet_ token s response :
  session_send E (tick s) tweet_ token = Ok response →
  status_code response ≠ 429%Z → status_code response ≠ 200%Z →
  ∃ e, get_related_tweets E (S fuel) tweet_ token s
       = (Raise e, next_tick (record_event (EvSend tweet_ token) s)).
Proof.
  intros Hsend H429 H200. unfold get_related_tweets.
  rewrite (bind_Ok _ _ _ _ _ (send_request_returns fuel _ _ _ _ Hsend H429)).
  unfold raise_for_status, bind, raise, ret.
  destruct (_ && _); [by eexists|].
  rewrite (proj2 (Z.eqb_neq _ _) H200). by eexists.
Qed.

(** C8. A 429 answer whose reset instant is already past when the clock is
    read aborts the scrape: the wait is negative and [time.sleep] raises
    [ValueError]. *)
Theorem stale_reset_aborts_scrape fuel tweet_ token s response resume :
  session_send E (tick s) tweet_ token = Ok response →
  status_code response = 429%Z →
  x_rate_limit_reset response = Some resume →
  (resume < clock E (S (tick s)))%Z →
  get_related_tweets E (S fuel) tweet_ token s
  = (Raise ValueError, next_tick (next_tick (record_event (EvSend tweet_ token) s))).
Proof.
  intros Hsend H429 Hreset Hlt. unfold get_related_tweets. simpl.
  unfold bind, log, modify, consult, time_time, time_sleep. simpl.
  rewrite Hsend, H429, Hreset. simpl.
  by rewrite (proj2 (Z.ltb_lt _ _)) by lia.
Qed.

End RateLimit.

Lemma stale_reset_aborts_scrape_witness :
  (get_related_tweets stale_env 5 "1" (JStr "gt") (start demo_db)).1
  = Raise ValueError.
Proof.
  rewrite (stale_reset_aborts_scrape stale_env 4 "1" (JStr "gt") (start demo_db)
             {| status_code := 429; x_rate_limit_reset := Some 100%Z;
                json_body := None |} 100%Z);
    [reflexivity|reflexivity|reflexivity|reflexivity|].
  vm_compute. reflexivity.
Defined.

(** ** The identity resolver *)

(** A cached user without username stops the scan of the cache: a
    non-numeric selector that does not match an earlier entry raises
    [AttributeError], and no lookup is issued. *)
Lemma get_user_ids_None_username E c rest_name u others s :
  isdigit (String c rest_name) = false →
  users_of (data s) = u :: others →
  u_username u = None →
  get_user_ids E [String c rest_name] s = (Raise (AttributeError "casefold"), s).
Proof.
  intros Hd Hu Hn. unfold get_user_ids. simpl.
  unfold bind, gets, lift. rewrite Hu. simpl. rewrite Hd. simpl.
  by rewrite Hn.
Qed.

(** C9. A run of [main] in which a per-id user lookup fails commits a user
    record whose username is [None] ([get_user_info] builds such a record
    for every error of the lookup); in the next run the non-numeric
    selector "bob" makes [get_user_ids] raise [AttributeError] out of
    [main], with no request issued. *)
Theorem none_username_breaks_get_user_ids :
  ∃ (E : env) (a1 a2 : args) (d : db),
    (main E 5 a1 fresh).1 = Ok tt ∧
    store (main E 5 a1 fresh).2 = Some d ∧
    (∃ u, u ∈ users_of d ∧ u_username u = None) ∧
    (∀ blob, u_username (error_user blob) = None) ∧
    Forall (λ name, isdigit name = false) (arg_user a2) ∧
    (get_user_ids E (arg_user a2) (with_data (λ _, d) (restart (main E 5 a1 fresh).2))).1
      = Raise (AttributeError "casefold") ∧
    (main E 5 a2 (restart (main E 5 a1 fresh).2)).1
      = Raise (AttributeError "casefold") ∧
    trace (main E 5 a2 (restart (main E 5 a1 fresh).2)).2 = [].
Proof.
  exists lost_account_env, first_args, second_args.
  exists (default empty_db (store first_run.2)).
  split_and!.
  - vm_compute. reflexivity.
  - vm_compute. reflexivity.
  - eexists. split; [|shelve]. vm_compute. left.
    Unshelve. reflexivity.
  - done.
  - repeat constructor.
  - vm_compute. reflexivity.
  - vm_compute. reflexivity.
  - vm_compute. reflexivity.
Qed.

(** ** Paths *)

Lemma head_of_no_slash s : no_slash s = true → head_of s = EmptyString.
Proof.
  induction s as [|c s IH]; simpl; [done|].
  intros [Hc Hs]%andb_true_iff. rewrite (IH Hs).
  by destruct (is_slash c).
Qed.

Lemma head_of_app_no_slash x y :
  no_slash y = true → head_of (String.append x y) = head_of x.
Proof.
  intros Hy. induction x as [|c x IH]; simpl.
  - by apply head_of_no_slash.
  - by rewrite IH.
Qed.

Lemma head_of_snoc_slash x :
  head_of (String.append x "/") = String.append x "/".
Proof.
  induction x as [|c x IH]; simpl; [done|].
  rewrite IH. by destruct x.
Qed.

Lemma rstrip_slash_snoc x :
  rstrip_slash (String.append x "/") = rstrip_slash x.
Proof. induction x as [|c x IH]; simpl; [done|]. by rewrite IH. Qed.

Lemma rstrip_slash_idemp s : rstrip_slash (rstrip_slash s) = rstrip_slash s.
Proof.
  induction s as [|c s IH]; simpl; [done|].
  destruct (rstrip_slash s) as [|c' r] eqn:Hr.
  - destruct (is_slash c) eqn:Hc; simpl; [done|]. by rewrite Hc.
  - change (rstrip_slash (String c (String c' r)))
      with (match rstrip_slash (String c' r) with
            | EmptyString => if is_slash c then EmptyString else String c EmptyString
            | r0 => String c r0
            end).
    by rewrite IH.
Qed.

Lemma ends_with_slash_snoc d :
  ends_with_slash d = true → ∃ d', d = String.append d' "/".
Proof.
  induction d as [|c d IH]; simpl; [done|].
  destruct d as [|c' d].
  - unfold is_slash. intros ->%Ascii.eqb_eq. by exists EmptyString.
  - intros [d' Hd']%IH. exists (String c d'). simpl. by rewrite Hd'.
Qed.

Lemma rstrip_slash_empty_ends d :
  d ≠ EmptyString → rstrip_slash d = EmptyString → ends_with_slash d = true.
Proof.
  induction d as [|c d IH]; [done|]. intros _. simpl.
  destruct (rstrip_slash d) as [|c' r] eqn:Hr; [|done].
  destruct (is_slash c) eqn:Hc; [|done]. intros _.
  destruct d as [|c' d]; [done|]. by apply IH.
Qed.

Lemma rstrip_slash_fixed_ends d :
  d ≠ EmptyString → rstrip_slash d = d → ends_with_slash d = false.
Proof.
  induction d as [|c d IH]; [done|]. intros _. simpl.
  destruct (rstrip_slash d) as [|c' r] eqn:Hr.
  - destruct (is_slash c) eqn:Hc; [done|]. by intros [= <-].
  - intros [= Hd]. subst d. by apply IH.
Qed.

Lemma append_assoc_slash d base :
  String.append d (String "/" base) = String.append (String.append d "/") base.
Proof.
  induction d as [|c d IH]; [done|].
  change (String c (String.append d (String "/" base))
          = String c (String.append (String.append d "/") base)).
  f_equal. exact IH.
Qed.

(** A file created in [dirname filename] under a name without slash lies
    in the directory of [filename]. *)
Lemma dirname_path_join filename c base :
  is_slash c = false → no_slash base = true →
  dirname (path_join (dirname filename) (String c base)) = dirname filename.
Proof.
  intros Hc Hbase.
  assert (no_slash (String c base) = true) as Hns by (simpl; by rewrite Hc).
  assert (dirname filename = EmptyString ∨
          (dirname filename ≠ EmptyString ∧
           rstrip_slash (dirname filename) = EmptyString) ∨
          (dirname filename ≠ EmptyString ∧
           rstrip_slash (dirname filename) = dirname filename)) as Hshape.
  { unfold dirname. destruct (rstrip_slash (head_of filename)) as [|c' r] eqn:Hr.
    - destruct (head_of filename); [by left|]. right; left. by split.
    - right; right. split; [done|]. by rewrite <- Hr, rstrip_slash_idemp. }
  set (d := dirname filename) in *. clearbody d.
  unfold path_join. rewrite Hc.
  destruct Hshape as [->|[[Hne Hr]|[Hne Hr]]].
  - unfold dirname. by rewrite (head_of_no_slash _ Hns).
  - rewrite (rstrip_slash_empty_ends _ Hne Hr).
    destruct d as [|c0 d0] eqn:Hd; [done|]. rewrite <- Hd in *.
    unfold dirname. rewrite (head_of_app_no_slash _ _ Hns).
    destruct (ends_with_slash_snoc d (rstrip_slash_empty_ends _ Hne Hr)) as [d' ->].
    by rewrite head_of_snoc_slash, Hr.
  - rewrite (rstrip_slash_fixed_ends _ Hne Hr).
    destruct d as [|c0 d0] eqn:Hd; [done|]. rewrite <- Hd in *.
    unfold dirname. rewrite append_assoc_slash, (head_of_app_no_slash _ _ Hns).
    rewrite head_of_snoc_slash, rstrip_slash_snoc, Hr.
    by destruct d.
Qed.

(** ** The atomic write *)

Lemma mkstemp_Ok dir prefix candidates (m : gmap string string) tempname :
  mkstemp dir prefix candidates m = Ok tempname →
  m !! tempname = None ∧
  ∃ name, name ∈ candidates ∧ tempname = path_join dir (String.append prefix name).
Proof.
  induction candidates as [|name rest IH]; simpl; [done|].
  destruct (m !! path_join dir (String.append prefix name)) eqn:Hm.
  - intros (H1 & name' & H2 & H3)%IH. split; [done|].
    exists name'. split; [by right|done].
  - intros [= <-]. split; [done|]. exists name. split; [by left|done].
Qed.

Lemma fs_run_app ops1 ops2 m :
  fs_run (ops1 ++ ops2) m = fs_run ops2 (fs_run ops1 m).
Proof. apply foldl_app. Qed.

Lemma fs_run_writes_only path other ops (m : gmap string string) :
  other ≠ path → Forall (writes_only path) ops →
  fs_run ops m !! other = m !! other.
Proof.
  intros Hne Hops. revert m.
  induction Hops as [|op ops Hop _ IH]; intros m; [done|].
  change (fs_run ops (fs_step m op) !! other = m !! other). rewrite IH.
  destruct op as [p|p chunk|src dst]; simpl in *; [| |done]; subst p.
  - by rewrite lookup_insert_ne.
  - by rewrite lookup_alter_ne.
Qed.

Lemma fs_run_appends path chunks : ∀ (m : gmap string string) acc,
  m !! path = Some acc →
  fs_run (FsAppend path <$> chunks) m !! path = Some (foldl String.append acc chunks).
Proof.
  induction chunks as [|chunk rest IH]; intros m acc Hm; [done|].
  change (fs_run (FsAppend path <$> rest)
            (alter (λ c, String.append c chunk) path m) !! path
          = Some (foldl String.append (String.append acc chunk) rest)).
  apply IH. by rewrite lookup_alter_eq, Hm.
Qed.

(** C3. [write_db] writes the serialization to a new file in the
    directory of the target and then replaces the target by it in one
    step: a crash at any earlier point leaves the target as it was, a
    failing [json.dump] leaves the target as it was, and a completed write
    leaves exactly the serialization there. *)
Theorem write_db_is_atomic filename candidates dump (m : gmap string string) tempname :
  mkstemp (dirname filename) "download_db" candidates m = Ok tempname →
  Forall (λ name, no_slash name = true) candidates →
  (m !! filename = None → tempname ≠ filename) →
  let ops := write_db_ops filename tempname dump in
  dirname tempname = dirname filename ∧
  (∀ k, k < length ops → fs_run (take k ops) m !! filename = m !! filename) ∧
  (dump.2 = Ok tt → fs_run ops m !! filename = Some (written dump.1)) ∧
  (dump.2 ≠ Ok tt → fs_run ops m !! filename = m !! filename) ∧
  write_db_on_disk filename candidates dump m = (dump.2, fs_run ops m).
Proof.
  intros Hmk Hcand Hfirst ops.
  destruct (mkstemp_Ok _ _ _ _ _ Hmk) as (Hfree & name & Hname & Htemp).
  assert (filename ≠ tempname) as Hne.
  { intros <-. destruct (m !! filename) eqn:Hm; [done|]. by apply Hfirst. }
  set (pre := FsCreate tempname :: (FsAppend tempname <$> dump.1)).
  assert (Forall (writes_only tempname) pre) as Hpre.
  { constructor; [done|]. apply Forall_fmap, Forall_true. done. }
  assert (fs_run pre m !! tempname = Some (written dump.1)) as Hcontent.
  { unfold pre. change (fs_run (FsAppend tempname <$> dump.1)
                          (<[tempname := EmptyString]> m) !! tempname
                        = Some (written dump.1)).
    apply fs_run_appends. by rewrite lookup_insert_eq. }
  destruct dump as [chunks outcome]. cbn [fst snd] in *.
  assert (write_db_on_disk filename candidates (chunks, outcome) m
          = (outcome, fs_run ops m)) as Hdisk
    by (unfold write_db_on_disk; by rewrite Hmk).
  assert (ops = pre ++ match outcome with
                       | Ok _ => [FsReplace tempname filename]
                       | _ => []
                       end) as Hops by done.
  assert (length pre = S (length (FsAppend tempname <$> chunks))) as Hlen by done.
  clearbody ops pre. subst ops.
  split_and!.
  - rewrite Htemp. rewrite Forall_forall in Hcand.
    apply (dirname_path_join filename "d" (String.append "ownload_db" name)).
    + done.
    + simpl. by apply Hcand.
  - intros k Hk. apply (fs_run_writes_only tempname); [done|].
    destruct outcome as [[]|e|]; rewrite ?app_nil_r; try by apply Forall_take.
    rewrite length_app in Hk. simpl in Hk.
    rewrite take_app_le by lia. by apply Forall_take.
  - intros ->. rewrite fs_run_app.
    change (fs_step (fs_run pre m) (FsReplace tempname filename) !! filename
            = Some (written chunks)).
    simpl. rewrite Hcontent. by rewrite lookup_insert_eq.
  - intros Hfail.
    destruct outcome as [[]|e|]; [done|..]; rewrite app_nil_r;
      by apply (fs_run_writes_only tempname).
  - exact Hdisk.
Qed.

Lemma write_db_is_atomic_witness :
  let dump := (["{"%string; "new"%string; "}"%string], Ok tt) in
  let ops := write_db_ops "state/db.json" "state/download_dbk3x9q2ab" dump in
  dirname "state/download_dbk3x9q2ab" = dirname "state/db.json" ∧
  (∀ k, k < length ops →
     fs_run (take k ops) demo_disk !! "state/db.json"%string = Some "{old}"%string) ∧
  fs_run ops demo_disk !! "state/db.json"%string = Some "{new}"%string.
Proof.
  intros dump ops.
  destruct (write_db_is_atomic "state/db.json" ["k3x9q2ab"%string] dump demo_disk
              "state/download_dbk3x9q2ab") as (H1 & H2 & H3 & _).
  - vm_compute. reflexivity.
  - repeat constructor.
  - intros H. vm_compute in H. discriminate H.
  - split_and!; [exact H1|exact H2|]. by apply H3.
Defined.

(** ** The identity resolver: what [get_user_ids] returns *)

Lemma resolve_names_numeric names : ∀ user_db result_ need,
  Forall (λ name, isdigit name = true) names →
  resolve_names names user_db result_ need = Ok (result_ ++ (Some <$> names), need).
Proof.
  induction names as [|name rest IH]; intros user_db result_ need Hd; simpl.
  - by rewrite app_nil_r.
  - apply Forall_cons in Hd as [Hn Hrest]. rewrite Hn, IH by done.
    by rewrite <- app_assoc.
Qed.

(** X1. Selectors that are all digits are ids already: they are returned
    as they are, the cache is not scanned and nothing is looked up. *)
Theorem get_user_ids_numeric E names s :
  Forall (λ name, isdigit name = true) names →
  get_user_ids E names s = (Ok (Some <$> names), s).
Proof.
  intros Hd.
  assert (∀ user_db, resolve_names names user_db [] [] = Ok (Some <$> names, []))
    as Hr by (intros; by rewrite resolve_names_numeric).
  unfold get_user_ids. destruct names as [|name rest]; [done|].
  cbn [is_empty bind gets lift]. by rewrite Hr.
Qed.

Lemma get_user_ids_numeric_witness :
  get_user_ids lost_account_env ["12"%string; "7"%string] first_run.2
  = (Ok [Some "12"%string; Some "7"%string], first_run.2).
Proof.
  apply (get_user_ids_numeric lost_account_env ["12"%string; "7"%string]).
  repeat constructor.
Defined.

Lemma dict_lookup_dict_set {V} k k' (v : V) d :
  dict_lookup k' (dict_set k v d) = if String.eqb k k' then Some v else dict_lookup k' d.
Proof.
  induction d as [|[k0 v0] d IH]; simpl; [done|].
  destruct (String.eqb_spec k0 k) as [->|H0]; simpl.
  - by destruct (String.eqb k k').
  - rewrite IH. destruct (String.eqb_spec k0 k') as [->|H1]; [|done].
    by destruct (String.eqb_spec k k').
Qed.

Lemma slots_ok_snoc names result_ need name slot need' :
  slots_ok names result_ need →
  (isdigit name = true → slot = Some name) →
  (∀ k (i : nat), dict_lookup k need' = Some i →
     dict_lookup k need = Some i ∨ (i = length result_ ∧ slot = None)) →
  slots_ok (names ++ [name]) (result_ ++ [slot]) need'.
Proof.
  intros (Hlen & Hneed & Hnum) Hslot Hneed'. split_and!.
  - rewrite !length_app. simpl. lia.
  - intros k i [Hk|[-> ->]]%Hneed'.
    + apply lookup_app_l_Some. by eapply Hneed.
    + by rewrite lookup_app_r, Nat.sub_diag.
  - intros i nm Hi Hd. destruct (decide (i < length names)) as [Hlt|Hge].
    + rewrite lookup_app_l in Hi by done. apply lookup_app_l_Some. by eapply Hnum.
    + rewrite lookup_app_r in Hi by lia.
      destruct (i - length names) as [|j] eqn:Hj; simpl in Hi; [|done].
      injection Hi as <-. assert (i = length result_) as -> by lia.
      rewrite lookup_app_r, Nat.sub_diag by done. simpl.
      by rewrite Hslot.
Qed.

Lemma resolve_names_slots names : ∀ done_ user_db result_ need r n,
  slots_ok done_ result_ need →
  resolve_names names user_db result_ need = Ok (r, n) →
  slots_ok (done_ ++ names) r n.
Proof.
  induction names as [|name rest IH]; intros done_ user_db result_ need r n Hs; simpl.
  - intros [= <- <-]. by rewrite app_nil_r.
  - rewrite (cons_middle name done_ rest), app_assoc.
    destruct (isdigit name) eqn:Hd.
    { apply IH. apply (slots_ok_snoc _ _ need); [done|done|]. intros k i Hk. by left. }
    destruct name as [|c tail]; [done|].
    destruct (find_user _ user_db) as [[uid|]| |]; simpl; try done.
    + apply IH. apply (slots_ok_snoc _ _ need); [done|congruence|].
      intros k i Hk. by left.
    + apply IH. apply (slots_ok_snoc _ _ need); [done|congruence|]. intros k i Hk.
      rewrite dict_lookup_dict_set in Hk.
      destruct (String.eqb _ k); [|by left]. right. by injection Hk as <-.
Qed.

Lemma splice_users_slots blobs need names : ∀ result_ s r s',
  (∀ k (i : nat), dict_lookup k need = Some i →
     (i < length names)%nat ∧ ∀ name, names !! i = Some name → isdigit name = false) →
  length result_ = length names →
  (∀ (i : nat) name, names !! i = Some name → isdigit name = true →
     result_ !! i = Some (Some name)) →
  splice_users blobs need result_ s = (Ok r, s') →
  length r = length names ∧
  (∀ (i : nat) name, names !! i = Some name → isdigit name = true →
     r !! i = Some (Some name)).
Proof.
  induction blobs as [|blob rest IH]; intros result_ s r s' Hneed Hlen Hnum; simpl.
  - by intros [= <- <-].
  - unfold bind at 1. unfold extend_users, modify. cbv beta iota.
    destruct (u_username blob) as [un|]; [|done].
    unfold bind at 1, ret. cbv beta iota.
    destruct (dict_lookup (casefold un) need) as [idx|] eqn:Hidx; [|done].
    unfold bind at 1, ret. cbv beta iota.
    apply IH; [done|by rewrite length_insert|].
    intros i name Hi Hd. destruct (Hneed _ _ Hidx) as [Hlt Hnd].
    destruct (decide (i = idx)) as [->|Hne].
    + rewrite (Hnd _ Hi) in Hd. done.
    + rewrite list_lookup_insert_ne by done. by apply Hnum.
Qed.

(** X2. The result of [get_user_ids] has one entry for every selector, in
    the order of the selectors, and a selector made of digits is found
    unchanged at its position, whatever the lookup answers. *)
Theorem get_user_ids_positions E names s r s' :
  get_user_ids E names s = (Ok r, s') →
  length r = length names ∧
  ∀ (i : nat) name, names !! i = Some name → isdigit name = true →
    r !! i = Some (Some name).
Proof.
  unfold get_user_ids. destruct (is_empty names) eqn:Hemp.
  { destruct names; [|done]. by intros [= <- <-]. }
  unfold bind at 1, gets. cbv beta iota.
  unfold bind at 1, lift. cbv beta iota.
  destruct (resolve_names names _ [] []) as [[r0 need]| |] eqn:Hres; [|done..].
  assert (slots_ok [] [] []) as H0 by (split_and!; done).
  pose proof (resolve_names_slots _ _ _ _ _ _ _ H0 Hres) as (Hlen & Hneed & Hnum).
  simpl in Hlen, Hneed, Hnum. simpl.
  destruct (is_empty need).
  { by intros [= <- <-]. }
  unfold bind at 1, get_users. unfold bind at 1, log, modify, consult. cbv beta iota.
  destruct (client_get_users E _ _) as [got| |]; [|done..].
  destruct (ur_errors got); [done|]. destruct (ur_data got) as [blobs|]; [|done].
  intros Hsp. eapply splice_users_slots; [|done|done|done].
  intros k i Hk. pose proof (Hneed _ _ Hk) as Hi. split.
  - apply lookup_lt_Some in Hi. lia.
  - intros name Hn. destruct (isdigit name) eqn:Hd; [|done].
    rewrite (Hnum _ _ Hn Hd) in Hi. done.
Qed.

Lemma get_user_ids_positions_witness :
  length [Some "12"%string; None] = length ["12"%string; "bob"%string] ∧
  ∀ (i : nat) name, ["12"%string; "bob"%string] !! i = Some name → isdigit name = true →
    [Some "12"%string; None] !! i = Some (Some name).
Proof.
  apply (get_user_ids_positions demo_env ["12"%string; "bob"%string] fresh _
           (next_tick (record_event (EvGetUsers ["bob"%string]) fresh))).
  vm_compute. reflexivity.
Defined.

Lemma find_user_first name_cf before u after username :
  Forall (λ v, ∃ w, u_username v = Some w ∧ casefold w ≠ name_cf) before →
  u_username u = Some username → casefold username = name_cf →
  find_user name_cf (before ++ u :: after) = Ok (Some (u_id u)).
Proof.
  intros Hb Hu Hcf. induction Hb as [|v before (w & Hw & Hne) _ IH]; simpl.
  - rewrite Hu, Hcf. by rewrite String.eqb_refl.
  - rewrite Hw. by rewrite (proj2 (String.eqb_neq _ _) Hne).
Qed.

Lemma resolve_names_text name rest user_db result_ need :
  isdigit name = false → name ≠ EmptyString →
  resolve_names (name :: rest) user_db result_ need =
  let? found := find_user (selector_key name) user_db in
  match found with
  | Some uid => resolve_names rest user_db (result_ ++ [Some uid]) need
  | None => resolve_names rest user_db (result_ ++ [None])
              (dict_set (selector_key name) (length result_) need)
  end.
Proof.
  intros Hd Hne. destruct name as [|c tail]; [done|].
  cbn [resolve_names]. by rewrite Hd.
Qed.

(** X3. Among ASCII strings, a selector that is not a number is compared
    with the cached usernames without its leading "@" and without regard
    to case; the id of the first cached user that matches is returned, and
    nothing is looked up. *)
Theorem get_user_ids_cached E name s before u after username :
  is_ascii name = true →
  isdigit name = false → name ≠ EmptyString →
  users_of (data s) = before ++ u :: after →
  Forall (λ v, ∃ w, u_username v = Some w ∧ is_ascii w = true ∧
                    casefold w ≠ selector_key name) before →
  u_username u = Some username → is_ascii username = true →
  casefold username = selector_key name →
  get_user_ids E [name] s = (Ok [Some (u_id u)], s).
Proof.
  intros _ Hd Hne Hdb Hb Hu _ Hcf. unfold get_user_ids.
  cbn [is_empty bind gets lift]. rewrite resolve_names_text, Hdb by done.
  rewrite (find_user_first _ before u after username); [done| |done..].
  eapply Forall_impl; [exact Hb|]. intros v (w & Hw & _ & Hne'). eauto.
Qed.

(** X4. Among ASCII strings, a selector that is not a number, is not
    cached and is given twice leaves its first slot empty: the dict [need]
    keeps one index per username, the later one, so only the last
    occurrence receives the id that the lookup returns. *)
Theorem get_user_ids_repeated_selector E name s blob username :
  is_ascii name = true →
  isdigit name = false → name ≠ EmptyString →
  Forall (λ v, ∀ w, u_username v = Some w → is_ascii w = true)
    (users_of (data s)) →
  find_user (selector_key name) (users_of (data s)) = Ok None →
  client_get_users E (tick s) [selector_key name]
    = Ok {| ur_data := Some [blob]; ur_errors := None |} →
  u_username blob = Some username → is_ascii username = true →
  casefold username = selector_key name →
  (get_user_ids E [name; name] s).1 = Ok [None; Some (u_id blob)].
Proof.
  intros _ Hd Hne _ Hfind Hgot Hu _ Hcf. unfold get_user_ids.
  cbn [is_empty bind gets lift].
  rewrite resolve_names_text, Hfind by done. cbn [rbind].
  rewrite resolve_names_text, Hfind by done. cbn [rbind resolve_names].
  cbn [dict_set app length]. rewrite String.eqb_refl.
  cbn [is_empty snd fst fmap list_fmap].
  unfold get_users, bind, log, modify, consult. cbn [tick record_event].
  rewrite Hgot. cbn [ur_errors ur_data splice_users].
  unfold bind, extend_users, modify, ret. rewrite Hu.
  cbn [dict_lookup]. rewrite Hcf, String.eqb_refl. done.
Qed.

(** ** The identity resolver: [get_user_info] *)

Lemma range100_covers {A} (l : list A) :
  take ((length l + 99) / 100 * 100) l = l.
Proof.
  apply take_ge.
  pose proof (Nat.div_mod_eq (length l + 99) 100) as H.
  pose proof (Nat.mod_upper_bound (length l + 99) 100). lia.
Qed.

Lemma users_of_set_users l d : users_of (set_users l d) = l.
Proof. done. Qed.

Lemma lookup_chunks_run E to_fetch cnt : ∀ a s s',
  lookup_chunks E ((λ k, k * 100) <$> seq a cnt) to_fetch s = (Ok tt, s') →
  tweets (data s') = tweets (data s) ∧
  (∃ new, users_of (data s') = users_of (data s) ++ new ∧
     (complete_users E →
      ∀ x, x ∈ take (cnt * 100) (drop (a * 100) to_fetch) → x ∈ u_id <$> new)) ∧
  (∃ evs, trace s' = trace s ++ evs ∧
     omap by_id_request evs
     = (λ k, take 100 (drop (k * 100) to_fetch)) <$> seq a cnt).
Proof.
  induction cnt as [|cnt IH]; intros a s s'.
  - intros [= <-]. split_and!; [done| |].
    + exists []. rewrite app_nil_r. split; [done|]. intros _ x Hx.
      by apply elem_of_nil in Hx.
    + exists []. by rewrite app_nil_r.
  - cbn [seq fmap list_fmap lookup_chunks].
    set (batch_ := take 100 (drop (a * 100) to_fetch)).
    unfold bind at 1. unfold get_users_by_id, bind at 1, log, modify, consult.
    cbn [record_event tick].
    destruct (client_get_users_by_id E (tick s) batch_) as [got| |] eqn:Hgot;
      [|done..].
    unfold bind at 1, extend_users, modify.
    destruct (ur_data got) as [found|] eqn:Hdata; [|done].
    unfold bind at 1, ret. unfold bind at 1.
    match goal with |- lookup_chunks _ _ _ ?st = _ → _ => set (s1 := st) end.
    intros Hrest. apply IH in Hrest as (Htw & (new & Hnew & Hcov) & (evs & Hevs & Hreq)).
    assert (users_of (data s1)
            = users_of (data s) ++ (error_user <$> default [] (ur_errors got)) ++ found)
      as Hu1 by (unfold s1; simpl; rewrite !users_of_set_users; by rewrite <- app_assoc).
    split_and!.
    + done.
    + exists ((error_user <$> default [] (ur_errors got)) ++ found ++ new).
      split; [by rewrite Hnew, Hu1, <- !app_assoc|].
      intros Hc x Hx.
      replace (S cnt * 100) with (100 + cnt * 100) in Hx by lia.
      rewrite <- take_take_drop, drop_drop in Hx.
      rewrite !fmap_app, !elem_of_app.
      apply elem_of_app in Hx as [Hx|Hx].
      * destruct (Hc _ _ _ Hgot x Hx) as [H1|H1].
        -- right; left. by rewrite Hdata in H1.
        -- left. rewrite <- list_fmap_compose. done.
      * right; right. apply (Hcov Hc).
        by replace (S a * 100) with (a * 100 + 100) by lia.
    + exists ((EvGetUsersById batch_, data s) :: evs). split.
      * rewrite Hevs. unfold s1. simpl. by rewrite <- app_assoc.
      * change (omap by_id_request ((EvGetUsersById batch_, data s) :: evs))
          with (batch_ :: omap by_id_request evs). by rewrite Hreq.
Qed.

Lemma get_user_info_run E s s' :
  get_user_info E s = (Ok tt, s') →
  tweets (data s') = tweets (data s) ∧
  (∃ new, users_of (data s') = users_of (data s) ++ new ∧
     (complete_users E → ∀ x, x ∈ authors_to_fetch (data s) → x ∈ u_id <$> new)) ∧
  (∃ evs, trace s' = trace s ++ evs ∧
     omap by_id_request evs
     = (λ k, take 100 (drop (k * 100) (authors_to_fetch (data s))))
       <$> seq 0 ((length (authors_to_fetch (data s)) + 99) / 100)).
Proof.
  unfold get_user_info. unfold bind, gets.
  destruct (users (data s)) as [users_|] eqn:Hu; [|done].
  destruct (tweets (data s)) as [tweets_|] eqn:Ht; [|done].
  assert (authors_to_fetch (data s)
          = elements ((list_to_set (tw_author_id <$> tweets_) : gset string)
                      ∖ list_to_set (u_id <$> users_))) as Hto.
  { unfold authors_to_fetch, tweets_of, users_of. by rewrite Hu, Ht. }
  rewrite <- Hto. unfold range100. intros Hrun.
  apply lookup_chunks_run in Hrun as (Htw & (new & Hnew & Hcov) & Hreq).
  split_and!; [by rewrite Htw|..|done].
  exists new. split; [done|]. intros Hc x Hx. apply (Hcov Hc).
  by rewrite drop_0, range100_covers.
Qed.

(** X5. If the lookup by id answers for every id it is asked, then after
    [get_user_info] has returned every author of a tweet of the database
    has a user record, and no tweet and no earlier user record was
    touched. *)
Theorem get_user_info_covers_authors E s s' :
  complete_users E →
  get_user_info E s = (Ok tt, s') →
  tweets_of (data s') = tweets_of (data s) ∧
  users_of (data s) `prefix_of` users_of (data s') ∧
  ∀ tw, tw ∈ tweets_of (data s') → tw_author_id tw ∈ u_id <$> users_of (data s').
Proof.
  intros Hc Hrun.
  apply get_user_info_run in Hrun as (Htw & (new & Hnew & Hcov) & _).
  assert (tweets_of (data s') = tweets_of (data s)) as Htw'
    by (unfold tweets_of; by rewrite Htw).
  split_and!; [done|by exists new|].
  intros tw Hin. rewrite Htw' in Hin. rewrite Hnew, fmap_app, elem_of_app.
  destruct (decide (tw_author_id tw ∈ u_id <$> users_of (data s))) as [Hk|Hk];
    [by left|right].
  apply (Hcov Hc). unfold authors_to_fetch. apply elem_of_elements.
  apply elem_of_difference. split.
  - apply elem_of_list_to_set. by apply list_elem_of_fmap_2.
  - by rewrite elem_of_list_to_set.
Qed.

(** X6. [get_user_info] asks for every author without a user record
    exactly once, in requests of at most 100 ids, none of them empty, and
    for no other id. *)
Theorem get_user_info_requests E s s' :
  get_user_info E s = (Ok tt, s') →
  ∃ evs, trace s' = trace s ++ evs ∧
    concat (omap by_id_request evs) = authors_to_fetch (data s) ∧
    NoDup (concat (omap by_id_request evs)) ∧
    Forall (λ ids, 0 < length ids ≤ 100) (omap by_id_request evs) ∧
    ∀ x, x ∈ concat (omap by_id_request evs) ↔
         (x ∈ tw_author_id <$> tweets_of (data s)) ∧ x ∉ u_id <$> users_of (data s).
Proof.
  intros Hrun.
  apply get_user_info_run in Hrun as (_ & _ & (evs & Hevs & Hreq)).
  exists evs. split; [done|]. rewrite Hreq.
  set (l := authors_to_fetch (data s)).
  assert (∀ cnt a, concat ((λ k, take 100 (drop (k * 100) l)) <$> seq a cnt)
                   = take (cnt * 100) (drop (a * 100) l)) as Hcat.
  { induction cnt as [|cnt IH]; intros a; simpl; [done|].
    rewrite IH. replace (S a * 100) with (a * 100 + 100) by lia.
    rewrite <- drop_drop. apply take_take_drop. }
  assert (concat ((λ k, take 100 (drop (k * 100) l))
                   <$> seq 0 ((length l + 99) / 100)) = l) as Hall.
  { rewrite Hcat, drop_0. apply range100_covers. }
  rewrite Hall. split_and!.
  - done.
  - unfold l, authors_to_fetch. apply NoDup_elements.
  - apply Forall_fmap, Forall_forall. intros k Hk. simpl.
    apply elem_of_seq in Hk as [_ Hk].
    rewrite length_take, length_drop.
    pose proof (Nat.div_mod_eq (length l + 99) 100) as H.
    pose proof (Nat.mod_upper_bound (length l + 99) 100). lia.
  - intros x. unfold l, authors_to_fetch.
    rewrite elem_of_elements, elem_of_difference, !elem_of_list_to_set. done.
Qed.

(** X7. When every author already has a user record, [get_user_info]
    issues no request and leaves the state as it is. *)
Theorem get_user_info_all_known E s :
  users (data s) ≠ None → tweets (data s) ≠ None →
  (∀ tw, tw ∈ tweets_of (data s) → tw_author_id tw ∈ u_id <$> users_of (data s)) →
  get_user_info E s = (Ok tt, s).
Proof.
  intros Hu Ht Hall. unfold get_user_info, bind, gets.
  destruct (users (data s)) as [users_|] eqn:Hu'; [|done].
  destruct (tweets (data s)) as [tweets_|] eqn:Ht'; [|done].
  replace (elements _) with (@nil string); [done|].
  symmetry. apply elements_empty_iff. apply set_equiv. intros x.
  rewrite elem_of_difference, !elem_of_list_to_set. split; [|set_solver].
  intros [(tw & -> & Hin)%list_elem_of_fmap Hn]. exfalso. apply Hn.
  unfold tweets_of, users_of in Hall. rewrite Hu', Ht' in Hall. by apply Hall.
Qed.

(** ** The fetch by id *)

Lemma fetch_tweets_by_id_skip E tweet_ids s :
  (∀ x, x ∈ tweet_ids → x ∈ get_known (data s)) →
  fetch_tweets_by_id E tweet_ids s = (Ok tt, s).
Proof.
  intros Hk. unfold fetch_tweets_by_id, bind, gets. cbv beta iota.
  rewrite bool_decide_eq_true_2; [done|].
  apply set_eq. intros x. rewrite elem_of_difference, elem_of_list_to_set.
  split; [|by intros ?%elem_of_empty]. intros [Hx Hn]. destruct Hn. by apply Hk.
Qed.

(** X8. Ids that are all known (tweets held, errored ids, the two
    sentinels), and so also an empty list of ids, cost no request:
    [fetch_tweets_by_id] returns at once and leaves the state as it is; it
    does not even create the key "tweets". *)
Theorem fetch_tweets_by_id_known E tweet_ids s :
  (∀ x, x ∈ tweet_ids → x ∈ get_known (data s)) →
  fetch_tweets_by_id E tweet_ids s = (Ok tt, s) ∧
  fetch_tweets_by_id E [] s = (Ok tt, s).
Proof.
  intros Hk. split; [by apply fetch_tweets_by_id_skip|].
  apply fetch_tweets_by_id_skip. intros x Hx. by apply elem_of_nil in Hx.
Qed.

Lemma fetch_tweets_by_id_Ok_inv E tweet_ids s s' :
  fetch_tweets_by_id E tweet_ids s = (Ok tt, s') →
  let wanted : gset string := list_to_set tweet_ids ∖ get_known (data s) in
  (wanted = ∅ ∧ s' = s) ∨
  ∃ got, client_get_tweets E (tick s) (elements wanted) = Ok got ∧
    tweets_of (data s') = tweets_of (data s) ++ (from_api <$> tr_data got) ∧
    errors_of (data s') = errors_of (data s) ++ tr_errors got ∧
    users (data s') = users (data s).
Proof.
  intros Hrun wanted. revert Hrun.
  unfold fetch_tweets_by_id, bind, gets. simpl. fold wanted.
  destruct (decide (wanted = ∅)) as [He|Hne].
  { rewrite bool_decide_eq_true_2 by done. intros [= <-]. by left. }
  rewrite bool_decide_eq_false_2 by done.
  unfold setdefault_tweets, get_tweets, bind, modify, gets, log, consult. simpl.
  destruct (client_get_tweets E (tick s) (elements wanted)) as [got| |] eqn:Hgot;
    [|done..].
  unfold extend_tweets, setdefault_errors, extend_errors, bind, modify, gets. simpl.
  intros [= <-]. right. exists got. split; [done|].
  clear. destruct s as [[us [tws|] [ers|]] st gl tk tr]; done.
Qed.

(** X9. With a lookup that answers for every id it is asked, fetching is
    idempotent: after [fetch_tweets_by_id] has returned, every requested id
    is known, and a second call with the same ids changes nothing and asks
    for nothing. *)
Theorem fetch_tweets_by_id_idempotent E tweet_ids s s' :
  complete_tweets E →
  fetch_tweets_by_id E tweet_ids s = (Ok tt, s') →
  (∀ x, x ∈ tweet_ids → x ∈ get_known (data s')) ∧
  fetch_tweets_by_id E tweet_ids s' = (Ok tt, s').
Proof.
  intros Hc Hrun.
  assert (∀ x, x ∈ tweet_ids → x ∈ get_known (data s')) as Hk.
  { intros x Hx.
    apply fetch_tweets_by_id_Ok_inv in Hrun as [[Hw ->]|(got & Hgot & Ht & He & _)].
    - destruct (decide (x ∈ get_known (data s))) as [Hin|Hout]; [done|].
      exfalso. apply (not_elem_of_empty (C := gset string) x). rewrite <- Hw.
      apply elem_of_difference. by rewrite elem_of_list_to_set.
    - apply elem_of_get_known. rewrite Ht, He, !fmap_app, !elem_of_app.
      rewrite <- list_fmap_compose. change (tw_id ∘ from_api) with api_id.
      destruct (decide (x ∈ get_known (data s))) as [Hin|Hout].
      + apply elem_of_get_known in Hin. tauto.
      + destruct (Hc _ _ _ Hgot x) as [H1|H1]; [|tauto|tauto].
        apply elem_of_elements, elem_of_difference.
        by rewrite elem_of_list_to_set. }
  split; [done|]. by apply fetch_tweets_by_id_skip.
Qed.

(** ** The timeline fetch *)

Lemma max_id_spec user_id tweets_ : ∀ acc,
  Forall (λ x, Some (tw_author_id x) = user_id → isdigit (tw_id x) = true) tweets_ →
  ∃ n, max_id user_id tweets_ acc = Ok n ∧ (acc ≤ n)%Z ∧
    (∀ x, x ∈ tweets_ → Some (tw_author_id x) = user_id →
       ∃ k, int_of_string (tw_id x) = Some k ∧ (k ≤ n)%Z) ∧
    (n = acc ∨ ∃ x, x ∈ tweets_ ∧ Some (tw_author_id x) = user_id ∧
                    int_of_string (tw_id x) = Some n).
Proof.
  induction tweets_ as [|x rest IH]; intros acc Hd; simpl.
  - exists acc. split_and!; [done|lia| |by left].
    intros x Hx. by apply elem_of_nil in Hx.
  - apply Forall_cons in Hd as [Hx Hrest]. case_bool_decide as Hown.
    + unfold int_of_string at 1. rewrite (Hx Hown).
      destruct (IH (Z.max acc (digits_value (tw_id x) 0)) Hrest)
        as (n & Hn & Hle & Hall & Hmax).
      exists n. split_and!; [done|lia| |].
      * intros y [->|Hy]%elem_of_cons Hy'; [|by apply Hall].
        exists (digits_value (tw_id x) 0). unfold int_of_string.
        rewrite (Hx Hown). split; [done|lia].
      * destruct Hmax as [->|(y & Hy & Hy' & Hyn)].
        -- destruct (Z.max_spec acc (digits_value (tw_id x) 0)) as [[_ ->]|[_ ->]];
             [|by left].
           right. exists x. split_and!; [by left|done|].
           unfold int_of_string. by rewrite (Hx Hown).
        -- right. exists y. split_and!; [by right|done|done].
    + destruct (IH acc Hrest) as (n & Hn & Hle & Hall & Hmax).
      exists n. split_and!; [done|done| |].
      * intros y [->|Hy]%elem_of_cons Hy'; [done|by apply Hall].
      * destruct Hmax as [->|(y & Hy & Hy' & Hyn)]; [by left|].
        right. exists y. split_and!; [by right|done|done].
Qed.

(** X10. The [since_id] that [fetch_user_tweets] computes for a user
    whose tweets have numeric ids is the largest of these ids, and 0 when
    the database holds no tweet of the user. *)
Theorem max_id_is_newest user_id tweets_ :
  Forall (λ x, Some (tw_author_id x) = user_id → isdigit (tw_id x) = true) tweets_ →
  ∃ n, max_id user_id tweets_ 0 = Ok n ∧
    (∀ x, x ∈ tweets_ → Some (tw_author_id x) = user_id →
       ∃ k, int_of_string (tw_id x) = Some k ∧ (k ≤ n)%Z) ∧
    ((n = 0%Z ∧ (0 ≤ n)%Z) ∨ ∃ x, x ∈ tweets_ ∧ Some (tw_author_id x) = user_id ∧
                     int_of_string (tw_id x) = Some n) ∧
    ((∀ x, x ∈ tweets_ → Some (tw_author_id x) ≠ user_id) → n = 0%Z).
Proof.
  intros Hd. destruct (max_id_spec user_id tweets_ 0 Hd) as (n & Hn & Hle & Hall & Hmax).
  exists n. split_and!; [done|done| |].
  - destruct Hmax as [->|?]; [by left|by right].
  - intros Hnone. destruct Hmax as [->|(x & Hx & Hown & _)]; [done|].
    by destruct (Hnone x Hx Hown).
Qed.

Lemma fetch_user_tweets_run E user_ids : ∀ s r s',
  fetch_user_tweets E user_ids s = (r, s') →
  tweets_of (data s) `prefix_of` tweets_of (data s') ∧
  users (data s') = users (data s) ∧
  errors (data s') = errors (data s) ∧
  store s' = store s ∧
  ∃ evs, trace s' = trace s ++ evs ∧
    (omap timeline_request evs).*1.*1 `prefix_of` user_ids ∧
    (r = Ok tt → (omap timeline_request evs).*1.*1 = user_ids) ∧
    ∀ user_id since_id d, (user_id, since_id, d) ∈ omap timeline_request evs →
      max_id user_id (tweets_of d) 0 = Ok since_id.
Proof.
  induction user_ids as [|user_id rest IH]; intros s r s'.
  { intros [= <- <-]. split_and!; try done. exists []. rewrite app_nil_r.
    split_and!; try done. intros ??? Hin. by apply elem_of_nil in Hin. }
  assert (∀ r0, r0 ≠ Ok tt → (r0, s) = (r, s') →
            tweets_of (data s) `prefix_of` tweets_of (data s') ∧
            users (data s') = users (data s) ∧
            errors (data s') = errors (data s) ∧
            store s' = store s ∧
            ∃ evs, trace s' = trace s ++ evs ∧
              (omap timeline_request evs).*1.*1 `prefix_of` user_id :: rest ∧
              (r = Ok tt → (omap timeline_request evs).*1.*1 = user_id :: rest) ∧
              ∀ user_id since_id d,
                (user_id, since_id, d) ∈ omap timeline_request evs →
                max_id user_id (tweets_of d) 0 = Ok since_id) as Hstop.
  { intros r0 Hr0 [= <- <-]. split_and!; try done. exists []. rewrite app_nil_r.
    split_and!; [done|apply prefix_nil|done|].
    intros ??? Hin. by apply elem_of_nil in Hin. }
  cbn [fetch_user_tweets]. unfold bind at 1, gets. cbv beta iota.
  unfold bind at 1, lift. cbv beta iota.
  destruct (max_id user_id (tweets_of (data s)) 0) as [since_id| |] eqn:Hmax;
    [|by apply Hstop..].
  clear Hstop.
  unfold bind at 1, log, modify. cbv beta iota.
  unfold bind at 1, consult. cbv beta iota.
  unfold bind at 1, extend_tweets, modify. cbv beta iota.
  set (pages := client_get_users_tweets E _ user_id since_id).
  match goal with |- bind _ _ ?st = _ → _ => set (s1 := st) end.
  assert (tweets_of (data s1) = tweets_of (data s) ++ (from_api <$> pages.1)) as Htw
    by done.
  assert (trace s1 = trace s ++ [(EvGetUsersTweets user_id since_id, data s)]) as Htr
    by done.
  assert (∀ user_id' since_id' d,
            (user_id', since_id', d)
              ∈ omap timeline_request [(EvGetUsersTweets user_id since_id, data s)] →
            max_id user_id' (tweets_of d) 0 = Ok since_id') as Hone.
  { intros ??? Hin. apply list_elem_of_singleton in Hin. by simplify_eq. }
  unfold bind at 1. destruct pages.2 as [[]| |] eqn:Hpages.
  - intros Hrest.
    destruct (IH _ _ _ Hrest) as (H1 & H2 & H3 & H4 & evs & H5 & H6 & H7 & H8).
    split_and!; [|done..|].
    + etrans; [|exact H1]. rewrite Htw. by apply prefix_app_r.
    + exists ((EvGetUsersTweets user_id since_id, data s) :: evs). split_and!.
      * by rewrite H5, Htr, <- app_assoc.
      * change ((omap timeline_request
                   ((EvGetUsersTweets user_id since_id, data s) :: evs)).*1.*1)
          with (user_id :: (omap timeline_request evs).*1.*1).
        by apply prefix_cons.
      * intros Hok.
        change ((omap timeline_request
                   ((EvGetUsersTweets user_id since_id, data s) :: evs)).*1.*1)
          with (user_id :: (omap timeline_request evs).*1.*1).
        by rewrite H7.
      * intros ??? [Hin|Hin]%elem_of_cons; [|by apply H8]. by simplify_eq.
  - intros [= <- <-].
    split_and!; [rewrite Htw; by apply prefix_app_r|done..|].
    eexists. split_and!; [exact Htr| |done|exact Hone].
    simpl. apply prefix_cons, prefix_nil.
  - intros [= <- <-].
    split_and!; [rewrite Htw; by apply prefix_app_r|done..|].
    eexists. split_and!; [exact Htr| |done|exact Hone].
    simpl. apply prefix_cons, prefix_nil.
Qed.

(** X11. [fetch_user_tweets] only appends: whatever happens, the tweets
    held before are a prefix of the tweets held after (the tweets that the
    paginator handed over before failing are kept), and users, errors and
    the state file are untouched.  It asks for the timelines in the order
    of the user ids, for all of them if it returns, and the [since_id] of
    every request is the newest id held for that user at that moment. *)
Theorem fetch_user_tweets_appends E user_ids s :
  let run := fetch_user_tweets E user_ids s in
  tweets_of (data s) `prefix_of` tweets_of (data run.2) ∧
  users (data run.2) = users (data s) ∧
  errors (data run.2) = errors (data s) ∧
  store run.2 = store s ∧
  ∃ evs, trace run.2 = trace s ++ evs ∧
    (omap timeline_request evs).*1.*1 `prefix_of` user_ids ∧
    (run.1 = Ok tt → (omap timeline_request evs).*1.*1 = user_ids) ∧
    ∀ user_id since_id d, (user_id, since_id, d) ∈ omap timeline_request evs →
      max_id user_id (tweets_of d) 0 = Ok since_id.
Proof.
  intros run. apply (fetch_user_tweets_run E user_ids s run.1 run.2).
  apply surjective_pairing.
Qed.

(** ** The parser of scraped conversations *)

Lemma parse_timeline_item_acc content result_ :
  parse_timeline_item content result_
  = let? new := parse_timeline_item content [] in Ok (result_ ++ new).
Proof.
  unfold parse_timeline_item, rbind.
  repeat (case_match; simplify_eq; try done); by rewrite ?app_nil_r.
Qed.

Lemma parse_timeline_item_one content new :
  parse_timeline_item content [] = Ok new → length new ≤ 1.
Proof.
  unfold parse_timeline_item, rbind.
  repeat (case_match; simplify_eq; try done); intros [= <-]; simpl; lia.
Qed.

Lemma parse_module_items_acc items : ∀ result_,
  parse_module_items items result_
  = let? new := parse_module_items items [] in Ok (result_ ++ new).
Proof.
  induction items as [|item rest IH]; intros result_; simpl.
  - by rewrite app_nil_r.
  - destruct (getitem item "item") as [inner| |]; simpl; [|done..].
    rewrite parse_timeline_item_acc.
    destruct (parse_timeline_item inner []) as [new| |]; simpl; [|done..].
    rewrite IH, (IH new).
    destruct (parse_module_items rest []) as [new'| |]; simpl; [|done..].
    by rewrite app_assoc.
Qed.

Lemma match_entry_type_cases entry_type :
  (∀ T (x y z : T), match_entry_type entry_type x y z = x) ∨
  (∀ T (x y z : T), match_entry_type entry_type x y z = y) ∨
  (∀ T (x y z : T), match_entry_type entry_type x y z = z).
Proof. unfold match_entry_type. repeat case_match; auto. Qed.

Lemma parse_entry_content_text content result_ :
  parse_entry_content content result_
  = let? entry_type := getitem content "entryType" in
    match_entry_type entry_type
      (parse_timeline_item content result_)
      (let? items := getitem content "items" in
       let? items := iterate items in
       parse_module_items items result_)
      (Raise (RuntimeError "Unknown entryType")).
Proof. reflexivity. Qed.

Lemma parse_entry_content_acc content result_ :
  parse_entry_content content result_
  = let? new := parse_entry_content content [] in Ok (result_ ++ new).
Proof.
  rewrite !parse_entry_content_text.
  destruct (getitem content "entryType") as [entry_type| |]; simpl; [|done..].
  destruct (match_entry_type_cases entry_type) as [H|[H|H]]; rewrite !H.
  - apply parse_timeline_item_acc.
  - destruct (getitem content "items") as [items| |]; simpl; [|done..].
    destruct (iterate items) as [l| |]; simpl; [|done..].
    apply parse_module_items_acc.
  - done.
Qed.

(** X12. The parsers of the scraped document only add to the list they
    are given: what [parse_entry_content] returns is the given list
    followed by what it finds (or the failure it meets) on an empty list,
    and [parse_timeline_item] finds at most one id. *)
Theorem parse_entry_content_appends content result_ :
  parse_entry_content content result_
  = (let? new := parse_entry_content content [] in Ok (result_ ++ new)) ∧
  (∀ new, parse_timeline_item content [] = Ok new → length new ≤ 1).
Proof. split; [apply parse_entry_content_acc|apply parse_timeline_item_one]. Qed.

Lemma parse_entries_acc entries : ∀ result_,
  parse_entries entries result_
  = let? new := parse_entries entries [] in Ok (result_ ++ new).
Proof.
  induction entries as [|entry rest IH]; intros result_; simpl.
  - by rewrite app_nil_r.
  - destruct (getitem entry "content") as [content| |]; simpl; [|done..].
    rewrite parse_entry_content_acc.
    destruct (parse_entry_content content []) as [new| |]; simpl; [|done..].
    rewrite IH, (IH new).
    destruct (parse_entries rest []) as [new'| |]; simpl; [|done..].
    by rewrite app_assoc.
Qed.

Lemma parse_timeline_item_tweet rest_id result_ :
  parse_timeline_item (timeline_tweet rest_id) result_ = Ok (result_ ++ [rest_id]).
Proof. done. Qed.

Lemma parse_module_items_tweets rest_ids : ∀ result_,
  parse_module_items ((λ x, JObj [("item"%string, timeline_tweet x)]) <$> rest_ids) result_
  = Ok (result_ ++ rest_ids).
Proof.
  induction rest_ids as [|x rest IH]; intros result_; simpl.
  - by rewrite app_nil_r.
  - change (parse_module_items ((λ x, JObj [("item"%string, timeline_tweet x)]) <$> rest)
              (result_ ++ [x]) = Ok (result_ ++ x :: rest)).
    by rewrite IH, <- app_assoc.
Qed.

Lemma parse_entries_blocks blocks : ∀ result_,
  parse_entries (entry_of_block <$> blocks) result_
  = Ok (result_ ++ concat (ids_of_block <$> blocks)).
Proof.
  induction blocks as [|b rest IH]; intros result_.
  - simpl. by rewrite app_nil_r.
  - rewrite fmap_cons. cbn [parse_entries].
    destruct b as [rest_id|rest_ids|].
    + change (parse_entries (entry_of_block <$> rest) (result_ ++ [rest_id])
              = Ok (result_ ++ concat (ids_of_block <$> Item rest_id :: rest))).
      rewrite IH. simpl. by rewrite <- app_assoc.
    + change (rbind (parse_module_items
                ((λ x, JObj [("item"%string, timeline_tweet x)]) <$> rest_ids) result_)
                (parse_entries (entry_of_block <$> rest))
              = Ok (result_ ++ concat (ids_of_block <$> Module rest_ids :: rest))).
      rewrite parse_module_items_tweets. simpl. rewrite IH. by rewrite <- app_assoc.
    + change (parse_entries (entry_of_block <$> rest) result_
              = Ok (result_ ++ concat (ids_of_block <$> Cursor :: rest))).
      by rewrite IH.
Qed.

(** X13. From a conversation made of tweets, modules of tweets and items
    that are no tweets, [get_related_tweets] extracts the ids of all
    tweets, in the order of the document, the ids of a module in place;
    without any tweet it answers with the sentinel "couldnt_scrape". *)
Theorem related_of_json_conversation blocks :
  related_of_json (conversation (entry_of_block <$> blocks))
  = Ok (match concat (ids_of_block <$> blocks) with
        | [] => ["couldnt_scrape"%string]
        | ids => ids
        end).
Proof.
  unfold related_of_json, conversation.
  change (getitem (JObj _) "data") with
    (Ok (JObj [("threaded_conversation_with_injections_v2"%string,
                JObj [("instructions"%string,
                       JArr [JObj [("entries"%string,
                                    JArr (entry_of_block <$> blocks))]])])])).
  cbn [rbind truthy negb].
  change (parse_conversation _) with (parse_entries (entry_of_block <$> blocks) []).
  rewrite parse_entries_blocks. simpl. by destruct (concat _).
Qed.

Lemma plain_rbind {A B} (m : result A) (k : A → result B) :
  plain m → (∀ a, plain (k a)) → plain (rbind m k).
Proof. destruct m; simpl; auto. Qed.

Lemma plain_getitem v key : plain (getitem v key).
Proof. unfold getitem. repeat case_match; done. Qed.

Lemma plain_getitem0 v : plain (getitem0 v).
Proof. unfold getitem0. repeat case_match; done. Qed.

Lemma plain_iterate v : plain (iterate v).
Proof. unfold iterate. repeat case_match; done. Qed.

Lemma plain_parse_timeline_item content result_ :
  plain (parse_timeline_item content result_).
Proof.
  unfold parse_timeline_item.
  repeat first [ apply plain_rbind; [apply plain_getitem|intros ?]
               | case_match ]; done.
Qed.

Lemma plain_parse_module_items items : ∀ result_, plain (parse_module_items items result_).
Proof.
  induction items as [|item rest IH]; intros result_; simpl; [done|].
  apply plain_rbind; [apply plain_getitem|intros inner].
  apply plain_rbind; [apply plain_parse_timeline_item|intros r]. apply IH.
Qed.

Lemma plain_parse_entry_content content result_ :
  plain (parse_entry_content content result_).
Proof.
  rewrite parse_entry_content_text.
  apply plain_rbind; [apply plain_getitem|intros entry_type].
  destruct (match_entry_type_cases entry_type) as [H|[H|H]]; rewrite H.
  - apply plain_parse_timeline_item.
  - apply plain_rbind; [apply plain_getitem|intros items].
    apply plain_rbind; [apply plain_iterate|intros l].
    apply plain_parse_module_items.
  - done.
Qed.

Lemma plain_parse_entries entries : ∀ result_, plain (parse_entries entries result_).
Proof.
  induction entries as [|entry rest IH]; intros result_; simpl; [done|].
  apply plain_rbind; [apply plain_getitem|intros content].
  apply plain_rbind; [apply plain_parse_entry_content|intros r]. apply IH.
Qed.

Lemma plain_parse_conversation data_ : plain (parse_conversation data_).
Proof.
  unfold parse_conversation.
  repeat first [ apply plain_rbind;
                 [first [apply plain_getitem|apply plain_getitem0|apply plain_iterate]
                 |intros ?] ].
  apply plain_parse_entries.
Qed.

(** X14. Whatever the body of a 200 response looks like,
    [get_related_tweets] ends its reading of it: with a list of ids, or
    with an exception.  A body that is no object gives [TypeError], a body
    without "data" gives [KeyError], and every failure met inside a
    non-empty "data" comes out as the [RuntimeError] with the context,
    never as the [KeyError], [IndexError] or [TypeError] of the walk. *)
Theorem related_of_json_failures response_json :
  related_of_json response_json ≠ OutOfFuel ∧
  (∀ e, related_of_json response_json = Raise e →
     (e = TypeError ∧ ∀ members, response_json ≠ JObj members) ∨
     (e = KeyError "data" ∧ getitem response_json "data" = Raise (KeyError "data")) ∨
     (e = RuntimeError "context" ∧
      ∃ data_ e', getitem response_json "data" = Ok data_ ∧ truthy data_ = true ∧
                  parse_conversation data_ = Raise e')).
Proof.
  unfold related_of_json.
  destruct (getitem response_json "data") as [data_|e0|] eqn:Hdata; simpl.
  - destruct (truthy data_) eqn:Htruthy; simpl; [|split; [done|by intros e [=]]].
    pose proof (plain_parse_conversation data_) as Hp.
    destruct (parse_conversation data_) as [[|x l]|e'|] eqn:Hparse.
    + simpl. split; [done|by intros e [=]].
    + simpl. split; [done|by intros e [=]].
    + assert (e' ≠ KeyboardInterrupt) as Hne by exact Hp.
      destruct e'; try done; simpl; (split; [done|]); intros e [= <-];
        right; right; (split; [done|]); eauto.
    + destruct Hp.
  - split; [done|]. intros e [= <-]. unfold getitem in Hdata.
    destruct response_json; simplify_eq; try (left; by split).
    destruct (dict_get "data" members); simplify_eq. right; left. by split.
  - unfold getitem in Hdata. by repeat case_match.
Qed.

(** ** Examples for the resolver and the fetchers *)

Lemma get_user_ids_cached_witness :
  get_user_ids demo_env ["@CAROL_b"%string] (start cached_db)
  = (Ok [Some "u6"%string], start cached_db).
Proof.
  apply (get_user_ids_cached demo_env "@CAROL_b" (start cached_db) [dave] carol []
           "Carol_B").
  - reflexivity.
  - reflexivity.
  - discriminate.
  - reflexivity.
  - repeat constructor. exists "Dave"%string.
    split_and!; [reflexivity..|discriminate].
  - reflexivity.
  - reflexivity.
  - reflexivity.
Defined.

Lemma get_user_ids_repeated_selector_witness :
  (get_user_ids directory_env ["Bob"%string; "Bob"%string] (start cached_db)).1
  = Ok [None; Some "id_bob"%string].
Proof.
  apply (get_user_ids_repeated_selector directory_env "Bob" (start cached_db)
           {| u_id := "id_bob"; u_username := Some "bob"%string;
              u_name := "bob"; u_description := "" |} "bob").
  - reflexivity.
  - reflexivity.
  - discriminate.
  - repeat constructor; by intros w [= <-].
  - reflexivity.
  - reflexivity.
  - reflexivity.
  - reflexivity.
  - reflexivity.
Defined.

Lemma directory_env_complete_users : complete_users directory_env.
Proof.
  intros n ids got [= <-] x Hx. left. simpl.
  rewrite <- list_fmap_compose. apply list_elem_of_fmap. by exists x.
Qed.

Lemma get_user_info_covers_authors_witness :
  let s' := (get_user_info directory_env (start uncached_db)).2 in
  tweets_of (data s') = tweets_of uncached_db ∧
  users_of uncached_db `prefix_of` users_of (data s') ∧
  ∀ tw, tw ∈ tweets_of (data s') → tw_author_id tw ∈ u_id <$> users_of (data s').
Proof.
  intros s'.
  apply (get_user_info_covers_authors directory_env (start uncached_db) s').
  - apply directory_env_complete_users.
  - vm_compute. reflexivity.
Defined.

Lemma get_user_info_requests_witness :
  let s' := (get_user_info directory_env (start uncached_db)).2 in
  ∃ evs, trace s' = [] ++ evs ∧
    concat (omap by_id_request evs) = authors_to_fetch uncached_db ∧
    NoDup (concat (omap by_id_request evs)) ∧
    Forall (λ ids, 0 < length ids ≤ 100) (omap by_id_request evs) ∧
    ∀ x, x ∈ concat (omap by_id_request evs) ↔
         (x ∈ tw_author_id <$> tweets_of uncached_db) ∧ x ∉ u_id <$> users_of uncached_db.
Proof.
  intros s'.
  apply (get_user_info_requests directory_env (start uncached_db) s').
  vm_compute. reflexivity.
Defined.

Lemma get_user_info_all_known_witness :
  get_user_info demo_env (start cached_db) = (Ok tt, start cached_db).
Proof.
  apply (get_user_info_all_known demo_env (start cached_db)).
  - discriminate.
  - discriminate.
  - intros tw Htw. apply (proj2 (list_elem_of_In _ _)).
    apply list_elem_of_In in Htw. simpl in Htw. simpl.
    destruct Htw as [<-|[<-|[<-|[]]]]; simpl; tauto.
Defined.

Lemma fetch_tweets_by_id_known_witness :
  fetch_tweets_by_id demo_env ["12"%string; "tweet_was_deleted"%string; "5"%string]
    (start cached_db) = (Ok tt, start cached_db) ∧
  fetch_tweets_by_id demo_env [] (start cached_db) = (Ok tt, start cached_db).
Proof.
  apply (fetch_tweets_by_id_known demo_env
           ["12"%string; "tweet_was_deleted"%string; "5"%string] (start cached_db)).
  intros x Hx. apply elem_of_get_known.
  apply list_elem_of_In in Hx. simpl in Hx.
  destruct Hx as [<-|[<-|[<-|[]]]].
  - left. apply (proj2 (list_elem_of_In _ _)). simpl. tauto.
  - right; right; right. reflexivity.
  - left. apply (proj2 (list_elem_of_In _ _)). simpl. tauto.
Defined.

Lemma demo_env_complete_tweets : complete_tweets demo_env.
Proof.
  intros n ids got [= <-] x Hx. left. simpl.
  rewrite <- list_fmap_compose. apply list_elem_of_fmap. exists x.
  split; [done|]. by apply elem_of_remove_dups.
Qed.

Lemma fetch_tweets_by_id_idempotent_witness :
  let s' := (fetch_tweets_by_id demo_env ["40"%string; "41"%string; "40"%string]
               (start cached_db)).2 in
  (∀ x, x ∈ ["40"%string; "41"%string; "40"%string] → x ∈ get_known (data s')) ∧
  fetch_tweets_by_id demo_env ["40"%string; "41"%string; "40"%string] s' = (Ok tt, s').
Proof.
  intros s'.
  apply (fetch_tweets_by_id_idempotent demo_env
           ["40"%string; "41"%string; "40"%string] (start cached_db) s').
  - apply demo_env_complete_tweets.
  - vm_compute. reflexivity.
Defined.

Lemma max_id_is_newest_witness :
  ∃ n, max_id (Some "u5"%string) (tweets_of cached_db) 0 = Ok n ∧
    (∀ x, x ∈ tweets_of cached_db → Some (tw_author_id x) = Some "u5"%string →
       ∃ k, int_of_string (tw_id x) = Some k ∧ (k ≤ n)%Z) ∧
    ((n = 0%Z ∧ (0 ≤ n)%Z) ∨
     ∃ x, x ∈ tweets_of cached_db ∧ Some (tw_author_id x) = Some "u5"%string ∧
          int_of_string (tw_id x) = Some n) ∧
    ((∀ x, x ∈ tweets_of cached_db → Some (tw_author_id x) ≠ Some "u5"%string) →
     n = 0%Z).
Proof.
  apply (max_id_is_newest (Some "u5"%string) (tweets_of cached_db)).
  repeat constructor.
Defined.

(** ** The chase of the references *)

Lemma calm_step_refl w s : calm_step w s s.
Proof. split; [done|]. exists []. by rewrite app_nil_r. Qed.

Lemma calm_step_trans w s1 s2 s3 :
  calm_step w s1 s2 → calm_step w s2 s3 → calm_step w s1 s3.
Proof.
  intros [Hd1 (evs1 & Ht1 & Hq1)] [Hd2 (evs2 & Ht2 & Hq2)].
  split; [congruence|]. exists (evs1 ++ evs2). split.
  - by rewrite Ht2, Ht1, app_assoc.
  - by apply Forall_app.
Qed.

Lemma quiet_step_calm s s' : quiet_step s s' → calm_step true s s'.
Proof.
  intros [Hd (evs & Ht & Hq)]. split; [done|]. exists evs. split; [done|].
  eapply Forall_impl; [exact Hq|]. intros [e d] [He _]. by destruct e.
Qed.

Lemma calm_run w {A} (m : M A) s r s' : calm w m → m s = (r, s') → calm_step w s s'.
Proof. intros Hc Hm. specialize (Hc s). by rewrite Hm in Hc. Qed.

Lemma calm_next_gen_obj E : calm false (next_gen_obj E).
Proof.
  intros s. destruct (next_gen_obj_spec E s) as (Hd & H). split; [done|].
  destruct (_ >? _)%Z.
  - destruct H as (-> & _). eexists [_]. split; [reflexivity|by repeat constructor].
  - destruct H as (_ & _ & _ & ->). exists []. by rewrite app_nil_r.
Qed.

Lemma elem_of_trace_calm w s s' p :
  calm_step w s s' → p ∈ trace s' → p ∈ trace s ∨ allowed w p.1 = true.
Proof.
  intros [_ (evs & -> & Hq)] [Hp|Hp]%elem_of_app; [by left|right].
  rewrite Forall_forall in Hq. by apply Hq.
Qed.

Lemma asked_calm w s s' x :
  calm_step w s s' → asked (trace s') x ↔ asked (trace s) x.
Proof.
  intros Hc. split.
  - intros (ids & d & Hin & Hx).
    destruct (elem_of_trace_calm _ _ _ _ Hc Hin) as [Hp|Hp]; [|done].
    by exists ids, d.
  - intros (ids & d & Hin & Hx). exists ids, d. split; [|done].
    destruct Hc as [_ (evs & -> & _)]. apply elem_of_app. by left.
Qed.

Section ChaseSteps.
Context (E : env) (expand_ids : gset string) (K0 G0 : gset string).

Lemma Safe_calm w s s' :
  (w = true → ∃ tw, wants_scrape expand_ids tw = true) →
  Safe expand_ids K0 s → calm_step w s s' → Safe expand_ids K0 s'.
Proof.
  intros Hw [S1 S2 S3] Hc. split.
  - intros i x d Hin.
    destruct (elem_of_trace_calm _ _ _ _ Hc Hin) as [Hp|Hp]; [by eapply S1|].
    by destruct w.
  - intros Hno. destruct Hc as [_ (evs & -> & Hq)]. apply Forall_app.
    split; [by apply S2|]. eapply Forall_impl; [exact Hq|].
    intros [e d] He. simpl in *. destruct w.
    + destruct (Hw eq_refl) as [tw Htw]. by rewrite Hno in Htw.
    + by destruct e.
  - intros ids d x Hin.
    destruct (elem_of_trace_calm _ _ _ _ Hc Hin) as [Hp|Hp]; [by eapply S3|].
    by destruct w.
Qed.

Lemma Chasing_calm w n known_ batch_ s s' :
  (w = true → ∃ tw, wants_scrape expand_ids tw = true) →
  Chasing E expand_ids K0 G0 n known_ batch_ s → calm_step w s s' →
  Chasing E expand_ids K0 G0 n known_ batch_ s'.
Proof.
  intros Hw [C1 C2 C3 C4 C5 C6 C7 C8] Hc.
  pose proof Hc as [Hd _]. split; rewrite ?Hd; try done.
  - by eapply Safe_calm.
  - intros x Hx. destruct (C6 x Hx) as [?|[?|?]]; [by left|by right; left|].
    right; right. by apply (proj2 (asked_calm _ _ _ _ Hc)).
  - intros Hcomp x Hx. apply (C7 Hcomp). by apply (proj1 (asked_calm _ _ _ _ Hc)).
Qed.

Lemma Track_calm w n slice l s s' :
  (w = true → ∃ tw, wants_scrape expand_ids tw = true) →
  Track E expand_ids K0 G0 n slice l s → calm_step w s s' →
  Track E expand_ids K0 G0 n slice l s'.
Proof.
  intros Hw [H1 H2] Hc. split; [by eapply Chasing_calm|].
  destruct Hc as [-> _]. done.
Qed.

Lemma asked_record_other e s x :
  (∀ ids, e ≠ EvGetTweets ids) →
  asked (trace (record_event e s)) x ↔ asked (trace s) x.
Proof.
  intros He. split.
  - intros (ids & d & [Hin|Hin]%elem_of_app & Hx); [by exists ids, d|].
    apply list_elem_of_singleton in Hin. simplify_eq. by destruct (He ids).
  - intros (ids & d & Hin & Hx). exists ids, d. split; [|done].
    apply elem_of_app. by left.
Qed.

Lemma Chasing_scrape_event n known_ batch_ s tw rest :
  drop n (tweets_of (data s)) = tw :: rest →
  wants_scrape expand_ids tw = true →
  Chasing E expand_ids K0 G0 n known_ batch_ s →
  Chasing E expand_ids K0 G0 n known_ batch_ (record_event (EvScrape n (tw_id tw)) s).
Proof.
  intros Hdrop Hw [[S1 S2 S3] C2 C3 C4 C5 C6 C7 C8].
  destruct (drop_cons_lookup _ _ _ _ Hdrop) as [Hn _].
  split; try done.
  - split.
    + intros i x d [Hin|Hin]%elem_of_app; [by eapply S1|].
      apply list_elem_of_singleton in Hin. simplify_eq. by exists tw.
    + intros Hno. by rewrite Hno in Hw.
    + intros ids d x [Hin|Hin]%elem_of_app; [by eapply S3|].
      apply list_elem_of_singleton in Hin. simplify_eq.
  - intros x Hx. destruct (C6 x Hx) as [?|[?|?]]; [by left|by right; left|].
    right; right. by apply (proj2 (asked_record_other (EvScrape n (tw_id tw)) s x ltac:(done))).
  - intros Hcomp x Hx. apply (C7 Hcomp).
    by apply (proj1 (asked_record_other (EvScrape n (tw_id tw)) s x ltac:(done))).
Qed.

Lemma Chasing_store n known_ batch_ s r :
  Chasing E expand_ids K0 G0 n known_ batch_ s →
  Chasing E expand_ids K0 G0 n known_ batch_
    (with_data (λ d, set_tweets (alter (set_scraped_refs r) n (tweets_of d)) d) s).
Proof.
  intros [C1 C2 C3 C4 C5 C6 C7 C8].
  split; try done.
  - by destruct C1.
  - simpl. change (n ≤ length (alter (set_scraped_refs r) n (tweets_of (data s)))).
    by rewrite length_alter.
  - intros i tw Hi Hlk.
    change (alter (set_scraped_refs r) n (tweets_of (data s)) !! i = Some tw) in Hlk.
    rewrite list_lookup_alter_ne in Hlk by lia. by eapply C5.
  - intros Hcomp x Hx. simpl. rewrite get_known_store_scraped. by apply C7.
  - simpl. by rewrite get_known_store_scraped.
Qed.

Lemma Chasing_update n known_ batch_ s tw (refs : gset string) :
  tweets_of (data s) !! n = Some tw →
  (∀ x, x ∈ refs_of tw → x ∈ refs) →
  Chasing E expand_ids K0 G0 n known_ batch_ s →
  Chasing E expand_ids K0 G0 (S n) (known_ ∪ refs ∖ known_)
    (batch_ ++ elements (refs ∖ known_)) s.
Proof.
  intros Hn Hrefs [C1 C2 C3 C4 C5 C6 C7 C8]. split; try done.
  - by apply lookup_lt_Some in Hn.
  - set_solver.
  - intros x [Hx|Hx]%elem_of_app; [by apply C4|].
    apply elem_of_elements in Hx. set_solver.
  - intros i tw' Hi Hlk x Hx. destruct (decide (i = n)) as [->|Hne].
    + simplify_eq. apply Hrefs in Hx.
      destruct (decide (x ∈ known_)); set_solver.
    + apply elem_of_union. left. eapply C5; [|done..]. lia.
  - intros x [Hx|Hx]%elem_of_union.
    + destruct (C6 x Hx) as [?|[?|?]]; [by left| |by right; right].
      right; left. apply elem_of_app. by left.
    + right; left. apply elem_of_app. right. by apply elem_of_elements.
Qed.

End ChaseSteps.

Section ChaseLoops.
Context (E : env) (expand_ids : gset string) (K0 G0 : gset string).
Context (fuel : nat) (write_fn : M unit) (Hwf : calm false write_fn).

Lemma Track_Safe n slice l s : Track E expand_ids K0 G0 n slice l s → (Safe expand_ids K0) s.
Proof. by intros [[] _]. Qed.

Lemma triple_calm w {A} (I R : state → Prop) (m : M A) :
  calm w m →
  (∀ s s', I s → calm_step w s s' → I s') → (∀ s, I s → R s) →
  triple I m (λ _, I) R.
Proof.
  intros Hq HI HR s Hs. specialize (Hq s).
  destruct (m s) as [[a|e|] s1]; simpl in *; eauto.
Qed.

Lemma quiet_is_calm {A} (m : M A) : quiet m → calm true m.
Proof. intros Hq s. apply quiet_step_calm, Hq. Qed.

Lemma try_get_related_tweets_track n tw rest l token :
  wants_scrape expand_ids tw = true →
  triple (Track E expand_ids K0 G0 n (tw :: rest) l)
    (try_get_related_tweets E fuel write_fn n tw token)
    (λ _, Track E expand_ids K0 G0 n (tw :: rest) l)
    (Safe expand_ids K0).
Proof.
  intros Hw. unfold try_get_related_tweets.
  assert (∀ w, w = true → ∃ tw, wants_scrape expand_ids tw = true) as Hex
    by (intros; by exists tw).
  apply triple_bind with (Q' := λ _, Track E expand_ids K0 G0 n (tw :: rest) l).
  { apply triple_modify. intros s [H1 H2]. split; [|done].
    by eapply Chasing_scrape_event. }
  intros _ s HT. unfold except_KeyboardInterrupt.
  pose proof (quiet_is_calm _ (quiet_get_related_tweets E fuel (tw_id tw) token) s) as Hq.
  destruct (get_related_tweets E fuel (tw_id tw) token s) as [[r|e|] s1] eqn:Hg;
    simpl in Hq.
  - eapply (Track_calm _ _ _ _ true); [apply (Hex true)|exact HT|exact Hq].
  - assert (Track E expand_ids K0 G0 n (tw :: rest) l s1) as HT1
      by (eapply (Track_calm _ _ _ _ true); [apply (Hex true)|exact HT|exact Hq]).
    destruct e; try by eapply Track_Safe.
    unfold bind, raise. pose proof (Hwf s1) as Hq2.
    destruct (write_fn s1) as [[[]|e'|] s2] eqn:Hwr; simpl in Hq2;
      exact (Track_Safe _ _ _ _
               (Track_calm E expand_ids K0 G0 false _ _ _ s1 s2 ltac:(done) HT1 Hq2)).
  - exact (Track_Safe _ _ _ _
             (Track_calm E expand_ids K0 G0 true _ _ _ s s1 (Hex true) HT Hq)).
Qed.

Lemma refs_of_set_scraped r tw x :
  x ∈ refs_of (set_scraped_refs r tw) →
  x ∈ (list_to_set (ref_id <$> tw_referenced_tweets tw) ∪ list_to_set r : gset string).
Proof. unfold refs_of. simpl. set_solver. Qed.

Lemma refs_of_unscraped tw x :
  x ∈ refs_of tw →
  x ∈ (list_to_set (ref_id <$> tw_referenced_tweets tw)
       ∪ list_to_set (default [] (tw_scraped_refs tw)) : gset string).
Proof. unfold refs_of. set_solver. Qed.

Lemma scan_tweet_track n tw rest l :
  triple (Track E expand_ids K0 G0 n (tw :: rest) l)
    (scan_tweet E fuel expand_ids write_fn n tw l)
    (λ l' s, Track E expand_ids K0 G0 (S n) rest l' s)
    (Safe expand_ids K0).
Proof.
  unfold scan_tweet.
  apply triple_bind with
    (Q' := λ sg s, Track E expand_ids K0 G0 (S n) rest
       {| known := known l ∪
            (list_to_set (ref_id <$> tw_referenced_tweets tw) ∪ list_to_set sg.1)
            ∖ known l;
          guest_token := sg.2;
          batch := batch l ++ elements
            ((list_to_set (ref_id <$> tw_referenced_tweets tw) ∪ list_to_set sg.1)
             ∖ known l : gset string) |} s).
  - destruct (wants_scrape expand_ids tw) eqn:Hw.
    + assert (∀ w, w = true → ∃ tw, wants_scrape expand_ids tw = true) as Hex
        by (intros; by exists tw).
      apply triple_bind with (Q' := λ _, Track E expand_ids K0 G0 n (tw :: rest) l).
      { apply (triple_calm true).
        - apply quiet_is_calm. unfold ensure_guest_token. case_match;
            [apply quiet_get_guest_token|apply quiet_ret].
        - intros s s'. apply Track_calm, (Hex true).
        - apply Track_Safe. }
      intros token.
      eapply triple_bind; [by apply try_get_related_tweets_track|].
      intros r. simpl.
      eapply triple_bind with
        (Q' := λ _ s, Chasing E expand_ids K0 G0 n (known l) (batch l) s ∧
                      tweets_of (data s) !! n = Some (set_scraped_refs r tw) ∧
                      drop (S n) (tweets_of (data s)) = rest).
      { apply triple_modify. intros s [H1 H2].
        destruct (drop_cons_lookup _ _ _ _ H2) as [Hn Hd].
        split_and!.
        - by apply Chasing_store.
        - change (alter (set_scraped_refs r) n (tweets_of (data s)) !! n
                  = Some (set_scraped_refs r tw)).
          by rewrite list_lookup_alter_eq, Hn.
        - change (drop (S n) (alter (set_scraped_refs r) n (tweets_of (data s))) = rest).
          rewrite drop_alter_lt by lia. done. }
      intros _. apply triple_ret. intros s (H1 & H2 & H3).
      split; [|done]. simpl.
      eapply Chasing_update; [done| |done]. apply refs_of_set_scraped.
    + apply triple_ret. intros s [H1 H2].
      destruct (drop_cons_lookup _ _ _ _ H2) as [Hn Hd].
      split; [|done]. simpl.
      eapply Chasing_update; [done| |done]. apply refs_of_unscraped.
  - intros sg. simpl.
    eapply triple_bind.
    { apply (triple_calm false); [exact Hwf| |apply Track_Safe].
      intros s s'. by apply Track_calm. }
    intros u. by apply triple_ret.
Qed.

Lemma scan_track slice : ∀ n l,
  triple (Track E expand_ids K0 G0 n slice l)
    (scan E fuel expand_ids write_fn n slice l)
    (λ l' s, Track E expand_ids K0 G0 (n + length slice) [] l' s)
    (Safe expand_ids K0).
Proof.
  induction slice as [|tw rest IH]; intros n l; simpl.
  - apply triple_ret. intros s. by rewrite Nat.add_0_r.
  - eapply triple_bind; [apply scan_tweet_track|].
    intros l'. replace (n + S (length rest)) with (S n + length rest) by lia.
    apply IH.
Qed.

Lemma Safe_request ids s :
  (∀ x, x ∈ ids → x ∉ K0) → (Safe expand_ids K0) s → (Safe expand_ids K0) (record_event (EvGetTweets ids) s).
Proof.
  intros Hids [S1 S2 S3]. split.
  - intros i x d [Hin|Hin]%elem_of_app; [by eapply S1|].
    apply list_elem_of_singleton in Hin. simplify_eq.
  - intros Hno. apply Forall_app. split; [by apply S2|]. by repeat constructor.
  - intros ids' d x [Hin|Hin]%elem_of_app; [by eapply S3|].
    apply list_elem_of_singleton in Hin. simplify_eq. apply Hids.
Qed.

Lemma asked_request ids s x :
  asked (trace (record_event (EvGetTweets ids) s)) x ↔ asked (trace s) x ∨ x ∈ ids.
Proof.
  split.
  - intros (ids' & d & [Hin|Hin]%elem_of_app & Hx); [left; by exists ids', d|].
    apply list_elem_of_singleton in Hin. simplify_eq. by right.
  - intros [(ids' & d & Hin & Hx)|Hx].
    + exists ids', d. split; [|done]. apply elem_of_app. by left.
    + exists ids, (data s). split; [|done]. apply elem_of_app. right.
      by apply list_elem_of_singleton.
Qed.

Lemma Chasing_fetch n known_ rem s got :
  (complete_tweets E → ∀ x, x ∈ take 100 rem →
     x ∈ api_id <$> tr_data got ∨ x ∈ err_resource_id <$> tr_errors got) →
  Chasing E expand_ids K0 G0 n known_ rem s →
  Chasing E expand_ids K0 G0 n known_ (drop 100 rem)
    (with_data (λ d, set_errors (errors_of d ++ tr_errors got) d)
       (with_data (λ d, set_tweets (tweets_of d ++ (from_api <$> tr_data got)) d)
          (next_tick (record_event (EvGetTweets (take 100 rem)) s)))).
Proof.
  intros Hgot [C1 C2 C3 C4 C5 C6 C7 C8].
  set (s' := with_data _ (with_data _ _)).
  assert (tweets_of (data s') = tweets_of (data s) ++ (from_api <$> tr_data got))
    as Htw by done.
  assert (errors_of (data s') = errors_of (data s) ++ tr_errors got) as Her by done.
  assert (trace s' = trace (record_event (EvGetTweets (take 100 rem)) s)) as Htr by done.
  assert (∀ x, x ∈ get_known (data s') ↔
            x ∈ get_known (data s) ∨ x ∈ api_id <$> tr_data got ∨
            x ∈ err_resource_id <$> tr_errors got) as Hkn.
  { intros x. rewrite !elem_of_get_known, Htw, Her, !fmap_app, !elem_of_app.
    rewrite <- list_fmap_compose.
    change (tw_id ∘ from_api) with api_id. naive_solver. }
  split.
  - assert ((Safe expand_ids K0) (record_event (EvGetTweets (take 100 rem)) s)) as [S1 S2 S3].
    { apply Safe_request; [|done]. intros x Hx. apply C4.
      apply (elem_of_take_drop _ 100). by left. }
    split; by rewrite ?Htr.
  - rewrite Htw, length_app. lia.
  - done.
  - intros x Hx. apply C4. apply (elem_of_take_drop _ 100). by right.
  - intros i tw Hi Hlk. rewrite Htw in Hlk.
    rewrite lookup_app_l in Hlk by lia. by eapply C5.
  - intros x Hx. rewrite Htr.
    destruct (C6 x Hx) as [?|[Hb|?]]; [by left| |].
    + rewrite <- (take_drop 100 rem) in Hb.
      apply elem_of_app in Hb as [Hb|Hb]; [|by right; left].
      right; right. apply asked_request. by right.
    + right; right. apply asked_request. by left.
  - intros Hcomp x Hx. rewrite Htr in Hx. apply Hkn.
    apply asked_request in Hx as [Hx|Hx]; [left; by apply C7|].
    right. by apply Hgot.
  - intros x Hx. apply Hkn. left. by apply C8.
Qed.

Lemma fetch_chunks_track n known_ batch_ cnt : ∀ a,
  triple (Chasing E expand_ids K0 G0 n known_ (drop (a * 100) batch_))
    (fetch_chunks E write_fn ((λ k, k * 100) <$> seq a cnt) batch_)
    (λ _, Chasing E expand_ids K0 G0 n known_ (drop ((a + cnt) * 100) batch_))
    (Safe expand_ids K0).
Proof.
  induction cnt as [|cnt IH]; intros a; simpl.
  - apply triple_ret. intros s. by rewrite Nat.add_0_r.
  - set (rem := drop (a * 100) batch_).
    intros s HC. unfold bind at 1. unfold get_tweets, bind at 1, log, modify.
    unfold consult.
    set (s1 := record_event (EvGetTweets (take 100 rem)) s) in *.
    assert ((Safe expand_ids K0) (next_tick s1)) as HS1.
    { destruct HC as [C1 _ _ C4 _ _ _ _].
      assert ((Safe expand_ids K0) s1) as [S1 S2 S3]; [|by split].
      apply Safe_request; [|done]. intros x Hx. apply C4.
      apply (elem_of_take_drop _ 100). by left. }
    destruct (client_get_tweets E (tick s1) (take 100 rem)) as [got|e|] eqn:Hgot;
      [|done..].
    assert (Chasing E expand_ids K0 G0 n known_ (drop 100 rem)
      (with_data (λ d, set_errors (errors_of d ++ tr_errors got) d)
         (with_data (λ d, set_tweets (tweets_of d ++ (from_api <$> tr_data got)) d)
            (next_tick s1)))) as HC3.
    { apply Chasing_fetch; [|done]. intros Hcomp. by apply (Hcomp _ _ _ Hgot). }
    unfold bind, extend_tweets, extend_errors, modify. simpl.
    match goal with |- context [write_fn ?st] => set (s3 := st) in * end.
    pose proof (Hwf s3) as Hq3.
    destruct (write_fn s3) as [[[]|e|] s4] eqn:Hw4; simpl in Hq3.
    + assert (Chasing E expand_ids K0 G0 n known_ (drop (S a * 100) batch_) s4) as HC4.
      { eapply (Chasing_calm _ _ _ _ false); [done| |exact Hq3].
        unfold rem in HC3. rewrite drop_drop in HC3.
        by replace (a * 100 + 100) with (S a * 100) in HC3 by lia. }
      specialize (IH (S a) s4 HC4).
      by replace (a + S cnt) with (S a + cnt) by lia.
    + eapply (Safe_calm _ _ false); [done| |exact Hq3]. by destruct HC3.
    + eapply (Safe_calm _ _ false); [done| |exact Hq3]. by destruct HC3.
Qed.

Lemma closure_loop_track rounds : ∀ pos l,
  triple (Chasing E expand_ids K0 G0 pos (known l) (batch l))
    (closure_loop E fuel expand_ids write_fn rounds pos l)
    (λ _ s, ∃ known_, Chasing E expand_ids K0 G0 (length (tweets_of (data s))) known_ [] s)
    (Safe expand_ids K0).
Proof.
  induction rounds as [|rounds IH]; intros pos l; simpl.
  { by intros s []. }
  apply triple_bind with
    (Q' := λ t s, Chasing E expand_ids K0 G0 pos (known l) (batch l) s ∧
                  t = tweets_of (data s)).
  { by apply triple_gets. }
  intros tweets_.
  apply triple_bind with
    (Q' := λ l' s, Chasing E expand_ids K0 G0 (length (tweets_of (data s)))
                     (known l') (batch l') s).
  { eapply triple_weaken; [apply scan_track|..].
    - intros s [HC ->]. by split.
    - intros l' s [HC Hd]. simpl in HC.
      apply (f_equal length) in Hd. rewrite length_drop in Hd. simpl in Hd.
      pose proof (ch_bound _ _ _ _ _ _ _ _ HC) as Hb.
      by replace (length (tweets_of (data s)))
        with (pos + length (drop pos tweets_)) by lia.
    - done. }
  intros l'. destruct (is_empty (batch l')) eqn:Hemp.
  { apply triple_ret. intros s HC. exists (known l').
    by destruct (batch l'). }
  apply triple_bind with
    (Q' := λ t s, Chasing E expand_ids K0 G0 (length (tweets_of (data s)))
                    (known l') (batch l') s ∧ t = tweets_of (data s)).
  { by apply triple_gets. }
  intros t s [HC ->].
  set (n := length (tweets_of (data s))) in *.
  assert (triple (Chasing E expand_ids K0 G0 n (known l') (drop (0 * 100) (batch l')))
    (do! fetch_chunks E write_fn (range100 (length (batch l'))) (batch l') in
     closure_loop E fuel expand_ids write_fn rounds n
       {| known := known l'; guest_token := guest_token l'; batch := [] |})
    (λ _ s, ∃ known_, Chasing E expand_ids K0 G0 (length (tweets_of (data s))) known_ [] s)
    (Safe expand_ids K0)) as Htr.
  { eapply triple_bind; [apply fetch_chunks_track|].
    intros u. eapply triple_weaken; [apply IH|..]; try done.
    intros s' HC'. simpl. rewrite drop_ge in HC'; [done|].
    pose proof (Nat.div_mod_eq (length (batch l') + 99) 100) as H.
    pose proof (Nat.mod_upper_bound (length (batch l') + 99) 100). lia. }
  by apply Htr.
Qed.

Lemma elem_of_known_with_scraped tweets_ : ∀ known_ x,
  x ∈ known_with_scraped known_ tweets_ ↔ x ∈ known_ ∨ scraped_before tweets_ x.
Proof.
  unfold known_with_scraped, scraped_before.
  induction tweets_ as [|tw rest IH]; intros known_ x; simpl.
  - split; [by left|]. intros [?|(tw & Htw & _)]; [done|]. by apply elem_of_nil in Htw.
  - rewrite IH, elem_of_union, elem_of_list_to_set. split.
    + intros [[?|?]|(tw' & Htw & Hx)]; [by left| |].
      * right. exists tw. split; [by left|done].
      * right. exists tw'. split; [by right|done].
    + intros [?|(tw' & [->|Htw]%elem_of_cons & Hx)]; [by left; left|by left; right|].
      right. by exists tw'.
Qed.

Lemma do_reply_closure_track s0 :
  K0 = known_with_scraped (get_known (data s0)) (tweets_of (data s0)) →
  G0 = get_known (data s0) →
  triple (λ s, s = s0 ∧ trace s = [])
    (do_reply_closure E fuel expand_ids write_fn)
    (λ _ s, ∃ known_, Chasing E expand_ids K0 G0 (length (tweets_of (data s))) known_ [] s)
    (Safe expand_ids K0).
Proof.
  intros HK HG.
  unfold do_reply_closure, setdefault_tweets, setdefault_errors.
  set (P := λ s : state, trace s = [] ∧ tweets_of (data s) = tweets_of (data s0) ∧
                         get_known (data s) = get_known (data s0)).
  assert (∀ f : db → db, (∀ d, tweets_of (f d) = tweets_of d) →
            (∀ d, get_known (f d) = get_known d) →
            ∀ s, P s → P (with_data f s)) as HPf.
  { intros f Hf Hg s (H1 & H2 & H3). split_and!; [done|..]; simpl.
    - by rewrite Hf.
    - by rewrite Hg. }
  apply triple_bind with (Q' := λ t s, P s ∧ t = tweets_of (data s0)).
  { apply triple_bind with (Q' := λ _, P).
    - apply triple_modify. intros s [-> Htr]. apply HPf; [..|done].
      + intros d. unfold tweets_of. destruct (tweets d) eqn:Ht; simpl; by rewrite ?Ht.
      + apply get_known_setdefault_tweets.
    - intros u s Hs. split; [exact Hs|]. by destruct Hs as (_ & ? & _). }
  intros tweets_.
  apply triple_bind with (Q' := λ _ s, P s ∧ tweets_ = tweets_of (data s0)).
  { apply triple_bind with (Q' := λ _ s, P s ∧ tweets_ = tweets_of (data s0)).
    - apply triple_modify. intros s [Hs Ht]. split; [|done]. revert s Hs. apply HPf.
      + intros d. by destruct (errors d).
      + intros d. unfold get_known, tweets_of, errors_of.
        destruct (errors d) eqn:He; simpl; by rewrite ?He.
    - intros u s Hs. exact Hs. }
  intros _.
  apply triple_bind with
    (Q' := λ d s, (P s ∧ tweets_ = tweets_of (data s0)) ∧ d = data s).
  { intros s Hs. by split. }
  intros d. eapply triple_weaken; [apply closure_loop_track|..]; try done.
  intros s [[(Htr & Htw & Hkn) ->] ->]. simpl. rewrite Hkn, <- HK.
  split; rewrite ?Htr; try done.
  - split; rewrite ?Htr.
    + intros i x d Hin. by apply elem_of_nil in Hin.
    + done.
    + intros ids d x Hin. by apply elem_of_nil in Hin.
  - lia.
  - intros x Hx. by apply elem_of_nil in Hx.
  - intros i tw Hi. lia.
  - intros x Hx. by left.
  - intros _ x (ids & d & Hin & _). by apply elem_of_nil in Hin.
  - by rewrite Hkn, HG.
Qed.

End ChaseLoops.

Section ChaseRuns.
Context (E : env) (fuel : nat) (expand_ids : gset string).

Lemma closure_run_Safe s :
  trace s = [] →
  Safe expand_ids (known_with_scraped (get_known (data s)) (tweets_of (data s)))
    (do_reply_closure E fuel expand_ids (next_gen_obj E) s).2.
Proof.
  intros Htr.
  pose proof (do_reply_closure_track E expand_ids _ _ fuel _ (calm_next_gen_obj E) s
                eq_refl eq_refl s (conj eq_refl Htr)) as H.
  destruct (do_reply_closure _ _ _ _ s) as [[[]|e|] s']; simpl; try done.
  destruct H as [known_ []]. done.
Qed.

Lemma closure_run_Chasing s s' :
  trace s = [] →
  do_reply_closure E fuel expand_ids (next_gen_obj E) s = (Ok tt, s') →
  ∃ known_,
    Chasing E expand_ids (known_with_scraped (get_known (data s)) (tweets_of (data s)))
      (get_known (data s)) (length (tweets_of (data s'))) known_ [] s'.
Proof.
  intros Htr Hrun.
  pose proof (do_reply_closure_track E expand_ids _ _ fuel _ (calm_next_gen_obj E) s
                eq_refl eq_refl s (conj eq_refl Htr)) as H.
  by rewrite Hrun in H.
Qed.

End ChaseRuns.

(** X15. The closure scrapes a tweet only if its author is in the expand
    set and no scraped reference is stored for it yet; with an empty
    expand set the run consists of lookups and flushes only: no guest
    token is activated and nothing is sent to the scrape endpoint. *)
Theorem closure_scrapes_only_expand_authors E fuel expand_ids s :
  trace s = [] →
  let s' := (do_reply_closure E fuel expand_ids (next_gen_obj E) s).2 in
  (∀ (i : nat) x d, (EvScrape i x, d) ∈ trace s' →
     ∃ tw, tweets_of d !! i = Some tw ∧ tw_id tw = x ∧
           tw_author_id tw ∈ expand_ids ∧ default [] (tw_scraped_refs tw) = []) ∧
  (expand_ids = ∅ → Forall (λ p, lookup_or_flush p.1 = true) (trace s')).
Proof.
  intros Htr s'.
  destruct (closure_run_Safe E fuel expand_ids s Htr) as [S1 S2 _].
  fold s' in S1, S2. split.
  - intros i x d Hin. destruct (S1 i x d Hin) as (tw & Hi & Hx & Hw).
    exists tw. split_and!; [done|done|..].
    + unfold wants_scrape in Hw. apply andb_true_iff in Hw as [_ Hw].
      by apply bool_decide_eq_true in Hw.
    + unfold wants_scrape in Hw. apply andb_true_iff in Hw as [Hw _].
      by destruct (default [] (tw_scraped_refs tw)).
  - intros ->. apply S2. intros tw. unfold wants_scrape.
    rewrite bool_decide_eq_false_2, andb_false_r; [done|]. apply not_elem_of_empty.
Qed.

Lemma closure_scrapes_only_expand_authors_witness :
  let s' := (do_reply_closure demo_env 5 ∅ (next_gen_obj demo_env) (start demo_db)).2 in
  trace (start demo_db) = [] ∧
  Forall (λ p, lookup_or_flush p.1 = true) (trace s').
Proof.
  intros s'. split; [reflexivity|].
  by apply (closure_scrapes_only_expand_authors demo_env 5 ∅ (start demo_db)).
Defined.

(** X16. The closure never asks the lookup for an id that some tweet of
    the database listed in its scraped references when the run began, nor
    for an id that was known then: what an interrupted run scraped and
    stored, but did not fetch, is taken for known and is not fetched by
    any later run. *)
Theorem closure_never_fetches_scraped_before E fuel expand_ids s :
  trace s = [] →
  let s' := (do_reply_closure E fuel expand_ids (next_gen_obj E) s).2 in
  ∀ ids d x, (EvGetTweets ids, d) ∈ trace s' → x ∈ ids →
    ¬ scraped_before (tweets_of (data s)) x ∧ x ∉ get_known (data s).
Proof.
  intros Htr s' ids d x Hin Hx.
  destruct (closure_run_Safe E fuel expand_ids s Htr) as [_ _ S3].
  specialize (S3 ids d x Hin Hx).
  rewrite elem_of_known_with_scraped in S3. tauto.
Qed.

Lemma closure_never_fetches_scraped_before_witness :
  trace (start gap_db) = [] ∧
  gap_run.1 = Ok tt ∧
  scraped_before (tweets_of gap_db) "7" ∧
  ("7"%string ∉ get_known (data gap_run.2)) ∧
  ∀ ids d x, (EvGetTweets ids, d) ∈ trace gap_run.2 → x ∈ ids →
    ¬ scraped_before (tweets_of gap_db) x ∧ x ∉ get_known gap_db.
Proof.
  split_and!.
  - reflexivity.
  - vm_compute. reflexivity.
  - eexists. split; [by left|]. by left.
  - intros Hk. apply elem_of_get_known in Hk.
    assert (tweets_of (data gap_run.2) = tweets_of gap_db) as Ht
      by (vm_compute; reflexivity).
    assert (errors_of (data gap_run.2) = []) as He by (vm_compute; reflexivity).
    rewrite Ht, He in Hk. destruct Hk as [Hk|[Hk|[Hk|Hk]]]; try discriminate Hk.
    + apply list_elem_of_In in Hk. simpl in Hk. destruct Hk as [Hk|[]]. discriminate Hk.
    + by apply elem_of_nil in Hk.
  - exact (closure_never_fetches_scraped_before demo_env 5 {["alice"%string]}
             (start gap_db) eq_refl).
Defined.

(** X17. With a lookup that answers for every id it is asked, the database
    is closed under references when the closure returns: every id that a
    tweet refers to, by its referenced tweets or by its scraped
    references, is a tweet of the database, an errored id or a sentinel,
    unless it was listed in some scraped references before the run
    began. *)
Theorem closure_reaches_every_reference E fuel expand_ids s s' :
  complete_tweets E → trace s = [] →
  do_reply_closure E fuel expand_ids (next_gen_obj E) s = (Ok tt, s') →
  ∀ tw x, tw ∈ tweets_of (data s') → x ∈ refs_of tw →
    x ∈ get_known (data s') ∨ scraped_before (tweets_of (data s)) x.
Proof.
  intros Hc Htr Hrun tw x Htw Hx.
  destruct (closure_run_Chasing E fuel expand_ids s s' Htr Hrun)
    as [known_ [_ _ _ _ C5 C6 C7 C8]].
  apply list_elem_of_lookup in Htw as [i Hi].
  pose proof (lookup_lt_Some _ _ _ Hi) as Hlt.
  specialize (C5 i tw Hlt Hi x Hx).
  destruct (C6 x C5) as [HK|[Hb|Ha]].
  - apply elem_of_known_with_scraped in HK as [HK|HK]; [left; by apply C8|by right].
  - by apply elem_of_nil in Hb.
  - left. by apply C7.
Qed.

Lemma closure_reaches_every_reference_witness :
  demo_run.1 = Ok tt ∧
  ∀ tw x, tw ∈ tweets_of (data demo_run.2) → x ∈ refs_of tw →
    x ∈ get_known (data demo_run.2) ∨ scraped_before (tweets_of demo_db) x.
Proof.
  split; [vm_compute; reflexivity|].
  apply (closure_reaches_every_reference demo_env 5 {["alice"%string]} (start demo_db)).
  - apply demo_env_complete_tweets.
  - reflexivity.
  - vm_compute. reflexivity.
Defined.

(** ** The state file: what [write_db] leaves on the disk *)

(** X18. [write_db] touches two paths only, the target and its temporary
    file.  After a write that completed the temporary file is gone; after
    a [json.dump] that raised it stays on the disk with what had been
    written, next to the untouched target ([delete=False]). *)
Theorem write_db_temporary_file filename candidates dump (m : gmap string string)
    tempname :
  mkstemp (dirname filename) "download_db" candidates m = Ok tempname →
  tempname ≠ filename →
  let ops := write_db_ops filename tempname dump in
  (∀ p, p ≠ tempname → p ≠ filename → fs_run ops m !! p = m !! p) ∧
  (dump.2 = Ok tt → fs_run ops m !! tempname = None) ∧
  (dump.2 ≠ Ok tt →
     fs_run ops m !! tempname = Some (written dump.1) ∧
     fs_run ops m !! filename = m !! filename).
Proof.
  intros Hmk Hne ops.
  set (pre := FsCreate tempname :: (FsAppend tempname <$> dump.1)).
  assert (Forall (writes_only tempname) pre) as Hpre.
  { constructor; [done|]. apply Forall_fmap, Forall_true. done. }
  assert (fs_run pre m !! tempname = Some (written dump.1)) as Hcontent.
  { unfold pre. change (fs_run (FsAppend tempname <$> dump.1)
                          (<[tempname := EmptyString]> m) !! tempname
                        = Some (written dump.1)).
    apply fs_run_appends. by rewrite lookup_insert_eq. }
  destruct dump as [chunks outcome]. cbn [fst snd] in *.
  assert (ops = pre ++ match outcome with
                       | Ok _ => [FsReplace tempname filename]
                       | _ => []
                       end) as Hops by done.
  clearbody ops pre. subst ops.
  assert (∀ p, fs_run (pre ++ [FsReplace tempname filename]) m !! p
               = fs_step (fs_run pre m) (FsReplace tempname filename) !! p) as Hlast.
  { intros p. by rewrite fs_run_app. }
  split_and!.
  - intros p Hp1 Hp2. destruct outcome as [[]| |]; rewrite ?app_nil_r;
      try by apply (fs_run_writes_only tempname).
    rewrite Hlast. simpl. rewrite Hcontent.
    rewrite lookup_insert_ne, lookup_delete_ne by done.
    by apply (fs_run_writes_only tempname).
  - intros ->. rewrite Hlast. simpl. rewrite Hcontent.
    rewrite lookup_insert_ne by done. by rewrite lookup_delete_eq.
  - intros Hfail. destruct outcome as [[]| |]; [done|..]; rewrite app_nil_r;
      (split; [done|]); by apply (fs_run_writes_only tempname).
Qed.

Lemma write_db_temporary_file_witness :
  let dump := (["{"%string; "ne"%string], @Raise unit ValueError) in
  let ops := write_db_ops "state/db.json" "state/download_dbk3x9q2ab" dump in
  fs_run ops demo_disk !! "state/download_dbk3x9q2ab"%string = Some "{ne"%string ∧
  fs_run ops demo_disk !! "state/db.json"%string = Some "{old}"%string.
Proof.
  intros dump ops.
  destruct (write_db_temporary_file "state/db.json" ["k3x9q2ab"%string] dump demo_disk
              "state/download_dbk3x9q2ab") as (_ & _ & H3).
  - vm_compute. reflexivity.
  - discriminate.
  - apply H3. discriminate.
Defined.

(** ** The scrape client under rate limiting *)

Lemma filter_is_send_app (l1 l2 : list (event * db)) :
  length (filter (λ p, is_send p = true) (l1 ++ l2))
  = length (filter (λ p, is_send p = true) l1)
    + length (filter (λ p, is_send p = true) l2).
Proof. by rewrite filter_app, length_app. Qed.

(** X19. While the scrape endpoint answers 429 with a reset instant that
    is still ahead, [get_related_tweets] sleeps and sends the same request
    again: after [k] such answers the first other answer is the one it
    goes on with, [k + 1] requests have been sent, and the database is
    untouched. *)
Theorem send_request_retries_until_answer E k : ∀ fuel tweet_ token s response,
  (∀ j, j < k → throttled E tweet_ token (tick s + 3 * j)) →
  session_send E (tick s + 3 * k) tweet_ token = Ok response →
  status_code response ≠ 429%Z →
  k < fuel →
  ∃ s', send_request E fuel tweet_ token s = (Ok response, s') ∧
        tick s' = tick s + 3 * k + 1 ∧ data s' = data s ∧
        length (filter (λ p, is_send p = true) (trace s'))
        = length (filter (λ p, is_send p = true) (trace s)) + S k.
Proof.
  induction k as [|k IH]; intros fuel tweet_ token s response Hbusy Hsend Hst Hfuel.
  - destruct fuel as [|fuel]; [lia|]. rewrite Nat.add_0_r in Hsend.
    rewrite (send_request_returns E fuel _ _ _ _ Hsend Hst).
    eexists. split; [reflexivity|]. split_and!.
    + simpl. lia.
    + done.
    + simpl. rewrite filter_is_send_app. simpl. done.
  - destruct fuel as [|fuel]; [lia|].
    destruct (Hbusy 0 ltac:(lia)) as (r0 & resume & H1 & H2 & H3 & H4 & H5).
    rewrite Nat.add_0_r in H1, H4, H5.
    rewrite (send_request_retries E fuel _ _ _ _ _ H1 H2 H3 H4 H5).
    set (s1 := next_tick (record_event _ (next_tick (next_tick (record_event _ s))))).
    assert (tick s1 = tick s + 3) as Ht1 by (simpl; lia).
    destruct (IH fuel tweet_ token s1 response) as (s' & Hrun & Ht & Hd & Hn).
    + intros j Hj. replace (tick s1 + 3 * j) with (tick s + 3 * S j) by lia.
      apply Hbusy. lia.
    + by replace (tick s1 + 3 * k) with (tick s + 3 * S k) by lia.
    + done.
    + lia.
    + exists s'. split_and!; [done|lia|by rewrite Hd|].
      rewrite Hn. unfold s1. simpl. rewrite !filter_is_send_app. simpl. lia.
Qed.

Lemma send_request_retries_until_answer_witness :
  ∃ s', send_request busy_env 5 "1" (JStr "gt") (start demo_db)
        = (Ok (ok200 (conversation [tweet_entry "7"; tweet_entry "8"])), s') ∧
        tick s' = 0 + 3 * 2 + 1 ∧ data s' = demo_db ∧
        length (filter (λ p, is_send p = true) (trace s')) = 0 + 3.
Proof.
  apply (send_request_retries_until_answer busy_env 2 5 "1" (JStr "gt") (start demo_db)).
  - intros j Hj. unfold throttled.
    exists {| status_code := 429; x_rate_limit_reset := Some 1000%Z; json_body := None |},
           1000%Z.
    destruct j as [|[|j]]; [| |lia]; (split_and!; [reflexivity..| |reflexivity]);
      simpl; lia.
  - reflexivity.
  - discriminate.
  - lia.
Defined.

(** ** The run of [main] *)

Lemma splice_users_frame blobs need : ∀ result_ s r s',
  splice_users blobs need result_ s = (r, s') →
  tweets (data s') = tweets (data s) ∧ errors (data s') = errors (data s) ∧
  store s' = store s ∧ trace s' = trace s ∧
  (is_Some (users (data s)) → is_Some (users (data s'))).
Proof.
  induction blobs as [|blob rest IH]; intros result_ s r s'; simpl.
  { by intros [= <- <-]. }
  unfold bind at 1. unfold extend_users, modify. cbv beta iota.
  destruct (u_username blob) as [un|]; [|by intros [= <- <-]].
  unfold bind at 1, ret. cbv beta iota.
  destruct (dict_lookup (casefold un) need) as [idx|]; [|by intros [= <- <-]].
  unfold bind at 1, ret. cbv beta iota.
  intros (H1 & H2 & H3 & H4 & H5)%IH. split_and!; try done.
  intros _. by apply H5.
Qed.

Lemma get_user_ids_frame E names s r s' :
  get_user_ids E names s = (r, s') →
  tweets (data s') = tweets (data s) ∧ errors (data s') = errors (data s) ∧
  store s' = store s ∧
  (is_Some (users (data s)) → is_Some (users (data s'))) ∧
  ∃ evs, trace s' = trace s ++ evs ∧
         Forall (λ p, ∃ usernames, p.1 = EvGetUsers usernames) evs.
Proof.
  assert (∀ r0, (r0, s) = (r, s') →
            tweets (data s') = tweets (data s) ∧ errors (data s') = errors (data s) ∧
            store s' = store s ∧
            (is_Some (users (data s)) → is_Some (users (data s'))) ∧
            ∃ evs, trace s' = trace s ++ evs ∧
              Forall (λ p : event * db, ∃ usernames, p.1 = EvGetUsers usernames) evs)
    as Hstop.
  { intros r0 [= <- <-]. split_and!; try done. exists []. by rewrite app_nil_r. }
  unfold get_user_ids. destruct (is_empty names); [apply Hstop|].
  unfold bind at 1, gets. cbv beta iota.
  unfold bind at 1, lift. cbv beta iota.
  destruct (resolve_names names _ [] []) as [[r0 need]| |]; [|apply Hstop..].
  simpl. destruct (is_empty need); [apply Hstop|]. clear Hstop.
  unfold bind at 1, get_users. unfold bind at 1, log, modify, consult. cbv beta iota.
  set (s1 := next_tick (record_event (EvGetUsers need.*1) s)).
  assert (∀ r1, (r1, s1) = (r, s') ∨
                (∃ blobs result_, splice_users blobs need result_ s1 = (r, s')) →
            tweets (data s') = tweets (data s) ∧ errors (data s') = errors (data s) ∧
            store s' = store s ∧
            (is_Some (users (data s)) → is_Some (users (data s'))) ∧
            ∃ evs, trace s' = trace s ++ evs ∧
              Forall (λ p : event * db, ∃ usernames, p.1 = EvGetUsers usernames) evs)
    as Hstop.
  { assert (∃ evs, trace s1 = trace s ++ evs ∧
              Forall (λ p : event * db, ∃ usernames, p.1 = EvGetUsers usernames) evs)
      as Hone.
    { eexists [_]. split; [reflexivity|]. repeat constructor. by eexists. }
    intros r1 [[= <- <-]|(blobs & result_ & Hsp)]; [by split_and!|].
    apply splice_users_frame in Hsp as (H1 & H2 & H3 & H4 & H5).
    split_and!; [by rewrite H1|by rewrite H2|by rewrite H3|done|by rewrite H4]. }
  destruct (client_get_users E _ _) as [got| |];
    [|intros H; eapply Hstop; left; exact H..].
  destruct (ur_errors got); [intros H; eapply Hstop; left; exact H|].
  destruct (ur_data got) as [blobs|]; [|intros H; eapply Hstop; left; exact H].
  intros H. apply (Hstop r). right. eauto.
Qed.

(** A flush whose steps on the disk go through, and the only way for a
    flush to return. *)
Lemma write_db_run E s :
  disk_write E (writes s) = Ok tt →
  write_db E s
  = (Ok tt, with_store (Some (data s)) (next_write (record_event EvWriteDb s))).
Proof. intros H. unfold write_db, disk_steps, bind, log, modify. simpl. by rewrite H. Qed.

Lemma write_db_Ok_inv E s u s' :
  write_db E s = (Ok u, s') →
  s' = with_store (Some (data s)) (next_write (record_event EvWriteDb s)).
Proof.
  unfold write_db, disk_steps, bind, log, modify. simpl.
  destruct (disk_write E (writes s)) as [[]|e|]; [|done..]. by intros [= <-].
Qed.

(** X20. On a database without the key "tweets" (a first run, with no
    state file yet) and with no tweet id on the command line, [main], if
    its first two flushes go through on the disk, stops with [KeyError]
    "tweets" in [get_user_info], after the second flush, once the selectors
    are resolved: no timeline is fetched and no reference is chased. *)
Theorem main_needs_tweets_key E fuel a s ids s1 expand s2 :
  tweets (default empty_db (store s)) = None →
  arg_tweet_id a = [] →
  get_user_ids E (arg_user a)
    (setdefault_users (with_data (λ _, default empty_db (store s)) s)).2 = (Ok ids, s1) →
  get_user_ids E (arg_expand_user a) s1 = (Ok expand, s2) →
  disk_write E (writes s2) = Ok tt →
  disk_write E (S (writes s2)) = Ok tt →
  (main E fuel a s).1 = Raise (KeyError "tweets") ∧
  store (main E fuel a s).2 = Some (data s2) ∧
  tweets (data s2) = None ∧
  trace (main E fuel a s).2 = trace s2 ++ [(EvWriteDb, data s2); (EvWriteDb, data s2)].
Proof.
  intros Hnone Hargs Hids Hexp Hdisk1 Hdisk2.
  destruct (get_user_ids_frame E _ _ _ _ Hids) as (Ht1 & _ & _ & Hu1 & _).
  destruct (get_user_ids_frame E _ _ _ _ Hexp) as (Ht2 & _ & _ & Hu2 & _).
  set (loaded := default empty_db (store s)) in *.
  set (s0 := (setdefault_users (with_data (λ _, loaded) s)).2) in *.
  assert (data s0 = match users loaded with
                    | Some _ => loaded
                    | None => set_users [] loaded
                    end) as Hd0 by done.
  assert (tweets (data s2) = None) as Ht.
  { rewrite Ht2, Ht1, Hd0. by destruct (users loaded). }
  assert (is_Some (users (data s2))) as [users_ Hu].
  { apply Hu2, Hu1. rewrite Hd0.
    destruct (users loaded) eqn:Hl; simpl; rewrite ?Hl; by eexists. }
  set (s3 := with_store (Some (data s2)) (next_write (record_event EvWriteDb s2))).
  set (s4 := with_store (Some (data s3)) (next_write (record_event EvWriteDb s3))).
  assert (main E fuel a s = (Raise (KeyError "tweets"), s4)) as Hmain.
  { unfold main.
    rewrite (bind_Ok _ _ s loaded s) by done.
    rewrite (bind_Ok _ _ s tt (with_data (λ _, loaded) s)) by done.
    rewrite (bind_Ok _ _ _ (users_of (data s0)) s0) by done.
    rewrite (bind_Ok _ _ _ _ _ Hids), (bind_Ok _ _ _ _ _ Hexp).
    rewrite (bind_Ok _ _ _ _ _ (write_db_run E s2 Hdisk1)). fold s3.
    rewrite (bind_Ok _ _ s3 tt s3).
    2:{ apply fetch_tweets_by_id_skip. rewrite Hargs. intros x Hx.
        by apply elem_of_nil in Hx. }
    rewrite (bind_Ok _ _ _ _ _ (write_db_run E s3 Hdisk2)). fold s4.
    apply bind_Raise. unfold get_user_info, bind, gets.
    change (data s4) with (data s2). by rewrite Hu, Ht. }
  rewrite Hmain. split_and!; [done..|]. simpl. by rewrite <- app_assoc.
Qed.

(** X21. When [main] returns, the state file holds the database as it is
    in memory at that moment: the last step is a flush that the throttle
    of the checkpoints does not apply to. *)
Theorem main_commits_on_return E fuel a s s' :
  main E fuel a s = (Ok tt, s') →
  store s' = Some (data s') ∧
  ∃ before, trace s' = before ++ [(EvWriteDb, data s')].
Proof.
  unfold main. intros H.
  do 16 (apply bind_Ok_inv in H as (? & ? & _ & H)).
  apply write_db_Ok_inv in H as ->. split; [done|]. by eexists.
Qed.

Lemma main_needs_tweets_key_witness :
  (main demo_env 5 timeline_args fresh).1 = Raise (KeyError "tweets") ∧
  store (main demo_env 5 timeline_args fresh).2
    = Some {| users := Some []; tweets := None; errors := None |}.
Proof.
  destruct (main_needs_tweets_key demo_env 5 timeline_args fresh [Some "7"%string]
              (setdefault_users (with_data (λ _, empty_db) fresh)).2 []
              (setdefault_users (with_data (λ _, empty_db) fresh)).2)
    as (H1 & H2 & _); [reflexivity..|].
  split; [exact H1|exact H2].
Defined.

Lemma main_commits_on_return_witness :
  first_run.1 = Ok tt ∧
  store first_run.2 = Some (data first_run.2) ∧
  ∃ before, trace first_run.2 = before ++ [(EvWriteDb, data first_run.2)].
Proof.
  split; [vm_compute; reflexivity|].
  apply (main_commits_on_return lost_account_env 5 first_args fresh).
  vm_compute. reflexivity.
Defined.

(** ** The report of [analyze_users.py] *)

Lemma dict_set_keys {V} k (v : V) d :
  (dict_set k v d).*1 = if bool_decide (k ∈ d.*1) then d.*1 else d.*1 ++ [k].
Proof.
  induction d as [|[k0 v0] d IH]; [done|]. cbn [dict_set].
  destruct (String.eqb_spec k0 k) as [->|Hne]; rewrite !fmap_cons; cbn [fst].
  - rewrite bool_decide_eq_true_2; [done|]. by left.
  - rewrite IH. destruct (decide (k ∈ d.*1)) as [Hin|Hout].
    + rewrite !bool_decide_eq_true_2; [done|by right|done].
    + rewrite !bool_decide_eq_false_2; [done| |done].
      intros [?|?]%elem_of_cons; congruence.
Qed.

Lemma dict_set_NoDup {V} k (v : V) d : NoDup d.*1 → NoDup (dict_set k v d).*1.
Proof.
  intros Hnd. rewrite dict_set_keys. case_bool_decide as Hk; [done|].
  apply NoDup_app. split_and!; [done| |apply NoDup_singleton].
  intros x Hx ->%list_elem_of_singleton. done.
Qed.

Lemma dict_lookup_None {V} k (d : list (string * V)) :
  dict_lookup k d = None ↔ k ∉ d.*1.
Proof.
  induction d as [|[k0 v0] d IH]; simpl.
  - split; [intros _ H; by apply elem_of_nil in H|done].
  - destruct (String.eqb_spec k0 k) as [->|Hne].
    + split; [done|]. intros H. destruct H. by left.
    + rewrite IH. rewrite not_elem_of_cons. naive_solver.
Qed.

Lemma dict_lookup_elem_of {V} k (v : V) d :
  NoDup d.*1 → (k, v) ∈ d → dict_lookup k d = Some v.
Proof.
  induction d as [|[k0 v0] d IH]; simpl; intros Hnd Hin.
  - by apply elem_of_nil in Hin.
  - apply NoDup_cons in Hnd as [Hk0 Hnd].
    apply elem_of_cons in Hin as [[= <- <-]|Hin].
    + by rewrite String.eqb_refl.
    + destruct (String.eqb_spec k0 k) as [->|Hne]; [|by apply IH].
      destruct Hk0. apply list_elem_of_fmap. by exists (k, v).
Qed.

Lemma users_by_id_spec users_ :
  counted_ok [] (users_by_id users_) ∧
  ∀ x, x ∈ (users_by_id users_).*1 ↔ x ∈ u_id <$> users_.
Proof.
  unfold users_by_id.
  assert (∀ d, (counted_ok [] d →
            counted_ok [] (foldl (λ d x, dict_set (u_id x)
              {| row_user := x; row_tweets := 0; row_convos := ∅ |} d) d users_)) ∧
            ∀ x, x ∈ (foldl (λ d x, dict_set (u_id x)
              {| row_user := x; row_tweets := 0; row_convos := ∅ |} d) d users_).*1
                 ↔ x ∈ d.*1 ∨ x ∈ u_id <$> users_) as H.
  { induction users_ as [|u rest IH]; intros d; simpl.
    - split; [done|]. intros x. split; [by left|].
      intros [?|H]; [done|]. by apply elem_of_nil in H.
    - destruct (IH (dict_set (u_id u)
                      {| row_user := u; row_tweets := 0; row_convos := ∅ |} d))
        as [IH1 IH2]. split.
      + intros [Hnd Hrows]. apply IH1. split; [by apply dict_set_NoDup|].
        intros k r. rewrite dict_lookup_dict_set.
        destruct (String.eqb_spec (u_id u) k) as [<-|Hne]; [|by apply Hrows].
        intros [= <-]. by split_and!.
      + intros x. rewrite IH2, dict_set_keys, elem_of_cons.
        case_bool_decide as Hk; [|rewrite elem_of_app, list_elem_of_singleton];
          naive_solver. }
  destruct (H []) as [H1 H2]. split.
  - apply H1. split; [apply NoDup_nil_2|done].
  - intros x. rewrite H2. split; [|by right].
    intros [Hx|?]; [|done]. by apply elem_of_nil in Hx.
Qed.

Lemma tweets_by_snoc k seen tw :
  tweets_by k (seen ++ [tw])
  = tweets_by k seen ++ (if decide (tw_author_id tw = k) then [tw] else []).
Proof.
  unfold tweets_by. by rewrite filter_app.
Qed.

Lemma count_tweet_spec seen d tw d' :
  counted_ok seen d → count_tweet d tw = Ok d' →
  counted_ok (seen ++ [tw]) d' ∧ d'.*1 = d.*1.
Proof.
  intros [Hnd Hrows]. unfold count_tweet.
  destruct (dict_lookup (tw_author_id tw) d) as [r|] eqn:Hr; [|done].
  intros [= <-].
  assert (tw_author_id tw ∈ d.*1) as Hin.
  { destruct (decide (tw_author_id tw ∈ d.*1)) as [?|Hout]; [done|].
    apply dict_lookup_None in Hout. congruence. }
  split; [split|].
  - by apply dict_set_NoDup.
  - intros k r'. rewrite dict_lookup_dict_set, tweets_by_snoc.
    destruct (String.eqb_spec (tw_author_id tw) k) as [<-|Hne].
    + intros [= <-]. destruct (Hrows _ _ Hr) as (H1 & H2 & H3).
      rewrite decide_True by done. simpl. split_and!; [done| |].
      * rewrite length_app, H2. simpl. lia.
      * rewrite fmap_app, list_to_set_app_L, H3. simpl. set_solver.
    + intros Hk. rewrite decide_False by done. rewrite app_nil_r. by apply Hrows.
  - rewrite dict_set_keys. by rewrite bool_decide_eq_true_2.
Qed.

Lemma count_tweets_spec tweets_ : ∀ seen d d',
  counted_ok seen d → count_tweets tweets_ d = Ok d' →
  counted_ok (seen ++ tweets_) d' ∧ d'.*1 = d.*1.
Proof.
  induction tweets_ as [|tw rest IH]; intros seen d d' Hok; simpl.
  - intros [= <-]. by rewrite app_nil_r.
  - destruct (count_tweet d tw) as [d1| |] eqn:H1; simpl; [|done..].
    destruct (count_tweet_spec _ _ _ _ Hok H1) as [Hok1 Hk1].
    intros H2. destruct (IH _ _ _ Hok1 H2) as [Hok2 Hk2].
    rewrite <- app_assoc in Hok2. split; [done|]. by rewrite Hk2.
Qed.

Lemma count_tweets_Ok tweets_ : ∀ d,
  (∀ tw, tw ∈ tweets_ → tw_author_id tw ∈ d.*1) →
  ∃ d', count_tweets tweets_ d = Ok d'.
Proof.
  induction tweets_ as [|tw rest IH]; intros d Hall; simpl; [by eexists|].
  unfold count_tweet at 1.
  destruct (dict_lookup (tw_author_id tw) d) as [r|] eqn:Hr.
  - simpl. apply IH. intros tw' Htw'. rewrite dict_set_keys.
    case_bool_decide; [|apply elem_of_app; left]; apply Hall; by right.
  - apply dict_lookup_None in Hr. destruct Hr. apply Hall. by left.
Qed.

Lemma count_tweets_Raise tweets_ : ∀ d r,
  count_tweets tweets_ d = r → (∀ d', r ≠ Ok d') →
  ∃ tw, tw ∈ tweets_ ∧ (tw_author_id tw ∉ d.*1) ∧ r = Raise (KeyError (tw_author_id tw)).
Proof.
  induction tweets_ as [|tw rest IH]; intros d r; simpl.
  - intros <- H. by destruct (H d).
  - unfold count_tweet at 1.
    destruct (dict_lookup (tw_author_id tw) d) as [r0|] eqn:Hr; simpl.
    + intros Hrun Hne. destruct (IH _ _ Hrun Hne) as (tw' & Htw' & Hout & ->).
      exists tw'. split_and!; [by right| |done].
      rewrite dict_set_keys in Hout. case_bool_decide; [done|].
      intros ?. apply Hout. apply elem_of_app. by left.
    + intros <- _. exists tw. split_and!; [by left| |done].
      by apply dict_lookup_None.
Qed.

Lemma insert_row_perm r l : insert_row r l ≡ₚ r :: l.
Proof.
  induction l as [|y l IH]; simpl; [done|].
  case_match; [done|]. by rewrite IH, Permutation_swap.
Qed.

Lemma sort_rows_perm l : sort_rows l ≡ₚ l.
Proof.
  induction l as [|r l IH]; simpl; [done|].
  by rewrite insert_row_perm, IH.
Qed.

Lemma insert_row_sorted r l :
  StronglySorted more_tweets l → StronglySorted more_tweets (insert_row r l).
Proof.
  induction 1 as [|y l Hl IH Hy]; simpl.
  - repeat constructor.
  - destruct (Nat.leb_spec (row_tweets y) (row_tweets r)) as [Hle|Hgt].
    + constructor; [by constructor|]. constructor; [done|].
      eapply Forall_impl; [exact Hy|]. intros z Hz. unfold more_tweets in *. lia.
    + constructor; [done|]. rewrite insert_row_perm. constructor; [|done].
      unfold more_tweets. lia.
Qed.

Lemma sort_rows_sorted l : StronglySorted more_tweets (sort_rows l).
Proof.
  induction l as [|r l IH]; simpl; [constructor|]. by apply insert_row_sorted.
Qed.

Lemma insert_row_stable n r l :
  StronglySorted more_tweets l →
  filter (λ x, row_tweets x = n) (insert_row r l)
  = filter (λ x, row_tweets x = n) (r :: l).
Proof.
  induction 1 as [|y l Hl IH Hy]; simpl; [done|].
  destruct (Nat.leb_spec (row_tweets y) (row_tweets r)) as [Hle|Hgt]; [done|].
  rewrite filter_cons, IH, !filter_cons.
  destruct (decide (row_tweets y = n)) as [Hyn|?]; [|done].
  destruct (decide (row_tweets r = n)) as [Hrn|?]; [lia|done].
Qed.

Lemma sort_rows_stable n l :
  filter (λ x, row_tweets x = n) (sort_rows l) = filter (λ x, row_tweets x = n) l.
Proof.
  induction l as [|r l IH]; simpl; [done|].
  rewrite insert_row_stable by apply sort_rows_sorted.
  by rewrite !filter_cons, IH.
Qed.

Lemma size_list_to_set_le (l : list string) :
  size (list_to_set l : gset string) ≤ length l.
Proof.
  induction l as [|x l IH].
  { change (size (∅ : gset string) ≤ 0). by rewrite size_empty. }
  rewrite list_to_set_cons, size_union_alt, size_singleton. simpl.
  pose proof (subseteq_size (list_to_set l ∖ {[x]}) (list_to_set l : gset string)
                ltac:(set_solver)). lia.
Qed.

Lemma counted_ok_ids seen d :
  counted_ok seen d → (u_id ∘ row_user) <$> d.*2 = d.*1.
Proof.
  intros [Hnd Hrows].
  assert (∀ k r, (k, r) ∈ d → u_id (row_user r) = k) as Hall.
  { intros k r Hin. by destruct (Hrows k r (dict_lookup_elem_of _ _ _ Hnd Hin)). }
  clear Hnd Hrows. induction d as [|[k r] d IH]; [done|].
  rewrite !fmap_cons. cbn [fst snd]. f_equal.
  - apply Hall. by left.
  - apply IH. intros k' r' Hin. apply Hall. by right.
Qed.

Lemma count_users_spec d counted :
  count_users d = Ok counted →
  counted_ok (tweets_of d) counted ∧
  (∀ x, x ∈ counted.*1 ↔ x ∈ u_id <$> users_of d).
Proof.
  unfold count_users, tweets_of, users_of.
  destruct (users d) as [users_|]; [|done].
  destruct (tweets d) as [tweets_|]; [|done]. simpl.
  destruct (users_by_id_spec users_) as [H1 H2]. intros Hrun.
  destruct (count_tweets_spec _ _ _ _ H1 Hrun) as [H3 H4].
  split; [done|]. intros x. by rewrite H4.
Qed.

(** X22. The report has one row for every user id of the database; the
    row counts the tweets of the database whose author is that user, and
    its conversations are the conversation ids of these tweets, so never
    more than the tweets. *)
Theorem analyze_rows_counts d rows :
  analyze_rows d = Ok rows →
  NoDup ((u_id ∘ row_user) <$> rows) ∧
  (∀ x, x ∈ (u_id ∘ row_user) <$> rows ↔ x ∈ u_id <$> users_of d) ∧
  ∀ r, r ∈ rows →
    row_tweets r = length (tweets_by (u_id (row_user r)) (tweets_of d)) ∧
    row_convos r
    = list_to_set (tw_conversation_id <$> tweets_by (u_id (row_user r)) (tweets_of d)) ∧
    size (row_convos r) ≤ row_tweets r.
Proof.
  unfold analyze_rows.
  destruct (count_users d) as [counted| |] eqn:Hc; simpl; [|done..].
  intros [= <-]. destruct (count_users_spec _ _ Hc) as [Hok Hkeys].
  pose proof (counted_ok_ids _ _ Hok) as Hids. destruct Hok as [Hnd Hrows].
  split_and!.
  - rewrite sort_rows_perm, Hids. done.
  - intros x. rewrite sort_rows_perm, Hids. apply Hkeys.
  - intros r Hr. rewrite sort_rows_perm in Hr.
    apply list_elem_of_fmap in Hr as ([k r'] & -> & Hin). simpl.
    destruct (Hrows k r' (dict_lookup_elem_of _ _ _ Hnd Hin)) as (H1 & H2 & H3).
    rewrite H1. split_and!; [done..|].
    rewrite H3, H2. etrans; [apply size_list_to_set_le|]. by rewrite length_fmap.
Qed.

Lemma dict_set_sum (f : row → nat) k v d r :
  dict_lookup k d = Some r →
  sum_list (f <$> (dict_set k v d).*2) + f r = sum_list (f <$> d.*2) + f v.
Proof.
  induction d as [|[k0 v0] d IH]; [done|]. cbn [dict_set dict_lookup].
  destruct (String.eqb_spec k0 k) as [->|Hne].
  - intros [= ->]. rewrite !fmap_cons. simpl. lia.
  - intros Hr. rewrite !fmap_cons. simpl. specialize (IH Hr). lia.
Qed.

Lemma dict_set_Forall {V} (P : V → Prop) k v (d : list (string * V)) :
  P v → Forall P d.*2 → Forall P (dict_set k v d).*2.
Proof.
  intros Hv. induction d as [|[k0 v0] d IH]; cbn [dict_set].
  - intros _. by repeat constructor.
  - rewrite fmap_cons. intros [H0 Hd]%Forall_cons.
    destruct (String.eqb k0 k); rewrite fmap_cons; constructor; auto.
Qed.

Lemma users_by_id_sum users_ : sum_list (row_tweets <$> (users_by_id users_).*2) = 0.
Proof.
  unfold users_by_id.
  assert (∀ d, Forall (λ r, row_tweets r = 0) d.*2 →
            Forall (λ r, row_tweets r = 0)
              (foldl (λ d x, dict_set (u_id x)
                 {| row_user := x; row_tweets := 0; row_convos := ∅ |} d) d users_).*2)
    as H.
  { induction users_ as [|u rest IH]; intros d Hd; simpl; [done|].
    apply IH. by apply dict_set_Forall. }
  specialize (H [] ltac:(constructor)). revert H.
  generalize ((foldl (λ d x, dict_set (u_id x)
                 {| row_user := x; row_tweets := 0; row_convos := ∅ |} d) [] users_).*2).
  intros l H. induction H as [|r l Hr _ IH]; [done|].
  change (row_tweets r + sum_list (row_tweets <$> l) = 0). lia.
Qed.

Lemma count_tweets_sum tweets_ : ∀ d d',
  count_tweets tweets_ d = Ok d' →
  sum_list (row_tweets <$> d'.*2) = sum_list (row_tweets <$> d.*2) + length tweets_.
Proof.
  induction tweets_ as [|tw rest IH]; intros d d'; simpl.
  - intros [= <-]. lia.
  - unfold count_tweet at 1.
    destruct (dict_lookup (tw_author_id tw) d) as [r|] eqn:Hr; simpl; [|done].
    intros Hrun. rewrite (IH _ _ Hrun).
    pose proof (dict_set_sum row_tweets (tw_author_id tw)
                  {| row_user := row_user r; row_tweets := S (row_tweets r);
                     row_convos := {[tw_conversation_id tw]} ∪ row_convos r |} d r Hr)
      as Hs. simpl in Hs. lia.
Qed.

Lemma sum_list_perm (l1 l2 : list nat) : l1 ≡ₚ l2 → sum_list l1 = sum_list l2.
Proof. induction 1; simpl; lia. Qed.

(** X23. The rows are printed by falling number of tweets; rows with the
    same number keep the order in which their ids first appear among the
    users of the database (the sort is stable); and the numbers of tweets
    of all rows add up to the number of tweets of the database. *)
Theorem analyze_rows_order d rows :
  analyze_rows d = Ok rows →
  ∃ counted, count_users d = Ok counted ∧
    rows ≡ₚ counted.*2 ∧
    StronglySorted more_tweets rows ∧
    (∀ n, filter (λ r, row_tweets r = n) rows
          = filter (λ r, row_tweets r = n) counted.*2) ∧
    sum_list (row_tweets <$> rows) = length (tweets_of d).
Proof.
  unfold analyze_rows.
  destruct (count_users d) as [counted| |] eqn:Hc; simpl; [|done..].
  intros [= <-]. exists counted. split_and!.
  - done.
  - apply sort_rows_perm.
  - apply sort_rows_sorted.
  - intros n. apply sort_rows_stable.
  - rewrite (sum_list_perm _ (row_tweets <$> counted.*2))
      by (by rewrite sort_rows_perm).
    revert Hc. unfold count_users, tweets_of.
    destruct (users d) as [users_|]; [|done].
    destruct (tweets d) as [tweets_|]; [|done]. simpl.
    intros Hrun. rewrite (count_tweets_sum _ _ _ Hrun), users_by_id_sum. lia.
Qed.

(** X24. On a database that has its two keys the script prints its report
    exactly when every author of a tweet has a user record; otherwise it
    stops with the [KeyError] of such an author and prints nothing. *)
Theorem analyze_users_needs_records d :
  users d ≠ None → tweets d ≠ None →
  ((∃ lines, analyze_users d = Ok lines) ↔
   ∀ tw, tw ∈ tweets_of d → tw_author_id tw ∈ u_id <$> users_of d) ∧
  (∀ lines, analyze_users d = Ok lines →
     ∃ rows, analyze_rows d = Ok rows ∧ lines = header :: (format_row <$> rows)) ∧
  (∀ r, analyze_users d = r → (∀ lines, r ≠ Ok lines) →
     ∃ tw, tw ∈ tweets_of d ∧ (tw_author_id tw ∉ u_id <$> users_of d) ∧
           r = Raise (KeyError (tw_author_id tw))).
Proof.
  intros Hu Ht. unfold analyze_users, analyze_rows, count_users, tweets_of, users_of.
  destruct (users d) as [users_|]; [|done].
  destruct (tweets d) as [tweets_|]; [|done]. simpl.
  destruct (users_by_id_spec users_) as [H1 H2].
  split_and!.
  - split.
    + intros [lines Hl] tw Htw.
      destruct (count_tweets tweets_ (users_by_id users_)) as [d'| |] eqn:Hrun;
        [|done..].
      destruct (decide (tw_author_id tw ∈ u_id <$> users_)) as [?|Hout]; [done|].
      exfalso. clear Hl. revert Hrun Htw Hout. rewrite <- H2.
      generalize (users_by_id users_). clear.
      induction tweets_ as [|tw0 rest IH]; intros d0 Hrun Htw Hout.
      { by apply elem_of_nil in Htw. }
      simpl in Hrun. unfold count_tweet at 1 in Hrun.
      destruct (dict_lookup (tw_author_id tw0) d0) as [r|] eqn:Hr; [|done].
      simpl in Hrun. apply elem_of_cons in Htw as [->|Htw].
      * apply dict_lookup_None in Hout. congruence.
      * apply (IH _ Hrun Htw). rewrite dict_set_keys.
        rewrite bool_decide_eq_true_2; [done|].
        destruct (decide (tw_author_id tw0 ∈ d0.*1)) as [?|Hn]; [done|].
        apply dict_lookup_None in Hn. congruence.
    + intros Hall. destruct (count_tweets_Ok tweets_ (users_by_id users_)) as [d' ->].
      * intros tw Htw. apply H2. by apply Hall.
      * simpl. by eexists.
  - intros lines.
    destruct (count_tweets tweets_ (users_by_id users_)) as [d'| |]; [|done..].
    simpl. intros [= <-]. by eexists.
  - intros r Hr Hne.
    destruct (count_tweets_Raise tweets_ (users_by_id users_)
                (count_tweets tweets_ (users_by_id users_)) eq_refl)
      as (tw & Htw & Hout & Hraise).
    + intros d' Hd'. rewrite Hd' in Hr. simpl in Hr. subst r. by eapply Hne.
    + exists tw. split_and!; [done|by rewrite <- H2|].
      rewrite Hraise in Hr. by subst r.
Qed.

Lemma analyze_rows_counts_witness :
  ∃ rows, analyze_rows cached_db = Ok rows ∧
    NoDup ((u_id ∘ row_user) <$> rows) ∧
    (∀ x, x ∈ (u_id ∘ row_user) <$> rows ↔ x ∈ u_id <$> users_of cached_db) ∧
    ∀ r, r ∈ rows →
      row_tweets r = length (tweets_by (u_id (row_user r)) (tweets_of cached_db)) ∧
      row_convos r
      = list_to_set (tw_conversation_id
                       <$> tweets_by (u_id (row_user r)) (tweets_of cached_db)) ∧
      size (row_convos r) ≤ row_tweets r.
Proof.
  destruct (analyze_rows cached_db) as [rows| |] eqn:H;
    [|vm_compute in H; discriminate H..].
  exists rows. split; [reflexivity|]. exact (analyze_rows_counts cached_db rows H).
Defined.

Lemma analyze_rows_order_witness :
  ∃ rows, analyze_rows cached_db = Ok rows ∧
    (row_tweets <$> rows) = [2; 1] ∧
    ∃ counted, count_users cached_db = Ok counted ∧
      rows ≡ₚ counted.*2 ∧
      StronglySorted more_tweets rows ∧
      (∀ n, filter (λ r, row_tweets r = n) rows
            = filter (λ r, row_tweets r = n) counted.*2) ∧
      sum_list (row_tweets <$> rows) = length (tweets_of cached_db).
Proof.
  destruct (analyze_rows cached_db) as [rows| |] eqn:H;
    [|vm_compute in H; discriminate H..].
  exists rows. split; [reflexivity|]. split.
  - revert H. vm_compute. intros [= <-]. reflexivity.
  - exact (analyze_rows_order cached_db rows H).
Defined.

Lemma analyze_users_needs_records_witness :
  (∀ r, analyze_users uncached_db = r → (∀ lines, r ≠ Ok lines) →
     ∃ tw, tw ∈ tweets_of uncached_db ∧
           (tw_author_id tw ∉ u_id <$> users_of uncached_db) ∧
           r = Raise (KeyError (tw_author_id tw))) ∧
  analyze_users uncached_db = Raise (KeyError "u5").
Proof.
  split; [|vm_compute; reflexivity].
  apply (analyze_users_needs_records uncached_db); discriminate.
Defined.

Lemma lookup_chunks_users E starts to_fetch : ∀ s r s',
  lookup_chunks E starts to_fetch s = (r, s') →
  is_Some (users (data s)) → is_Some (users (data s')).
Proof.
  induction starts as [|chunk rest IH]; intros s r s'; simpl.
  { by intros [= <- <-]. }
  unfold bind at 1. unfold get_users_by_id, bind at 1, log, modify, consult.
  cbn [record_event tick].
  destruct (client_get_users_by_id E _ _) as [got| |]; [|by intros [= <- <-]..].
  unfold bind at 1, extend_users, modify.
  destruct (ur_data got) as [found|].
  - unfold bind at 1, ret. unfold bind at 1. intros Hrest _.
    eapply IH; [exact Hrest|]. by eexists.
  - unfold bind at 1, raise. intros [= <- <-] _. by eexists.
Qed.

(** X25. The two programs fit: a database on which [get_user_info] has
    returned, with a lookup that answers for every id, is one on which
    [analyze_users.py] prints its report. *)
Theorem get_user_info_then_report E s s' :
  complete_users E →
  get_user_info E s = (Ok tt, s') →
  ∃ rows, analyze_rows (data s') = Ok rows ∧
          analyze_users (data s') = Ok (header :: (format_row <$> rows)).
Proof.
  intros Hc Hrun.
  destruct (get_user_info_run _ _ _ Hrun) as (Htw & (new & Hnew & Hcov) & _).
  assert (is_Some (users (data s')) ∧ is_Some (tweets (data s'))) as [[us Hus] [ts Hts]].
  { revert Hrun. unfold get_user_info. unfold bind, gets.
    destruct (users (data s)) as [users_|] eqn:Hu; [|done].
    destruct (tweets (data s)) as [tweets_|] eqn:Ht; [|done].
    intros Hrun. split; [|rewrite Htw; by eexists].
    eapply lookup_chunks_users; [exact Hrun|]. rewrite Hu. by eexists. }
  assert (∀ tw, tw ∈ tweets_of (data s') → tw_author_id tw ∈ u_id <$> users_of (data s'))
    as Hall.
  { intros tw Hin.
    assert (tweets_of (data s') = tweets_of (data s)) as Htw'
      by (unfold tweets_of; by rewrite Htw).
    rewrite Htw' in Hin. rewrite Hnew, fmap_app, elem_of_app.
    destruct (decide (tw_author_id tw ∈ u_id <$> users_of (data s))) as [Hk|Hk];
      [by left|right].
    apply (Hcov Hc). unfold authors_to_fetch. apply elem_of_elements.
    apply elem_of_difference. split.
    - apply elem_of_list_to_set. by apply list_elem_of_fmap_2.
    - by rewrite elem_of_list_to_set. }
  unfold analyze_users, analyze_rows, count_users.
  unfold tweets_of, users_of in Hall. rewrite Hus, Hts in *. simpl in Hall.
  destruct (users_by_id_spec us) as [_ H2].
  destruct (count_tweets_Ok ts (users_by_id us)) as [d' ->].
  { intros tw Htw0. apply H2. by apply Hall. }
  simpl. by eexists.
Qed.

Lemma get_user_info_then_report_witness :
  let s' := (get_user_info directory_env (start uncached_db)).2 in
  ∃ rows, analyze_rows (data s') = Ok rows ∧
          analyze_users (data s') = Ok (header :: (format_row <$> rows)).
Proof.
  intros s'.
  apply (get_user_info_then_report directory_env (start uncached_db) s').
  - apply directory_env_complete_users.
  - vm_compute. reflexivity.
Defined.
